(** * gopoke: a verification development for [main.go]

    The program issues one HTTP GET from a worker goroutine, decodes the JSON
    body into [Pokemon], prints six fields and downloads up to two sprites
    into local files.  This file embeds the program in Rocq:

    - Go values ([]byte, string, int32, error, the four structs) as Rocq data;
    - the outside world (HTTP server, file system, console) as an explicit
      [World] state driven by an [Env] of oracles;
    - the functions of [main.go] as programs of a small monad [prog] whose
      constructors are the library calls and the goroutine primitives the
      source uses;
    - goroutines, unbuffered channels, [select] and the WaitGroup as a
      step relation over a pool of such programs. *)

From Stdlib Require Import ZArith Lia.
From Stdlib Require Import Strings.Byte.
From stdpp Require Import gmap strings list.

Set Default Proof Using "Type".

(** ** Go data *)

(** A [[]byte]. *)
Abbreviation bytes := (list byte).

(** The structs of the wire schema (main.go, lines 13-35).  [int32] fields
    are integers of [Z]; the decoder only ever stores values of the int32
    range in them (see [int32_of_literal]). *)
Record Stat := { Stat_Name : string; Stat_URL : string }.

Record StatInfo := { StatInfo_Stat : Stat; StatInfo_BaseStat : Z }.

Record Sprites := { FrontDefault : string; BackDefault : string }.

Record Pokemon := {
  Name : string;
  BaseExp : Z;
  Height : Z;
  Id : Z;
  Sprites_ : Sprites;
  StatInfo_ : list StatInfo
}.

(** The zero values [Stat{}], [StatInfo{}], [Sprites{}], [Pokemon{}]. *)
Definition Stat_zero : Stat := {| Stat_Name := ""; Stat_URL := "" |}.
Definition StatInfo_zero : StatInfo :=
  {| StatInfo_Stat := Stat_zero; StatInfo_BaseStat := 0 |}.
Definition Sprites_zero : Sprites := {| FrontDefault := ""; BackDefault := "" |}.
Definition Pokemon_zero : Pokemon :=
  {| Name := ""; BaseExp := 0; Height := 0; Id := 0;
     Sprites_ := Sprites_zero; StatInfo_ := [] |}.

(** Non-nil [error] values.  A Go variable of type [error] is an
    [option error], [None] being [nil]. *)
Inductive error : Type :=
| LibError (msg : string)
    (* an error returned by net/http, io or os *)
| SyntaxError
    (* *json.SyntaxError *)
| UnmarshalTypeError (value gotype : string)
    (* *json.UnmarshalTypeError{Value: value, Type: gotype} *)
| Errorf (format : string) (arg : fmt_arg)
    (* fmt.Errorf(format, arg) with one verb in [format] *)
with fmt_arg : Type :=
| ArgError (e : error)
| ArgInt (n : Z).

(** What [fmt.Println] is given: its operands, kept as values. *)
Inductive value : Type :=
| VString (s : string)
| VInt32 (n : Z)
| VError (e : option error)
| VSprites (s : Sprites)
| VStatInfos (l : list StatInfo).

(** ** The outside world *)

(** [resp.Body]: what reading the stream to its end produces, the bytes
    received and the read error that stopped it, if any. *)
Record ReadCloser := { stream_data : bytes; stream_err : option error }.

(** [*http.Response], the two fields the program looks at. *)
Record Response := { StatusCode : Z; Body : ReadCloser }.

(** [*os.File]: the handle remembers the name it was opened with. *)
Record File := { file_name : string }.

Definition StatusOK : Z := 200.

(** The two channels [main] makes (lines 110-111), and a value in transit on
    one of them: [resultChan] carries [[]byte], [errorChan] carries [error]. *)
Inductive chan : Type := resultChan | errorChan.

Inductive message : Type :=
| on_resultChan (body : bytes)
| on_errorChan (err : option error).

Definition chan_of (m : message) : chan :=
  match m with on_resultChan _ => resultChan | on_errorChan _ => errorChan end.

(** What a receive on a closed channel yields: the zero value of the
    element type. *)
Definition zero_message (c : chan) : message :=
  match c with
  | resultChan => on_resultChan []
  | errorChan => on_errorChan None
  end.

#[global] Instance chan_eq_dec : EqDecision chan.
Proof. solve_decision. Defined.

Abbreviation gid := nat (only parsing).

(** Observable events, in the order they happen.  Every entry of the trace
    carries the number of the goroutine that performed it (0 is [main]). *)
Inductive event : Type :=
| EvHttpGet (url : string)                (* an HTTP GET is issued *)
| EvRecv (sender : option gid) (m : message)
    (* a select case received m, from a sending goroutine or, with no
       sender, from a closed channel *)
| EvPrintln (args : list value)           (* one console line *)
| EvCreate (name : string)                (* os.Create(name) is called *)
| EvWrite (name : string) (data : bytes). (* file.Write(data) is called *)

Record World := {
  trace : list (gid * event);
  fs : gmap string bytes           (* file name -> contents *)
}.

Definition log (g : gid) (e : event) (w : World) : World :=
  {| trace := trace w ++ [(g, e)]; fs := fs w |}.

(** The environment decides what the network and the operating system
    answer.  Each oracle sees the history so far, so two calls with the
    same arguments may be answered differently. *)
Record Env := {
  env_get : list (gid * event) -> string -> Response + error;
    (* client.Get(url) *)
  env_create : list (gid * event) -> string -> option error;
    (* does os.Create(name) fail? *)
  env_write : list (gid * event) -> string -> bytes -> option (nat * error)
    (* does file.Write(data) fail, and after how many bytes? *)
}.

(** ** Programs *)

(** The functions [go] is applied to in [main]. *)
Inductive gofunc : Type :=
| go_fetchData (url : string)     (* go fetchData(url, &wg, resultChan, errorChan) *)
| go_func1.                       (* go func() { wg.Wait(); close(..); close(..) }() *)

(** A Go function body as a tree of the calls it makes.  [wg] is the one
    WaitGroup of the program. *)
Inductive prog (A : Type) : Type :=
| Ret (a : A)
| HttpGet (url : string) (k : Response + error -> prog A)
| BodyClose (r : Response) (k : prog A)
| Println (args : list value) (k : prog A)
| OsCreate (name : string) (k : File + error -> prog A)
| FileWrite (f : File) (data : bytes) (k : nat * option error -> prog A)
| FileClose (f : File) (k : prog A)
| Go (f : gofunc) (k : prog A)
| Send (m : message) (k : prog A)
| Select (cases : list chan) (k : message -> prog A)
| Close (c : chan) (k : prog A)
| WgAdd (delta : Z) (k : prog A)
| WgDone (k : prog A)
| WgWait (k : prog A).

Arguments Ret {A} a.
Arguments HttpGet {A} url k.
Arguments BodyClose {A} r k.
Arguments Println {A} args k.
Arguments OsCreate {A} name k.
Arguments FileWrite {A} f data k.
Arguments FileClose {A} f k.
Arguments Go {A} f k.
Arguments Send {A} m k.
Arguments Select {A} cases k.
Arguments Close {A} c k.
Arguments WgAdd {A} delta k.
Arguments WgDone {A} k.
Arguments WgWait {A} k.

Fixpoint bind {A B : Type} (p : prog A) (f : A -> prog B) : prog B :=
  match p with
  | Ret a => f a
  | HttpGet url k => HttpGet url (fun r => bind (k r) f)
  | BodyClose r k => BodyClose r (bind k f)
  | Println args k => Println args (bind k f)
  | OsCreate name k => OsCreate name (fun r => bind (k r) f)
  | FileWrite h data k => FileWrite h data (fun r => bind (k r) f)
  | FileClose h k => FileClose h (bind k f)
  | Go g k => Go g (bind k f)
  | Send m k => Send m (bind k f)
  | Select cs k => Select cs (fun m => bind (k m) f)
  | Close c k => Close c (bind k f)
  | WgAdd d k => WgAdd d (bind k f)
  | WgDone k => WgDone (bind k f)
  | WgWait k => WgWait (bind k f)
  end.

Declare Scope prog_scope.
Delimit Scope prog_scope with prog.
Bind Scope prog_scope with prog.

Notation "x <- p ;; q" := (bind p (fun x => q))
  (at level 100, p at next level, right associativity) : prog_scope.
Notation "p ;;; q" := (bind p (fun _ => q))
  (at level 100, right associativity) : prog_scope.

(** The calls as one-step programs. *)
Definition http_Get (url : string) : prog (Response + error) := HttpGet url Ret.
Definition Body_Close (r : Response) : prog unit := BodyClose r (Ret tt).
Definition fmt_Println (args : list value) : prog unit := Println args (Ret tt).
Definition os_Create (name : string) : prog (File + error) := OsCreate name Ret.
Definition file_Write (f : File) (data : bytes) : prog (nat * option error) :=
  FileWrite f data Ret.
Definition file_Close (f : File) : prog unit := FileClose f (Ret tt).
Definition go (f : gofunc) : prog unit := Go f (Ret tt).
Definition send (m : message) : prog unit := Send m (Ret tt).
Definition close (c : chan) : prog unit := Close c (Ret tt).
Definition wg_Add (delta : Z) : prog unit := WgAdd delta (Ret tt).
Definition wg_Done : prog unit := WgDone (Ret tt).
Definition wg_Wait : prog unit := WgWait (Ret tt).

(** [io.ReadAll(resp.Body)]: the data read and the error that ended the
    read, if any. *)
Definition io_ReadAll (b : ReadCloser) : bytes * option error :=
  (stream_data b, stream_err b).

(** ** What the library calls do to the world *)

Section Semantics.

Context (env : Env).

Definition do_Get (g : gid) (url : string) (w : World)
  : (Response + error) * World :=
  (env_get env (trace w) url, log g (EvHttpGet url) w).

Definition do_Println (g : gid) (args : list value) (w : World) : World :=
  log g (EvPrintln args) w.

(** [os.Create] creates the named file or truncates it; on failure the file
    system is left as it was. *)
Definition do_Create (g : gid) (name : string) (w : World)
  : (File + error) * World :=
  match env_create env (trace w) name with
  | Some e => (inr e, log g (EvCreate name) w)
  | None =>
      (inl {| file_name := name |},
       log g (EvCreate name)
         {| trace := trace w; fs := <[name := []]> (fs w) |})
  end.

(** [file.Write] appends at the file offset, which for a handle that has
    just been created is the end of the file.  A failing write may still
    have written a prefix; it then returns a short count and an error. *)
Definition do_Write (g : gid) (f : File) (data : bytes) (w : World)
  : (nat * option error) * World :=
  let old := default [] (fs w !! file_name f) in
  match env_write env (trace w) (file_name f) data with
  | None =>
      ((length data, None),
       log g (EvWrite (file_name f) data)
         {| trace := trace w; fs := <[file_name f := old ++ data]> (fs w) |})
  | Some (n, e) =>
      ((length (take n data), Some e),
       log g (EvWrite (file_name f) data)
         {| trace := trace w;
            fs := <[file_name f := old ++ take n data]> (fs w) |})
  end.

(** Running a body that starts no goroutine and touches no channel or
    WaitGroup: the calls are answered one after the other.  [None] when the
    body reaches a goroutine primitive. *)
Fixpoint run {A : Type} (g : gid) (p : prog A) (w : World) : option (A * World) :=
  match p with
  | Ret a => Some (a, w)
  | HttpGet url k => let '(r, w') := do_Get g url w in run g (k r) w'
  | BodyClose _ k => run g k w
  | Println args k => run g k (do_Println g args w)
  | OsCreate name k => let '(r, w') := do_Create g name w in run g (k r) w'
  | FileWrite f data k => let '(r, w') := do_Write g f data w in run g (k r) w'
  | FileClose _ k => run g k w
  | Go _ _ | Send _ _ | Select _ _ | Close _ _
  | WgAdd _ _ | WgDone _ | WgWait _ => None
  end.

(** One goroutine on its own, each of its sends finding a receiver at
    once: the messages it sends, in order.  [None] when the body reaches a
    [select] or [wg.Wait()], which wait for another goroutine. *)
Fixpoint sends {A : Type} (g : gid) (p : prog A) (w : World) : option (list message) :=
  match p with
  | Ret _ => Some []
  | HttpGet url k => let '(r, w') := do_Get g url w in sends g (k r) w'
  | BodyClose _ k => sends g k w
  | Println args k => sends g k (do_Println g args w)
  | OsCreate name k => let '(r, w') := do_Create g name w in sends g (k r) w'
  | FileWrite f data k => let '(r, w') := do_Write g f data w in sends g (k r) w'
  | FileClose _ k => sends g k w
  | Send m k => option_map (cons m) (sends g k w)
  | Go _ k | Close _ k | WgAdd _ k | WgDone k => sends g k w
  | Select _ _ | WgWait _ => None
  end.

End Semantics.

(** ** The functions of main.go *)

Open Scope prog_scope.

(** [downloadSprite] (lines 72-89).  The deferred [resp.Body.Close()] runs
    on each return path after line 77. *)
Definition downloadSprite (url : string) : prog (bytes * option error) :=
  r <- http_Get url ;;
  match r with
  | inr err => Ret ([], Some (Errorf "error downloading sprite: %v" (ArgError err)))
  | inl resp =>
      if negb (StatusCode resp =? StatusOK)%Z then
        Body_Close resp ;;;
        Ret ([], Some (Errorf "unexpected status code: %d" (ArgInt (StatusCode resp))))
      else
        let '(spriteData, err) := io_ReadAll (Body resp) in
        match err with
        | Some err =>
            Body_Close resp ;;;
            Ret ([], Some (Errorf "error reading sprite data: %v" (ArgError err)))
        | None =>
            Body_Close resp ;;;
            Ret (spriteData, None)
        end
  end.

(** [saveSprite] (lines 91-104).  The deferred [file.Close()] runs on each
    return path after line 96. *)
Definition saveSprite (data : bytes) (filename : string) : prog (option error) :=
  r <- os_Create filename ;;
  match r with
  | inr err => Ret (Some (Errorf "error creating file: %v" (ArgError err)))
  | inl file =>
      r <- file_Write file data ;;
      match snd r with
      | Some err =>
          file_Close file ;;;
          Ret (Some (Errorf "error saving sprite: %v" (ArgError err)))
      | None =>
          file_Close file ;;;
          Ret None
      end
  end.

Close Scope prog_scope.

(** ** encoding/json, as far as [json.Unmarshal(body, &data)] with
    [data Pokemon] goes

    [json.Unmarshal] first checks that the whole input is one well-formed
    JSON text, and only then stores values into the target.  The model does
    the same in two passes: [json.parse] turns the bytes into a tree or
    rejects them, [json.decode_Pokemon] walks the tree. *)
Module json.

Local Open Scope Z_scope.

Definition code (b : byte) : Z := Z.of_N (Byte.to_N b).

Definition byte_of_code (c : Z) : byte := default x00 (Byte.of_N (Z.to_N c)).

Definition between (lo c hi : Z) : bool := (lo <=? c) && (c <=? hi).

Definition is_digit (c : Z) : bool := between 48 c 57.          (* 0-9 *)

Definition is_hex (c : Z) : bool :=
  is_digit c || between 97 c 102 || between 65 c 70.            (* a-f A-F *)

(** A JSON text as a tree.  A number keeps its literal; an object keeps its
    members in input order, duplicates included. *)
#[local] Set Warnings "-register-all".
Inductive value : Type :=
| Null
| Bool (b : bool)
| Number (literal : string)
| String (s : string)
| Array (elems : list value)
| Object (members : list (string * value)).

(** *** Scanning *)

(** Space, tab, carriage return, line feed. *)
Definition isSpace (c : Z) : bool :=
  (c =? 32) || (c =? 9) || (c =? 13) || (c =? 10).

Fixpoint skip_space (s : bytes) : bytes :=
  match s with
  | b :: rest => if isSpace (code b) then skip_space rest else s
  | [] => []
  end.

(** The scanner states inside a string literal: plain, after a backslash,
    and inside backslash-u with [n] hex digits still to come. *)
Inductive string_state : Type :=
| inString
| inStringEsc
| inStringEscU (n : nat).

(** [scan_string st s] reads a string literal whose opening quote has been
    consumed, up to and including the closing quote.  It returns the bytes
    between the quotes, escapes untouched, and what follows. *)
Fixpoint scan_string (st : string_state) (s : bytes) : option (bytes * bytes) :=
  match s with
  | [] => None
  | b :: rest =>
      let c := code b in
      let continue st' :=
        match scan_string st' rest with
        | Some (raw, rest') => Some (b :: raw, rest')
        | None => None
        end in
      match st with
      | inString =>
          if c =? 34 then Some ([], rest)                        (* quote *)
          else if c =? 92 then continue inStringEsc              (* backslash *)
          else if c <? 32 then None
          else continue inString
      | inStringEsc =>
          if (c =? 98) || (c =? 102) || (c =? 110) || (c =? 114) || (c =? 116)
             || (c =? 92) || (c =? 47) || (c =? 34)              (* b f n r t \ / quote *)
          then continue inString
          else if c =? 117 then continue (inStringEscU 4)        (* u *)
          else None
      | inStringEscU n =>
          if is_hex c then
            match n with
            | 1%nat | 0%nat => continue inString
            | S n' => continue (inStringEscU n')
            end
          else None
      end
  end.

(** The scanner states inside a number literal. *)
Inductive number_state : Type :=
| numNeg      (* after the minus sign *)
| num0        (* after a leading 0 *)
| num1        (* inside the integer digits *)
| numDot      (* after the decimal point *)
| numDot0     (* inside the fraction digits *)
| numE        (* after e or E *)
| numESign    (* after the sign of the exponent *)
| numE0.      (* inside the exponent digits *)

Definition number_may_end (st : number_state) : bool :=
  match st with
  | num0 | num1 | numDot0 | numE0 => true
  | numNeg | numDot | numE | numESign => false
  end.

(** The state after reading [c] in state [st], if [c] continues the number. *)
Definition number_step (st : number_state) (c : Z) : option number_state :=
  let is_e := (c =? 101) || (c =? 69) in
  match st with
  | numNeg => if c =? 48 then Some num0 else if between 49 c 57 then Some num1 else None
  | num0 => if c =? 46 then Some numDot else if is_e then Some numE else None
  | num1 =>
      if is_digit c then Some num1
      else if c =? 46 then Some numDot else if is_e then Some numE else None
  | numDot => if is_digit c then Some numDot0 else None
  | numDot0 => if is_digit c then Some numDot0 else if is_e then Some numE else None
  | numE =>
      if (c =? 43) || (c =? 45) then Some numESign
      else if is_digit c then Some numE0 else None
  | numESign => if is_digit c then Some numE0 else None
  | numE0 => if is_digit c then Some numE0 else None
  end.

(** [scan_number st s] reads the rest of a number literal: the longest
    run of bytes the automaton accepts.  [None] when it stops in a state in
    which a number may not end. *)
Fixpoint scan_number (st : number_state) (s : bytes) : option (bytes * bytes) :=
  let stop := if number_may_end st then Some ([], s) else None in
  match s with
  | [] => stop
  | b :: rest =>
      match number_step st (code b) with
      | Some st' =>
          match scan_number st' rest with
          | Some (lit, rest') => Some (b :: lit, rest')
          | None => None
          end
      | None => stop
      end
  end.

(** [expect word s]: [s] without the prefix [word]. *)
Fixpoint expect (word : bytes) (s : bytes) : option bytes :=
  match word, s with
  | [], _ => Some s
  | w :: word', b :: rest => if Byte.eqb w b then expect word' rest else None
  | _ :: _, [] => None
  end.

(** *** Unquoting a string literal *)

Definition hex_value (c : Z) : Z :=
  if is_digit c then c - 48
  else if between 97 c 102 then c - 97 + 10
  else c - 65 + 10.

(** [getu4 s]: the code unit of an escape backslash-u-XXXX at the head of
    [s], or -1. *)
Definition getu4 (s : bytes) : Z :=
  match s with
  | b0 :: b1 :: h1 :: h2 :: h3 :: h4 :: _ =>
      if (code b0 =? 92) && (code b1 =? 117)
         && is_hex (code h1) && is_hex (code h2)
         && is_hex (code h3) && is_hex (code h4)
      then ((hex_value (code h1) * 16 + hex_value (code h2)) * 16
            + hex_value (code h3)) * 16 + hex_value (code h4)
      else -1
  | _ => -1
  end.

Definition RuneError : Z := 65533.                               (* U+FFFD *)

Definition IsSurrogate (r : Z) : bool := between 55296 r 57343.  (* D800-DFFF *)

(** [utf16.DecodeRune]. *)
Definition utf16_DecodeRune (r1 r2 : Z) : Z :=
  if between 55296 r1 56319 && between 56320 r2 57343
  then (r1 - 55296) * 1024 + (r2 - 56320) + 65536
  else RuneError.

(** [utf8.AppendRune]. *)
Definition utf8_EncodeRune (r : Z) : bytes :=
  let cont x := byte_of_code (128 + x mod 64) in
  if between 0 r 127 then [byte_of_code r]
  else if between 128 r 2047 then [byte_of_code (192 + r / 64); cont r]
  else if between 2048 r 65535 && negb (IsSurrogate r) then
    [byte_of_code (224 + r / 4096); cont (r / 64); cont r]
  else if between 65536 r 1114111 then
    [byte_of_code (240 + r / 262144); cont (r / 4096); cont (r / 64); cont r]
  else [xef; xbf; xbd].

(** The length of the well-formed UTF-8 sequence at the head of [s] whose
    first byte is not ASCII, or 0 when there is none ([utf8.DecodeRune]
    answering [RuneError, 1]). *)
Definition utf8_rune_len (s : bytes) : nat :=
  let tail lo hi b := between lo (code b) hi in
  match s with
  | b0 :: b1 :: rest =>
      let c0 := code b0 in
      if between 194 c0 223 then (if tail 128 191 b1 then 2%nat else 0%nat)
      else
        match rest with
        | b2 :: rest' =>
            let second lo hi := tail lo hi b1 && tail 128 191 b2 in
            if c0 =? 224 then (if second 160 191 then 3%nat else 0%nat)
            else if between 225 c0 236 || between 238 c0 239 then
              (if second 128 191 then 3%nat else 0%nat)
            else if c0 =? 237 then (if second 128 159 then 3%nat else 0%nat)
            else
              match rest' with
              | b3 :: _ =>
                  let third lo hi := second lo hi && tail 128 191 b3 in
                  if c0 =? 240 then (if third 144 191 then 4%nat else 0%nat)
                  else if between 241 c0 243 then (if third 128 191 then 4%nat else 0%nat)
                  else if c0 =? 244 then (if third 128 143 then 4%nat else 0%nat)
                  else 0%nat
              | [] => 0%nat
              end
        | [] => 0%nat
        end
  | _ => 0%nat
  end.

Definition unescape (c : Z) : Z :=
  if c =? 98 then 8 else if c =? 102 then 12 else if c =? 110 then 10
  else if c =? 114 then 13 else if c =? 116 then 9 else c.

(** [unquote_bytes skip raw]: the Go string a scanned literal stands for.
    Escapes are replaced, backslash-u escapes and surrogate pairs become
    UTF-8, and a byte that starts no well-formed UTF-8 sequence becomes
    U+FFFD.  [skip] counts bytes of [raw] that the previous step has already
    translated. *)
Fixpoint unquote_bytes (skip : nat) (raw : bytes) : bytes :=
  match raw with
  | [] => []
  | b :: rest =>
      match skip with
      | S n => unquote_bytes n rest
      | O =>
          let c := code b in
          if c =? 92 then
            match rest with
            | e :: _ =>
                if code e =? 117 then
                  let rr := getu4 raw in
                  if IsSurrogate rr then
                    let dec := utf16_DecodeRune rr (getu4 (drop 6 raw)) in
                    if dec =? RuneError
                    then utf8_EncodeRune RuneError ++ unquote_bytes 5 rest
                    else utf8_EncodeRune dec ++ unquote_bytes 11 rest
                  else utf8_EncodeRune rr ++ unquote_bytes 5 rest
                else byte_of_code (unescape (code e)) :: unquote_bytes 1 rest
            | [] => []
            end
          else if c <? 128 then b :: unquote_bytes 0 rest
          else
            match utf8_rune_len raw with
            | O => utf8_EncodeRune RuneError ++ unquote_bytes 0 rest
            | S n => take (S n) raw ++ unquote_bytes n rest
            end
      end
  end.

Definition unquote (raw : bytes) : string :=
  String.string_of_list_byte (unquote_bytes 0 raw).

(** *** Parsing *)

(** The scanner gives up on a text that nests arrays and objects deeper
    than this. *)
Definition maxNestingDepth : Z := 10000.

(** [parse_value fuel depth s] reads one JSON value at the head of [s],
    after optional space, and returns it with the rest of the input;
    [parse_members] and [parse_elements] read what follows an opening brace
    or bracket.  [depth] counts the arrays and objects that are open.
    [fuel] bounds the depth of the calls; twice the length of the input is
    enough, and more changes nothing (see [parse_value_fuel]). *)
Fixpoint parse_value (fuel : nat) (depth : Z) (s : bytes)
  : option (value * bytes) :=
  match fuel with
  | O => None
  | S fuel' =>
      match skip_space s with
      | [] => None
      | b :: rest =>
          let c := code b in
          if c =? 123 then                                       (* { *)
            if maxNestingDepth <? depth + 1 then None
            else
              match skip_space rest with
              | b' :: rest' =>
                  if code b' =? 125 then Some (Object [], rest') (* } *)
                  else parse_members fuel' (depth + 1) [] rest
              | [] => None
              end
          else if c =? 91 then                                   (* [ *)
            if maxNestingDepth <? depth + 1 then None
            else
              match skip_space rest with
              | b' :: rest' =>
                  if code b' =? 93 then Some (Array [], rest')   (* ] *)
                  else parse_elements fuel' (depth + 1) [] rest
              | [] => None
              end
          else if c =? 34 then                                   (* quote *)
            match scan_string inString rest with
            | Some (raw, rest') => Some (String (unquote raw), rest')
            | None => None
            end
          else if c =? 45 then                                   (* - *)
            match scan_number numNeg rest with
            | Some (lit, rest') =>
                Some (Number (String.string_of_list_byte (b :: lit)), rest')
            | None => None
            end
          else if c =? 48 then                                   (* 0 *)
            match scan_number num0 rest with
            | Some (lit, rest') =>
                Some (Number (String.string_of_list_byte (b :: lit)), rest')
            | None => None
            end
          else if between 49 c 57 then                           (* 1-9 *)
            match scan_number num1 rest with
            | Some (lit, rest') =>
                Some (Number (String.string_of_list_byte (b :: lit)), rest')
            | None => None
            end
          else if c =? 116 then                                  (* t *)
            match expect (String.list_byte_of_string "rue") rest with
            | Some rest' => Some (Bool true, rest')
            | None => None
            end
          else if c =? 102 then                                  (* f *)
            match expect (String.list_byte_of_string "alse") rest with
            | Some rest' => Some (Bool false, rest')
            | None => None
            end
          else if c =? 110 then                                  (* n *)
            match expect (String.list_byte_of_string "ull") rest with
            | Some rest' => Some (Null, rest')
            | None => None
            end
          else None
      end
  end

with parse_members (fuel : nat) (depth : Z) (acc : list (string * value))
    (s : bytes) : option (value * bytes) :=
  match fuel with
  | O => None
  | S fuel' =>
      match skip_space s with
      | b :: rest =>
          if code b =? 34 then
            match scan_string inString rest with
            | Some (raw, rest1) =>
                match skip_space rest1 with
                | colon :: rest2 =>
                    if code colon =? 58 then                     (* : *)
                      match parse_value fuel' depth rest2 with
                      | Some (v, rest3) =>
                          let acc' := acc ++ [(unquote raw, v)] in
                          match skip_space rest3 with
                          | sep :: rest4 =>
                              if code sep =? 44 then             (* , *)
                                parse_members fuel' depth acc' rest4
                              else if code sep =? 125 then       (* } *)
                                Some (Object acc', rest4)
                              else None
                          | [] => None
                          end
                      | None => None
                      end
                    else None
                | [] => None
                end
            | None => None
            end
          else None
      | [] => None
      end
  end

with parse_elements (fuel : nat) (depth : Z) (acc : list value) (s : bytes)
  : option (value * bytes) :=
  match fuel with
  | O => None
  | S fuel' =>
      match parse_value fuel' depth s with
      | Some (v, rest) =>
          let acc' := acc ++ [v] in
          match skip_space rest with
          | sep :: rest' =>
              if code sep =? 44 then parse_elements fuel' depth acc' rest'
              else if code sep =? 93 then Some (Array acc', rest')
              else None
          | [] => None
          end
      | None => None
      end
  end.

(** [parse data]: the tree of [data] when [data] is exactly one JSON value
    surrounded by optional space (what [checkValid] accepts). *)
Definition parse (data : bytes) : option value :=
  match parse_value (S (2 * length data)) 0 data with
  | Some (v, rest) =>
      match skip_space rest with
      | [] => Some v
      | _ :: _ => None
      end
  | None => None
  end.

(** *** Storing a tree into the target *)

(** How an [UnmarshalTypeError] names the kind of JSON value it met. *)
Definition describe (v : value) : string :=
  match v with
  | Null => "null"
  | Bool _ => "bool"
  | Number _ => "number"
  | String _ => "string"
  | Array _ => "array"
  | Object _ => "object"
  end.

(** The first error met is the one [Unmarshal] returns; decoding goes on
    after it. *)
Definition saveError (saved new : option error) : option error :=
  match saved with
  | Some e => Some e
  | None => new
  end.

(** [strconv.ParseInt(literal, 10, 64)] followed by the int32 overflow
    check: an optional minus sign, then digits only, and a value that fits
    32 bits. *)
Definition int32_of_literal (literal : string) : option Z :=
  let s := String.list_byte_of_string literal in
  let '(neg, digits) :=
    match s with
    | b :: rest => if code b =? 45 then (true, rest) else (false, s)
    | [] => (false, [])
    end in
  match digits with
  | [] => None
  | _ :: _ =>
      if forallb (fun b => is_digit (code b)) digits then
        let n := fold_left (fun acc b => acc * 10 + (code b - 48)) digits 0 in
        let n := if neg then - n else n in
        if between (-2147483648) n 2147483647 then Some n else None
      else None
  end.

(** A decoder for a Go type: the JSON value, the value the target holds,
    and out of them the value the target holds afterwards and the error to
    save, if any. *)
Definition decoder (T : Type) : Type := value -> T -> T * option error.

Definition store_string : decoder string := fun v cur =>
  match v with
  | String s => (s, None)
  | Null => (cur, None)
  | _ => (cur, Some (UnmarshalTypeError (describe v) "string"))
  end.

Definition store_int32 : decoder Z := fun v cur =>
  match v with
  | Number literal =>
      match int32_of_literal literal with
      | Some n => (n, None)
      | None => (cur, Some (UnmarshalTypeError ("number " +:+ literal) "int32"))
      end
  | Null => (cur, None)
  | _ => (cur, Some (UnmarshalTypeError (describe v) "int32"))
  end.

(** Object keys are matched to the [json:] tags of the struct, an exact
    match first, else a match under case folding.  For the tags at hand,
    which are ASCII, a key folds to a tag when it is equal up to the case of
    ASCII letters, U+017F (long s) standing for s and U+212A (Kelvin sign)
    for k. *)
Fixpoint foldName (s : bytes) : bytes :=
  match s with
  | [] => []
  | b :: rest =>
      let c := code b in
      if between 97 c 122 then byte_of_code (c - 32) :: foldName rest
      else
        match rest with
        | b1 :: rest1 =>
            if (c =? 197) && (code b1 =? 191) then x53 :: foldName rest1
            else
              match rest1 with
              | b2 :: rest2 =>
                  if (c =? 226) && (code b1 =? 132) && (code b2 =? 170)
                  then x4b :: foldName rest2
                  else b :: foldName rest
              | [] => b :: foldName rest
              end
        | [] => b :: foldName rest
        end
  end.

Definition equalFold (a b : string) : bool :=
  String.eqb
    (String.string_of_list_byte (foldName (String.list_byte_of_string a)))
    (String.string_of_list_byte (foldName (String.list_byte_of_string b))).

(** The fields of a struct type: tag and decoder into that field. *)
Definition fields (T : Type) : Type := list (string * decoder T).

Definition find_field {T : Type} (fs : fields T) (key : string)
  : option (decoder T) :=
  match List.find (fun f => String.eqb key (fst f)) fs with
  | Some f => Some (snd f)
  | None =>
      match List.find (fun f => equalFold key (fst f)) fs with
      | Some f => Some (snd f)
      | None => None
      end
  end.

(** The members of an object are stored in input order; a key that matches
    no field is skipped, a key that occurs twice is stored twice. *)
Fixpoint store_members {T : Type} (fs : fields T)
    (members : list (string * value)) (cur : T) (saved : option error)
  : T * option error :=
  match members with
  | [] => (cur, saved)
  | (key, v) :: members' =>
      match find_field fs key with
      | Some store =>
          let '(cur', err) := store v cur in
          store_members fs members' cur' (saveError saved err)
      | None => store_members fs members' cur saved
      end
  end.

Definition store_struct {T : Type} (gotype : string) (fs : fields T)
  : decoder T := fun v cur =>
  match v with
  | Object members => store_members fs members cur None
  | Null => (cur, None)
  | _ => (cur, Some (UnmarshalTypeError (describe v) gotype))
  end.

(** Storing into the field of a record: decode into the value the field
    holds and put the result back. *)
Definition into {T F : Type} (get : T -> F) (set : F -> T -> T)
    (store : decoder F) : decoder T := fun v cur =>
  let '(x, err) := store v (get cur) in (set x cur, err).

Definition Stat_fields : fields Stat :=
  [ ("name", into Stat_Name
       (fun x s => {| Stat_Name := x; Stat_URL := Stat_URL s |}) store_string);
    ("url", into Stat_URL
       (fun x s => {| Stat_Name := Stat_Name s; Stat_URL := x |}) store_string) ].

Definition store_Stat : decoder Stat := store_struct "main.Stat" Stat_fields.

Definition StatInfo_fields : fields StatInfo :=
  [ ("stat", into StatInfo_Stat
       (fun x s => {| StatInfo_Stat := x; StatInfo_BaseStat := StatInfo_BaseStat s |})
       store_Stat);
    ("base_stat", into StatInfo_BaseStat
       (fun x s => {| StatInfo_Stat := StatInfo_Stat s; StatInfo_BaseStat := x |})
       store_int32) ].

Definition store_StatInfo : decoder StatInfo :=
  store_struct "main.StatInfo" StatInfo_fields.

Definition Sprites_fields : fields Sprites :=
  [ ("front_default", into FrontDefault
       (fun x s => {| FrontDefault := x; BackDefault := BackDefault s |})
       store_string);
    ("back_default", into BackDefault
       (fun x s => {| FrontDefault := FrontDefault s; BackDefault := x |})
       store_string) ].

Definition store_Sprites : decoder Sprites :=
  store_struct "main.Sprites" Sprites_fields.

(** An array is stored element by element.  Element [i] is decoded into
    what the backing array of the slice holds at [i]: an element of the
    slice, or, beyond its length, an element that an earlier array under the
    same key left there.  Where the backing array ends, a zero element is
    taken.  The slice ends up as long as the array. *)
Fixpoint store_elems (elems : list value) (backing : list StatInfo)
  : list StatInfo * option error :=
  match elems with
  | [] => ([], None)
  | v :: elems' =>
      let '(x, err) := store_StatInfo v (List.hd StatInfo_zero backing) in
      let '(xs, err') := store_elems elems' (List.tl backing) in
      (x :: xs, saveError err err')
  end.

(** A slice of [StatInfo] while it is decoded into: its elements, and the
    elements its backing array holds beyond its length.  The decoder extends
    the slice over its backing array one element at a time, and grows the
    backing array only when the slice fills it; so the elements that were
    stored once and then cut off are met again, and everything further out
    is zero, however much capacity the runtime allocates.  The slice is cut
    to the number of elements of the array.  An empty array gives a new
    slice of capacity zero, and [null] the nil slice: both drop the backing
    array. *)
Definition slice : Type := (list StatInfo * list StatInfo)%type.

Definition store_slice : decoder slice := fun v cur =>
  match v with
  | Array [] => (([], []), None)
  | Array elems =>
      let '(xs, err) := store_elems elems (cur.1 ++ cur.2) in
      ((xs, drop (length elems) (cur.1 ++ cur.2)), err)
  | Null => (([], []), None)
  | _ => (cur, Some (UnmarshalTypeError (describe v) "[]main.StatInfo"))
  end.

(** Decoding into a slice whose backing array holds nothing beyond its
    length, as the slice of a zero [Pokemon] and any slice that has been
    decoded into at most once. *)
Definition store_StatInfos : decoder (list StatInfo) := fun v cur =>
  let '(s, err) := store_slice v (cur, []) in (s.1, err).

(** What [Unmarshal] decodes into: the struct, and the elements that the
    backing array of its slice [Stats] holds beyond the length of the
    slice.  The latter cannot be seen in the struct, and are met again only
    when the key "stats" occurs a third time. *)
Definition destination : Type := (Pokemon * list StatInfo)%type.

(** Storing into a field of the struct. *)
Definition field {F : Type} (get : Pokemon -> F) (set : F -> Pokemon -> Pokemon)
    (store : decoder F) : decoder destination :=
  into (fun t : destination => get t.1) (fun x t => (set x t.1, t.2)) store.

(** Storing into the slice [Stats] and its backing array. *)
Definition stats : decoder destination :=
  into (fun t : destination => (StatInfo_ t.1, t.2))
       (fun (s : slice) t =>
          ({| Name := Name t.1; BaseExp := BaseExp t.1; Height := Height t.1;
              Id := Id t.1; Sprites_ := Sprites_ t.1;
              StatInfo_ := s.1 |}, s.2))
       store_slice.

(** The struct tags of [Pokemon] (lines 28-35). *)
Definition Pokemon_fields : fields destination :=
  [ ("name", field Name
       (fun x p => {| Name := x; BaseExp := BaseExp p; Height := Height p;
                      Id := Id p; Sprites_ := Sprites_ p;
                      StatInfo_ := StatInfo_ p |}) store_string);
    ("base_experience", field BaseExp
       (fun x p => {| Name := Name p; BaseExp := x; Height := Height p;
                      Id := Id p; Sprites_ := Sprites_ p;
                      StatInfo_ := StatInfo_ p |}) store_int32);
    ("height", field Height
       (fun x p => {| Name := Name p; BaseExp := BaseExp p; Height := x;
                      Id := Id p; Sprites_ := Sprites_ p;
                      StatInfo_ := StatInfo_ p |}) store_int32);
    ("id", field Id
       (fun x p => {| Name := Name p; BaseExp := BaseExp p; Height := Height p;
                      Id := x; Sprites_ := Sprites_ p;
                      StatInfo_ := StatInfo_ p |}) store_int32);
    ("sprites", field Sprites_
       (fun x p => {| Name := Name p; BaseExp := BaseExp p; Height := Height p;
                      Id := Id p; Sprites_ := x;
                      StatInfo_ := StatInfo_ p |}) store_Sprites);
    ("stats", stats) ].

Definition store_Pokemon : decoder destination :=
  store_struct "main.Pokemon" Pokemon_fields.

(** [json.Unmarshal(data, &target)] for [target] of type [Pokemon]: what
    [target] holds afterwards, and the error returned.  On a syntax error
    nothing is stored.  The slice of the [Pokemon] that [parseJSON] passes is
    nil, so its backing array holds nothing to start with. *)
Definition Unmarshal (data : bytes) (target : Pokemon) : Pokemon * option error :=
  match parse data with
  | None => (target, Some SyntaxError)
  | Some v => let '(t, err) := store_Pokemon v (target, []) in (t.1, err)
  end.

End json.

(** [parseJSON] (lines 62-70). *)
Definition parseJSON (body : bytes) : Pokemon * option error :=
  let data := Pokemon_zero in
  let '(data, err) := json.Unmarshal body data in
  match err with
  | Some err => (Pokemon_zero, Some (Errorf "error parsing JSON: %v" (ArgError err)))
  | None => (data, None)
  end.

(** ** path/filepath, with [/] as the separator *)
Module filepath.

Definition Separator : Ascii.ascii := Ascii.ascii_of_nat 47.

Definition IsPathSeparator (c : Ascii.ascii) : bool := Ascii.eqb c Separator.

(** A name without separator. *)
Fixpoint no_separator (s : string) : bool :=
  match s with
  | EmptyString => true
  | String.String c rest => negb (IsPathSeparator c) && no_separator rest
  end.

(** The elements of a path: the pieces between separators, empty ones
    included.  There is always at least one. *)
Fixpoint elements (path : string) : list string :=
  match path with
  | EmptyString => [EmptyString]
  | String.String c rest =>
      if IsPathSeparator c then EmptyString :: elements rest
      else
        match elements rest with
        | e :: es => String.String c e :: es
        | [] => [String.String c EmptyString]
        end
  end.

(** [strings.Join(elems, "/")]. *)
Fixpoint join (elems : list string) : string :=
  match elems with
  | [] => ""
  | [e] => e
  | e :: elems' => e +:+ "/" +:+ join elems'
  end.

(** The loop of [Clean] over the elements of the path.  [out] is the output
    so far, last element first.  An empty element and [.] are dropped; [..]
    removes the element before it, unless there is none to remove, in which
    case a rooted path drops it and another keeps it. *)
Fixpoint clean_elements (rooted : bool) (elems : list string) (out : list string)
  : list string :=
  match elems with
  | [] => out
  | e :: elems' =>
      if String.eqb e "" || String.eqb e "." then clean_elements rooted elems' out
      else if String.eqb e ".." then
        match out with
        | last :: out' =>
            if String.eqb last ".." then clean_elements rooted elems' (e :: out)
            else clean_elements rooted elems' out'
        | [] =>
            if rooted then clean_elements rooted elems' out
            else clean_elements rooted elems' [e]
        end
      else clean_elements rooted elems' (e :: out)
  end.

(** [filepath.Clean]: the shortest path equivalent to [path] by purely
    lexical processing. *)
Definition Clean (path : string) : string :=
  match path with
  | EmptyString => "."
  | String.String c _ =>
      let rooted := IsPathSeparator c in
      let out := List.rev (clean_elements rooted (elements path) []) in
      if rooted then "/" +:+ join out
      else
        match out with
        | [] => "."
        | _ :: _ => join out
        end
  end.

(** [filepath.Join]: the elements from the first non-empty one on, joined
    with the separator and cleaned. *)
Fixpoint Join (elem : list string) : string :=
  match elem with
  | [] => ""
  | e :: elem' => if String.eqb e "" then Join elem' else Clean (join elem)
  end.

End filepath.

(** ** The functions of main.go, continued *)

Open Scope prog_scope.

(** [fetchData] (lines 37-60), with [wg], [resultChan] and [errorChan] the
    ones of [main].  A deferred call runs when the function returns, the
    last deferred first, so each return path ends with [resp.Body.Close()],
    where line 46 has been reached, and then [wg.Done()]. *)
Definition fetchData (url : string) : prog unit :=
  r <- http_Get url ;;
  match r with
  | inr err =>
      send (on_errorChan (Some (Errorf "HTTP request error: %v" (ArgError err)))) ;;;
      wg_Done
  | inl resp =>
      if negb (StatusCode resp =? StatusOK)%Z then
        send (on_errorChan
                (Some (Errorf "unexpected status code: %d" (ArgInt (StatusCode resp))))) ;;;
        Body_Close resp ;;;
        wg_Done
      else
        let '(body, err) := io_ReadAll (Body resp) in
        match err with
        | Some err =>
            send (on_errorChan
                    (Some (Errorf "error reading response body: %v" (ArgError err)))) ;;;
            Body_Close resp ;;;
            wg_Done
        | None =>
            send (on_resultChan body) ;;;
            Body_Close resp ;;;
            wg_Done
        end
  end.

(** The function literal of lines 116-120. *)
Definition func1 : prog unit :=
  wg_Wait ;;;
  close resultChan ;;;
  close errorChan.

Definition gofunc_body (f : gofunc) : prog unit :=
  match f with
  | go_fetchData url => fetchData url
  | go_func1 => func1
  end.

(** Lines 139-152 of [main]. *)
Definition front_sprite (pokemon : Pokemon) : prog unit :=
  if negb (String.eqb (FrontDefault (Sprites_ pokemon)) "") then
    let frontFilename := filepath.Join ["."; Name pokemon +:+ "_front.png"] in
    r <- downloadSprite (FrontDefault (Sprites_ pokemon)) ;;
    let '(spriteData, err) := r in
    match err with
    | Some err =>
        fmt_Println [VString "Error downloading front sprite:"; VError (Some err)]
    | None =>
        err <- saveSprite spriteData frontFilename ;;
        match err with
        | Some err =>
            fmt_Println [VString "Error saving front sprite:"; VError (Some err)]
        | None =>
            fmt_Println [VString "Front sprite saved as:"; VString frontFilename]
        end
    end
  else Ret tt.

(** Lines 154-167 of [main]. *)
Definition back_sprite (pokemon : Pokemon) : prog unit :=
  if negb (String.eqb (BackDefault (Sprites_ pokemon)) "") then
    let backFilename := filepath.Join ["."; Name pokemon +:+ "_back.png"] in
    r <- downloadSprite (BackDefault (Sprites_ pokemon)) ;;
    let '(spriteData, err) := r in
    match err with
    | Some err =>
        fmt_Println [VString "Error downloading back sprite:"; VError (Some err)]
    | None =>
        err <- saveSprite spriteData backFilename ;;
        match err with
        | Some err =>
            fmt_Println [VString "Error saving back sprite:"; VError (Some err)]
        | None =>
            fmt_Println [VString "Back sprite saved as:"; VString backFilename]
        end
    end
  else Ret tt.

(** Lines 131-136 of [main]. *)
Definition print_fields (pokemon : Pokemon) : prog unit :=
  fmt_Println [VString "Pokemon Name:"; VString (Name pokemon)] ;;;
  fmt_Println [VString "Pokemon BaseExp:"; VInt32 (BaseExp pokemon)] ;;;
  fmt_Println [VString "Pokemon Height:"; VInt32 (Height pokemon)] ;;;
  fmt_Println [VString "Pokemon Id:"; VInt32 (Id pokemon)] ;;;
  fmt_Println [VString "Pokemon Sprites:"; VSprites (Sprites_ pokemon)] ;;;
  fmt_Println [VString "Pokemon Abilities:"; VStatInfos (StatInfo_ pokemon)].

(** The two cases of the [select] statement (lines 123-168). *)
Definition main_select (m : message) : prog unit :=
  match m with
  | on_errorChan err =>
      fmt_Println [VString "Error:"; VError err]
  | on_resultChan body =>
      let '(pokemon, err) := parseJSON body in
      match err with
      | Some err =>
          fmt_Println [VString "Error:"; VError (Some err)]
      | None =>
          print_fields pokemon ;;;
          front_sprite pokemon ;;;
          back_sprite pokemon
      end
  end.

Definition url : string := "https://pokeapi-proxy.freecodecamp.rocks/api/pokemon/1/".

(** [main] (lines 106-169). *)
Definition main : prog unit :=
  wg_Add 1 ;;;
  go (go_fetchData url) ;;;
  go go_func1 ;;;
  m <- Select [errorChan; resultChan] Ret ;;
  main_select m.

Close Scope prog_scope.

(** ** Goroutines, channels and the WaitGroup *)

(** The state of a running program: the goroutines with what each has left
    to do (goroutine 0 is [main], a [go] statement appends one), the
    functions the [go] statements were given, the WaitGroup counter, the
    channels closed so far, and the world. *)
Record Config := {
  threads : list (prog unit);
  started : list gofunc;
  wg : Z;
  closed : list chan;
  world : World;
  panicked : bool
}.

Definition initial (files : gmap string bytes) : Config :=
  {| threads := [main]; started := []; wg := 0; closed := [];
     world := {| trace := []; fs := files |}; panicked := false |}.

Definition is_closed (c : Config) (ch : chan) : bool := bool_decide (ch ∈ closed c).

(** The program is over when [main] has returned. *)
Definition exited (c : Config) : bool :=
  match threads c !! 0%nat with
  | Some (Ret _) => true
  | _ => false
  end.

Definition set_thread (i : gid) (p : prog unit) (c : Config) : Config :=
  {| threads := <[i := p]> (threads c); started := started c; wg := wg c;
     closed := closed c; world := world c; panicked := panicked c |}.

Definition set_world (w : World) (c : Config) : Config :=
  {| threads := threads c; started := started c; wg := wg c;
     closed := closed c; world := w; panicked := panicked c |}.

Definition panic (c : Config) : Config :=
  {| threads := threads c; started := started c; wg := wg c;
     closed := closed c; world := world c; panicked := true |}.

(** What the scheduler may pick next. *)
Inductive choice : Type :=
| Run (i : gid)
    (* goroutine i makes its next call, one that needs no partner *)
| Pass (i j : gid)
    (* the value goroutine i is sending is received by the select of j *)
| RecvClosed (j : gid) (ch : chan).
    (* the select of goroutine j receives from the closed channel ch *)

Section Scheduler.

Context (env : Env).

(** [step ch c]: the state after the scheduler's choice [ch], or [None]
    when [ch] is not possible in [c]: the goroutine has returned, or it is
    blocked (a send or a select without partner, [wg.Wait()] with a
    non-zero counter), or the program is over.  A send on a closed channel,
    closing a closed channel and a negative WaitGroup counter panic. *)
Definition step (ch : choice) (c : Config) : option Config :=
  if exited c || panicked c then None
  else
    match ch with
    | Run i =>
        match threads c !! i with
        | None => None
        | Some p =>
            match p with
            | Ret _ => None
            | HttpGet u k =>
                let '(r, w) := do_Get env i u (world c) in
                Some (set_thread i (k r) (set_world w c))
            | BodyClose _ k => Some (set_thread i k c)
            | Println args k =>
                Some (set_thread i k (set_world (do_Println i args (world c)) c))
            | OsCreate name k =>
                let '(r, w) := do_Create env i name (world c) in
                Some (set_thread i (k r) (set_world w c))
            | FileWrite f data k =>
                let '(r, w) := do_Write env i f data (world c) in
                Some (set_thread i (k r) (set_world w c))
            | FileClose _ k => Some (set_thread i k c)
            | Go f k =>
                Some {| threads := <[i := k]> (threads c) ++ [gofunc_body f];
                        started := started c ++ [f]; wg := wg c;
                        closed := closed c; world := world c;
                        panicked := panicked c |}
            | Send m _ => if is_closed c (chan_of m) then Some (panic c) else None
            | Select _ _ => None
            | Close ch' k =>
                if is_closed c ch' then Some (panic c)
                else
                  Some {| threads := <[i := k]> (threads c);
                          started := started c; wg := wg c;
                          closed := closed c ++ [ch']; world := world c;
                          panicked := panicked c |}
            | WgAdd delta k =>
                if (wg c + delta <? 0)%Z then Some (panic c)
                else
                  Some {| threads := <[i := k]> (threads c);
                          started := started c; wg := (wg c + delta)%Z;
                          closed := closed c; world := world c;
                          panicked := panicked c |}
            | WgDone k =>
                if (wg c - 1 <? 0)%Z then Some (panic c)
                else
                  Some {| threads := <[i := k]> (threads c);
                          started := started c; wg := (wg c - 1)%Z;
                          closed := closed c; world := world c;
                          panicked := panicked c |}
            | WgWait k => if (wg c =? 0)%Z then Some (set_thread i k c) else None
            end
        end
    | Pass i j =>
        match threads c !! i, threads c !! j with
        | Some (Send m ks), Some (Select cases kr) =>
            if bool_decide (chan_of m ∈ cases) && negb (is_closed c (chan_of m)) then
              Some (set_thread j (kr m)
                      (set_thread i ks
                         (set_world (log j (EvRecv (Some i) m) (world c)) c)))
            else None
        | _, _ => None
        end
    | RecvClosed j ch' =>
        match threads c !! j with
        | Some (Select cases kr) =>
            if bool_decide (ch' ∈ cases) && is_closed c ch' then
              Some (set_thread j (kr (zero_message ch'))
                      (set_world (log j (EvRecv None (zero_message ch')) (world c)) c))
            else None
        | _ => None
        end
    end.

(** Following a schedule, every choice of which must be possible. *)
Fixpoint exec (sched : list choice) (c : Config) : option Config :=
  match sched with
  | [] => Some c
  | ch :: sched' =>
      match step ch c with
      | Some c' => exec sched' c'
      | None => None
      end
  end.

(** The states a run of the program can be in. *)
Definition reachable (files : gmap string bytes) (c : Config) : Prop :=
  exists sched, exec sched (initial files) = Some c.

(** [main] returns in world [w]. *)
Definition terminates (files : gmap string bytes) (w : World) : Prop :=
  exists c, reachable files c /\ exited c = true /\ world c = w.

End Scheduler.

(** A byte string written with ['] where the bytes have a double quote. *)
Definition text (s : string) : bytes :=
  List.map (fun b => if Byte.eqb b x27 then x22 else b)
    (String.list_byte_of_string s).

(** * Properties *)

(** Membership in an explicit list. *)
Ltac in_list :=
  repeat first [apply list_elem_of_here | apply list_elem_of_further].

(** No membership in an explicit list of other things. *)
Ltac not_in_list H :=
  repeat (apply elem_of_cons in H as [H|H]; [try done|]);
  try (by apply elem_of_nil in H).


(** ** Sequential runs *)

Section Sequential.

Context (env : Env).

Lemma run_bind {A B : Type} g (p : prog A) (f : A -> prog B) w :
  run env g (bind p f) w =
  match run env g p w with
  | Some (a, w') => run env g (f a) w'
  | None => None
  end.
Proof.
  revert w; induction p as
    [a|u k IH|r k IH|args k IH|name k IH|h data k IH|h k IH|
     fn k IH|m k IH|cs k IH|c k IH|d k IH|k IH|k IH];
    intros w; simpl; try done.
  - destruct (do_Create env g name w); apply IH.
  - destruct (do_Write env g h data w); apply IH.
Qed.

(** The trace only grows, by events of the goroutine that runs, none of
    which is a receive. *)
Definition own_event (g : nat) (e : nat * event) : Prop :=
  e.1 = g /\ forall sender m, e.2 <> EvRecv sender m.

Lemma run_trace_prefix {A : Type} g (p : prog A) w a w' :
  run env g p w = Some (a, w') ->
  exists evs, trace w' = trace w ++ evs /\ Forall (own_event g) evs.
Proof.
  assert (Hown : forall e evs, (forall sender m, e <> EvRecv sender m) ->
                   Forall (own_event g) evs -> Forall (own_event g) ((g, e) :: evs))
    by (intros; by constructor).
  revert w; induction p as
    [x|u k IH|r k IH|args k IH|name k IH|h data k IH|h k IH|
     fn k IH|m k IH|cs k IH|c k IH|d k IH|k IH|k IH];
    intros w; simpl; try done.
  - intros [= <- <-]. exists []. by rewrite app_nil_r.
  - intros H. apply IH in H as (evs & -> & Hevs). simpl.
    rewrite <- app_assoc. eexists; split; [reflexivity|]. by apply Hown.
  - apply IH.
  - intros H. apply IH in H as (evs & -> & Hevs). simpl.
    rewrite <- app_assoc. eexists; split; [reflexivity|]. by apply Hown.
  - unfold do_Create. destruct (env_create env (trace w) name);
      intros H; apply IH in H as (evs & -> & Hevs); simpl;
      rewrite <- app_assoc; (eexists; split; [reflexivity|]); by apply Hown.
  - unfold do_Write. destruct (env_write env (trace w) (file_name h) data) as [[n e]|];
      intros H; apply IH in H as (evs & -> & Hevs); simpl;
      rewrite <- app_assoc; (eexists; split; [reflexivity|]); by apply Hown.
  - apply IH.
Qed.

(** Bodies made of library calls only. *)
Inductive sequential {A : Type} : prog A -> Prop :=
| seq_Ret a : sequential (Ret a)
| seq_HttpGet u k : (forall r, sequential (k r)) -> sequential (HttpGet u k)
| seq_BodyClose r k : sequential k -> sequential (BodyClose r k)
| seq_Println args k : sequential k -> sequential (Println args k)
| seq_OsCreate name k : (forall r, sequential (k r)) -> sequential (OsCreate name k)
| seq_FileWrite f data k :
    (forall r, sequential (k r)) -> sequential (FileWrite f data k)
| seq_FileClose f k : sequential k -> sequential (FileClose f k).

Lemma sequential_bind {A B : Type} (p : prog A) (f : A -> prog B) :
  sequential p -> (forall a, sequential (f a)) -> sequential (bind p f).
Proof. induction 1; intros Hf; simpl; [apply Hf|constructor; auto..]. Qed.

Lemma sequential_run {A : Type} g (p : prog A) w :
  sequential p -> exists a w', run env g p w = Some (a, w').
Proof.
  intros Hp; revert w; induction Hp as
    [a|u k _ IH|r k _ IH|args k _ IH|name k _ IH|f data k _ IH|f k _ IH];
    intros w; simpl; eauto.
  - destruct (do_Create env g name w). apply IH.
  - destruct (do_Write env g f data w). apply IH.
Qed.

End Sequential.

Lemma downloadSprite_sequential u : sequential (downloadSprite u).
Proof.
  unfold downloadSprite. apply sequential_bind; [repeat constructor|].
  intros [resp|err]; [|constructor].
  destruct (negb _); [repeat constructor|].
  destruct (io_ReadAll (Body resp)) as [data [err|]]; repeat constructor.
Qed.

Lemma saveSprite_sequential data filename : sequential (saveSprite data filename).
Proof.
  unfold saveSprite. apply sequential_bind; [repeat constructor|].
  intros [file|err]; [|constructor].
  apply sequential_bind; [repeat constructor|].
  intros [n [err|]]; repeat constructor.
Qed.

Lemma front_sprite_sequential p : sequential (front_sprite p).
Proof.
  unfold front_sprite. destruct (negb _); [|constructor].
  apply sequential_bind; [apply downloadSprite_sequential|].
  intros [data [err|]]; [repeat constructor|].
  apply sequential_bind; [apply saveSprite_sequential|].
  intros [err|]; repeat constructor.
Qed.

Lemma back_sprite_sequential p : sequential (back_sprite p).
Proof.
  unfold back_sprite. destruct (negb _); [|constructor].
  apply sequential_bind; [apply downloadSprite_sequential|].
  intros [data [err|]]; [repeat constructor|].
  apply sequential_bind; [apply saveSprite_sequential|].
  intros [err|]; repeat constructor.
Qed.

Lemma main_select_sequential m : sequential (main_select m).
Proof.
  destruct m as [body|err]; simpl; [|repeat constructor].
  destruct (parseJSON body) as [pokemon [err|]]; [repeat constructor|].
  do 6 constructor.
  apply sequential_bind; [apply front_sprite_sequential|]. intros _.
  apply back_sprite_sequential.
Qed.

(** ** The runs of [main] *)

(** What [fetchData] sends once its GET has been answered [r], and the
    deferred calls it has left after the send. *)
Definition fetch_signal (r : Response + error) : message :=
  match r with
  | inr err =>
      on_errorChan (Some (Errorf "HTTP request error: %v" (ArgError err)))
  | inl resp =>
      if negb (StatusCode resp =? StatusOK)%Z then
        on_errorChan
          (Some (Errorf "unexpected status code: %d" (ArgInt (StatusCode resp))))
      else
        match stream_err (Body resp) with
        | Some err =>
            on_errorChan
              (Some (Errorf "error reading response body: %v" (ArgError err)))
        | None => on_resultChan (stream_data (Body resp))
        end
  end.

Definition fetch_defers (r : Response + error) : prog unit :=
  match r with
  | inr _ => WgDone (Ret tt)
  | inl resp => BodyClose resp (WgDone (Ret tt))
  end.

Lemma fetchData_shape u :
  exists k, fetchData u = HttpGet u k /\
            forall r, k r = Send (fetch_signal r) (fetch_defers r).
Proof.
  eexists; split; [reflexivity|].
  intros [resp|err]; simpl; [|done].
  destruct (negb _); [done|].
  unfold io_ReadAll. by destruct (stream_err (Body resp)).
Qed.



(** The cases of the select run to their end whatever the world answers. *)
Lemma run_total env m w : exists w', run env 0 (main_select m) w = Some (tt, w').
Proof.
  destruct (sequential_run env 0 (main_select m) w (main_select_sequential m))
    as ([] & w' & H).
  eauto.
Qed.

#[local] Arguments fetchData : simpl never.
#[local] Arguments main_select : simpl never.

Section Runs.

Context (env : Env) (files : gmap string bytes).

(** The world at the start, after the GET of [fetchData], and after [main]
    has received what [fetchData] sends. *)
Definition world0 : World := {| trace := []; fs := files |}.

Definition fetched : Response + error := env_get env [] url.

Definition world1 : World := log 1 (EvHttpGet url) world0.

Definition world2 : World :=
  log 0 (EvRecv (Some 1%nat) (fetch_signal fetched)) world1.

(** Where the worker goroutine is before its send has been received. *)
Inductive fetch_before : prog unit -> World -> Prop :=
| fetch_fresh : fetch_before (fetchData url) world0
| fetch_sending :
    fetch_before (Send (fetch_signal fetched) (fetch_defers fetched)) world1.

(** Where it is afterwards, with the WaitGroup counter. *)
Inductive fetch_after : prog unit -> Z -> Prop :=
| fetch_deferred : fetch_after (fetch_defers fetched) 1
| fetch_done_pending : fetch_after (WgDone (Ret tt)) 1
| fetch_returned : fetch_after (Ret tt) 0.

(** Where the goroutine of [func1] is, with the counter and the closed
    channels. *)
Inductive closer_at : prog unit -> Z -> list chan -> Prop :=
| closer_waiting n : closer_at func1 n []
| closer_woken : closer_at (Close resultChan (Close errorChan (Ret tt))) 0 []
| closer_closed_one : closer_at (Close errorChan (Ret tt)) 0 [resultChan]
| closer_returned : closer_at (Ret tt) 0 [resultChan; errorChan].

(** The states of a run, from the first statement of [main] on. *)
Inductive phase : Config -> Prop :=
| phase_start :
    phase (initial files)
| phase_added :
    phase {| threads := [Go (go_fetchData url) (Go go_func1
                           (Select [errorChan; resultChan] main_select))];
             started := []; wg := 1; closed := [];
             world := world0; panicked := false |}
| phase_fetching F w :
    fetch_before F w ->
    phase {| threads := [Go go_func1 (Select [errorChan; resultChan] main_select); F];
             started := [go_fetchData url]; wg := 1; closed := [];
             world := w; panicked := false |}
| phase_selecting F w :
    fetch_before F w ->
    phase {| threads := [Select [errorChan; resultChan] main_select; F; func1];
             started := [go_fetchData url; go_func1]; wg := 1; closed := [];
             world := w; panicked := false |}
| phase_received M F C n cl w wf :
    run env 0 (main_select (fetch_signal fetched)) world2 = Some (tt, wf) ->
    run env 0 M w = Some (tt, wf) ->
    fetch_after F n ->
    closer_at C n cl ->
    phase {| threads := [M; F; C];
             started := [go_fetchData url; go_func1]; wg := n; closed := cl;
             world := w; panicked := false |}.

Lemma step_fetch_get c rest0 rest :
  threads c = rest0 :: fetchData url :: rest ->
  world c = world0 ->
  exited c = false -> panicked c = false ->
  step env (Run 1) c =
  Some {| threads := rest0 :: Send (fetch_signal fetched) (fetch_defers fetched) :: rest;
          started := started c; wg := wg c; closed := closed c;
          world := world1; panicked := false |}.
Proof.
  intros Hth Hw Hex Hp. unfold step. rewrite Hex, Hp, Hth.
  destruct (fetchData_shape url) as (k & Hk & Hsend).
  rewrite Hk. unfold set_thread, set_world; simpl.
  rewrite Hth, Hw, Hsend, Hp. reflexivity.
Qed.

(** A step of a goroutine that is running a sequential body is a step of
    [run]. *)
Lemma step_run i c c' (p : prog unit) wf :
  threads c !! i = Some p ->
  run env i p (world c) = Some (tt, wf) ->
  step env (Run i) c = Some c' ->
  exists p', c' = set_thread i p' (set_world (world c') c) /\
             run env i p' (world c') = Some (tt, wf).
Proof.
  intros Hp Hrun Hstep. unfold step in Hstep.
  destruct (exited c || panicked c); [done|]. rewrite Hp in Hstep.
  destruct p; simpl in Hrun; try done; simpl in Hstep;
    try (injection Hstep as <-; eexists; split; [reflexivity|exact Hrun]).
  - destruct (do_Create env i name (world c)) as [r w'].
    injection Hstep as <-. eexists; split; [reflexivity|exact Hrun].
  - destruct (do_Write env i f data (world c)) as [r w'].
    injection Hstep as <-. eexists; split; [reflexivity|exact Hrun].
Qed.

Lemma step_Pass_inv i j c c' :
  step env (Pass i j) c = Some c' ->
  exists m ks cases kr,
    threads c !! i = Some (Send m ks) /\
    threads c !! j = Some (Select cases kr) /\
    c' = set_thread j (kr m)
           (set_thread i ks (set_world (log j (EvRecv (Some i) m) (world c)) c)).
Proof.
  unfold step. destruct (exited c || panicked c); [done|].
  destruct (threads c !! i) as [[]|]; try done.
  destruct (threads c !! j) as [[]|]; try done.
  destruct (_ && _); [|done]. intros [= <-]. eauto 10.
Qed.

Lemma step_RecvClosed_inv j ch c c' :
  step env (RecvClosed j ch) c = Some c' ->
  exists cases kr,
    threads c !! j = Some (Select cases kr) /\ is_closed c ch = true.
Proof.
  unfold step. destruct (exited c || panicked c); [done|].
  destruct (threads c !! j) as [[]|]; try done.
  destruct (bool_decide _); [|done]. simpl.
  destruct (is_closed c ch); [|done]. eauto.
Qed.

Lemma fetch_before_no_select F w cases kr :
  fetch_before F w -> F <> Select cases kr.
Proof.
  destruct (fetchData_shape url) as (k & Hk & _).
  intros [] H; [rewrite Hk in H|]; done.
Qed.

Lemma phase_step ch c c' : phase c -> step env ch c = Some c' -> phase c'.
Proof.
  intros Hph Hstep. destruct Hph as [| |F w HF|F w HF|M F C n cl w wf Hwf HM HF HC].
  - (* wg.Add(1) *)
    destruct ch as [[|i]|i j|j ch].
    + unfold step, initial, main in Hstep; simpl in Hstep.
      injection Hstep as <-. apply phase_added.
    + done.
    + apply step_Pass_inv in Hstep as (m & ks & cases & kr & _ & Hj & _).
      by destruct j.
    + apply step_RecvClosed_inv in Hstep as (cases & kr & Hj & _).
      by destruct j.
  - (* go fetchData(...) *)
    destruct ch as [[|i]|i j|j ch].
    + unfold step in Hstep; simpl in Hstep.
      injection Hstep as <-. apply (phase_fetching _ _ fetch_fresh).
    + done.
    + apply step_Pass_inv in Hstep as (m & ks & cases & kr & _ & Hj & _).
      by destruct j.
    + apply step_RecvClosed_inv in Hstep as (cases & kr & Hj & _).
      by destruct j.
  - (* go func1 on one side, the GET on the other *)
    destruct ch as [[|[|i]]|i j|j ch].
    + unfold step in Hstep; simpl in Hstep.
      injection Hstep as <-. by apply phase_selecting.
    + destruct HF.
      * erewrite step_fetch_get in Hstep by done.
        injection Hstep as <-. apply (phase_fetching _ _ fetch_sending).
      * done.
    + done.
    + apply step_Pass_inv in Hstep as (m & ks & cases & kr & _ & Hj & _).
      destruct j as [|[|j]]; simpl in Hj; try done.
      injection Hj as Hj. by destruct (fetch_before_no_select _ _ cases kr HF).
    + apply step_RecvClosed_inv in Hstep as (cases & kr & Hj & _).
      destruct j as [|[|j]]; simpl in Hj; try done.
      injection Hj as Hj. by destruct (fetch_before_no_select _ _ cases kr HF).
  - (* the select on one side, the GET or the send on the other *)
    destruct ch as [[|[|[|i]]]|i j|j ch].
    + done.
    + destruct HF.
      * erewrite step_fetch_get in Hstep by done.
        injection Hstep as <-. apply (phase_selecting _ _ fetch_sending).
      * done.
    + done.
    + done.
    + apply step_Pass_inv in Hstep as (m & ks & cases & kr & Hi & Hj & ->).
      destruct j as [|[|[|j]]]; simpl in Hj; try done.
      * injection Hj as <- <-.
        destruct i as [|[|[|i]]]; simpl in Hi; try done.
        destruct HF as [|].
        { destruct (fetchData_shape url) as (k & Hk & _).
          rewrite Hk in Hi. done. }
        injection Hi as <- <-.
        destruct (run_total env (fetch_signal fetched) world2) as [wf Hwf].
        eapply phase_received; [exact Hwf|exact Hwf|constructor|constructor].
      * injection Hj as Hj. by destruct (fetch_before_no_select _ _ cases kr HF).
    + apply step_RecvClosed_inv in Hstep as (cases & kr & _ & Hcl). done.
  - (* after the select *)
    assert (HnoM : forall cases kr, M <> Select cases kr) by (by intros ?? ->).
    assert (HnoF : forall cases kr, F <> Select cases kr).
    { intros ?? ->. inversion HF as [H| |]. unfold fetch_defers in H.
      by destruct fetched. }
    assert (HnoC : forall cases kr, C <> Select cases kr) by (intros ?? ->; inversion HC).
    destruct ch as [[|[|[|i]]]|i j|j ch].
    + (* main *)
      eapply step_run in Hstep as (M' & -> & HM'); [|reflexivity|exact HM].
      eapply phase_received; eauto.
    + (* fetchData: its deferred calls *)
      unfold step in Hstep. destruct (exited _ || _); [done|].
      destruct HF as [| |].
      * assert (Hd : (exists resp, fetch_defers fetched = BodyClose resp (WgDone (Ret tt)))
                     \/ fetch_defers fetched = WgDone (Ret tt))
          by (unfold fetch_defers; destruct fetched; eauto).
        destruct Hd as [[resp Hd]|Hd]; rewrite Hd in Hstep; simpl in Hstep.
        -- injection Hstep as <-. eapply phase_received; eauto. constructor.
        -- injection Hstep as <-. inversion HC; subst.
           eapply phase_received; eauto; constructor.
      * simpl in Hstep. injection Hstep as <-. inversion HC; subst.
        eapply phase_received; eauto; constructor.
      * done.
    + (* func1 *)
      unfold step in Hstep. destruct (exited _ || _); [done|]. simpl in Hstep.
      destruct HC as [n| | |]; simpl in Hstep.
      * destruct (n =? 0)%Z eqn:Hn; [|done]. apply Z.eqb_eq in Hn as ->.
        injection Hstep as <-. eapply phase_received; eauto. constructor.
      * injection Hstep as <-. eapply phase_received; eauto. constructor.
      * injection Hstep as <-. eapply phase_received; eauto. constructor.
      * done.
    + unfold step in Hstep. destruct (exited _ || _); done.
    + apply step_Pass_inv in Hstep as (m & ks & cases & kr & _ & Hj & _).
      destruct j as [|[|[|j]]]; simpl in Hj; try done; injection Hj as Hj.
      * by destruct (HnoM cases kr).
      * by destruct (HnoF cases kr).
      * by destruct (HnoC cases kr).
    + apply step_RecvClosed_inv in Hstep as (cases & kr & Hj & _).
      destruct j as [|[|[|j]]]; simpl in Hj; try done; injection Hj as Hj.
      * by destruct (HnoM cases kr).
      * by destruct (HnoF cases kr).
      * by destruct (HnoC cases kr).
Qed.

Lemma exec_phase sched c c' : phase c -> exec env sched c = Some c' -> phase c'.
Proof.
  revert c; induction sched as [|ch sched IH]; intros c Hph; simpl.
  - by intros [= <-].
  - destruct (step env ch c) as [c1|] eqn:Hstep; [|done].
    apply IH. by eapply phase_step.
Qed.

Lemma reachable_phase c : reachable env files c -> phase c.
Proof. intros [sched H]. eapply exec_phase; [apply phase_start|exact H]. Qed.

(** The world in which [main] returns. *)
Definition final_world : World :=
  match run env 0 (main_select (fetch_signal fetched)) world2 with
  | Some (_, w) => w
  | None => world2
  end.

Lemma final_world_run :
  run env 0 (main_select (fetch_signal fetched)) world2 = Some (tt, final_world).
Proof.
  unfold final_world.
  by destruct (run_total env (fetch_signal fetched) world2) as [w ->].
Qed.

Lemma phase_exited c :
  phase c -> exited c = true ->
  world c = final_world /\ started c = [go_fetchData url; go_func1].
Proof.
  intros [| |F w HF|F w HF|M F C n cl w wf Hwf HM HF HC]; try done.
  unfold exited; simpl. destruct M; try done. simpl in HM.
  intros _. rewrite final_world_run in Hwf. split; [congruence|done].
Qed.

Lemma phase_started c :
  phase c -> exists later, started c ++ later = [go_fetchData url; go_func1].
Proof. intros []; simpl; eauto. Qed.

Lemma phase_running c : phase c -> panicked c = false.
Proof. by intros []. Qed.

(** What has happened so far is always an initial part of what will have
    happened when [main] returns. *)
Lemma phase_prefix c :
  phase c -> exists evs, trace final_world = trace (world c) ++ evs.
Proof.
  destruct (run_trace_prefix env 0 _ _ _ _ final_world_run) as (evs & Hevs & _).
  unfold world2, world1, world0 in Hevs. simpl in Hevs.
  assert (Hfresh : exists evs, trace final_world = [] ++ evs) by eauto.
  assert (Hsent : exists evs, trace final_world = [(1%nat, EvHttpGet url)] ++ evs)
    by (rewrite Hevs; simpl; eauto).
  intros [| |F w HF|F w HF|M F C n cl w wf Hwf HM HF HC]; simpl; try done.
  - by destruct HF.
  - by destruct HF.
  - rewrite final_world_run in Hwf. injection Hwf as <-.
    destruct (run_trace_prefix env 0 _ _ _ _ HM) as (evs' & ? & _). eauto.
Qed.

Lemma final_trace :
  exists rest : list (nat * event),
    trace final_world =
    [(1%nat, EvHttpGet url); (0%nat, EvRecv (Some 1%nat) (fetch_signal fetched))] ++ rest /\
    Forall (own_event 0) rest.
Proof.
  destruct (run_trace_prefix env 0 _ _ _ _ final_world_run) as (evs & Hevs & Hown).
  exists evs. by rewrite Hevs.
Qed.

(** A run is never stuck: as long as [main] has not returned, some
    goroutine can go on. *)
Lemma phase_progress c :
  phase c -> exited c = false -> exists ch c', step env ch c = Some c'.
Proof.
  intros [| |F w HF|F w HF|M F C n cl w wf Hwf HM HF HC] Hex.
  - exists (Run 0). by eexists.
  - exists (Run 0). by eexists.
  - exists (Run 0). by eexists.
  - destruct HF.
    + exists (Run 1). eexists. by apply step_fetch_get.
    + exists (Pass 1 0). unfold step; simpl.
      destruct (fetch_signal fetched); by eexists.
  - exists (Run 0). unfold step. rewrite Hex. simpl.
    unfold exited in Hex; simpl in Hex.
    destruct M; simpl in HM; try done; try by eexists.
    + destruct (do_Create env 0 name w). by eexists.
    + destruct (do_Write env 0 f data w). by eexists.
Qed.

Lemma exec_app s1 s2 c c1 :
  exec env s1 c = Some c1 -> exec env (s1 ++ s2) c = exec env s2 c1.
Proof.
  revert c; induction s1 as [|ch s1 IH]; intros c; simpl.
  - by intros [= <-].
  - destruct (step env ch c); [apply IH|done].
Qed.

(** Letting [main] run on its own takes it to its end. *)
Lemma exec_main_alone (M : prog unit) c :
  sequential M -> threads c !! 0%nat = Some M -> panicked c = false ->
  exists sched c', exec env sched c = Some c' /\ exited c' = true.
Proof.
  intros HM; revert c; induction HM as
    [a|u k _ IH|r k _ IH|args k _ IH|name k _ IH|f data k _ IH|f k _ IH];
    intros c Hth Hp.
  - exists [], c. split; [done|]. unfold exited. by rewrite Hth.
  - destruct (IH (env_get env (trace (world c)) u)
                 (set_thread 0 (k (env_get env (trace (world c)) u))
                    (set_world (log 0 (EvHttpGet u) (world c)) c)))
      as (sched & c' & Hexec & Hex).
    { simpl. apply list_lookup_insert_eq. by eapply lookup_lt_Some. }
    { done. }
    exists (Run 0 :: sched), c'. split; [|done]. simpl.
    unfold step, exited. rewrite Hth, Hp. simpl. exact Hexec.
  - destruct (IH (set_thread 0 k c)) as (sched & c' & Hexec & Hex).
    { simpl. apply list_lookup_insert_eq. by eapply lookup_lt_Some. }
    { done. }
    exists (Run 0 :: sched), c'. split; [|done]. simpl.
    unfold step, exited. rewrite Hth, Hp. simpl. exact Hexec.
  - destruct (IH (set_thread 0 k (set_world (do_Println 0 args (world c)) c)))
      as (sched & c' & Hexec & Hex).
    { simpl. apply list_lookup_insert_eq. by eapply lookup_lt_Some. }
    { done. }
    exists (Run 0 :: sched), c'. split; [|done]. simpl.
    unfold step, exited. rewrite Hth, Hp. simpl. exact Hexec.
  - destruct (do_Create env 0 name (world c)) as [r w'] eqn:Hdo.
    destruct (IH r (set_thread 0 (k r) (set_world w' c)))
      as (sched & c' & Hexec & Hex).
    { simpl. apply list_lookup_insert_eq. by eapply lookup_lt_Some. }
    { done. }
    exists (Run 0 :: sched), c'. split; [|done]. simpl.
    unfold step, exited. rewrite Hth, Hp. simpl. rewrite Hdo. exact Hexec.
  - destruct (do_Write env 0 f data (world c)) as [r w'] eqn:Hdo.
    destruct (IH r (set_thread 0 (k r) (set_world w' c)))
      as (sched & c' & Hexec & Hex).
    { simpl. apply list_lookup_insert_eq. by eapply lookup_lt_Some. }
    { done. }
    exists (Run 0 :: sched), c'. split; [|done]. simpl.
    unfold step, exited. rewrite Hth, Hp. simpl. rewrite Hdo. exact Hexec.
  - destruct (IH (set_thread 0 k c)) as (sched & c' & Hexec & Hex).
    { simpl. apply list_lookup_insert_eq. by eapply lookup_lt_Some. }
    { done. }
    exists (Run 0 :: sched), c'. split; [|done]. simpl.
    unfold step, exited. rewrite Hth, Hp. simpl. exact Hexec.
Qed.

(** [main] can always return, and where it returns does not depend on the
    schedule. *)
Lemma terminates_final : terminates env files final_world.
Proof.
  assert (exists c, exec env [Run 0; Run 0; Run 0; Run 1; Pass 1 0] (initial files)
                    = Some c /\ threads c !! 0%nat
                    = Some (main_select (fetch_signal fetched))) as (c & Hc & Hth).
  { rewrite (exec_app [Run 0; Run 0; Run 0] [Run 1; Pass 1 0] _
               {| threads := [Select [errorChan; resultChan] main_select;
                              fetchData url; func1];
                  started := [go_fetchData url; go_func1]; wg := 1; closed := [];
                  world := world0; panicked := false |}) by reflexivity.
    cbn [exec]. erewrite step_fetch_get by done.
    unfold step; simpl. destruct (fetch_signal fetched); by eexists. }
  destruct (exec_main_alone _ c (main_select_sequential _) Hth)
    as (sched & c' & Hexec & Hex).
  { eapply phase_running, reachable_phase. by eexists. }
  exists c'. assert (reachable env files c') as Hr.
  { eexists. erewrite exec_app; [exact Hexec|exact Hc]. }
  split; [exact Hr|]. split; [exact Hex|].
  by apply phase_exited; [apply reachable_phase|].
Qed.

Lemma terminates_iff w : terminates env files w <-> w = final_world.
Proof.
  split.
  - intros (c & Hr & Hex & <-). by apply phase_exited; [apply reachable_phase|].
  - intros ->. apply terminates_final.
Qed.

End Runs.

(** ** What a GET amounts to for its caller *)

(** The three checks [fetchData] and [downloadSprite] make: the request
    went through, the status is 200, and the body was read to its end. *)
Definition get_succeeds (r : Response + error) (body : bytes) : Prop :=
  exists resp, r = inl resp /\ StatusCode resp = StatusOK /\
               io_ReadAll (Body resp) = (body, None).

Lemma fetch_signal_result r body :
  fetch_signal r = on_resultChan body <-> get_succeeds r body.
Proof.
  unfold get_succeeds, fetch_signal, io_ReadAll. split.
  - destruct r as [resp|err]; [|done].
    destruct (StatusCode resp =? StatusOK)%Z eqn:Hst; simpl; [|done].
    destruct (stream_err (Body resp)) eqn:Herr; [done|].
    intros [= <-]. exists resp. apply Z.eqb_eq in Hst. by rewrite Herr.
  - intros (resp & -> & Hst & [= <- Herr]).
    apply Z.eqb_eq in Hst. by rewrite Hst, Herr.
Qed.

(** ** The sprite steps *)

(** What a run has added to the trace. *)
Definition events_between (w w' : World) : list (nat * event) :=
  drop (length (trace w)) (trace w').

Lemma events_between_app w w' evs :
  trace w' = trace w ++ evs -> events_between w w' = evs.
Proof. unfold events_between. intros ->. by rewrite drop_app_length. Qed.

Lemma events_between_same w : events_between w w = [].
Proof. apply events_between_app. by rewrite app_nil_r. Qed.

(** The block of lines 139-152, and of lines 154-167, with what differs
    between the two left open: the three console texts, the URL and the
    file name. *)
Definition sprite_step (l_download l_save l_saved u filename : string) : prog unit :=
  if negb (String.eqb u "") then
    bind (downloadSprite u) (fun r =>
      let '(spriteData, err) := r in
      match err with
      | Some err => fmt_Println [VString l_download; VError (Some err)]
      | None =>
          bind (saveSprite spriteData filename) (fun err =>
            match err with
            | Some err => fmt_Println [VString l_save; VError (Some err)]
            | None => fmt_Println [VString l_saved; VString filename]
            end)
      end)
  else Ret tt.

Definition frontFilename (pokemon : Pokemon) : string :=
  filepath.Join ["."; Name pokemon +:+ "_front.png"].

Definition backFilename (pokemon : Pokemon) : string :=
  filepath.Join ["."; Name pokemon +:+ "_back.png"].

Lemma front_sprite_step p :
  front_sprite p =
  sprite_step "Error downloading front sprite:" "Error saving front sprite:"
    "Front sprite saved as:" (FrontDefault (Sprites_ p)) (frontFilename p).
Proof. reflexivity. Qed.

Lemma back_sprite_step p :
  back_sprite p =
  sprite_step "Error downloading back sprite:" "Error saving back sprite:"
    "Back sprite saved as:" (BackDefault (Sprites_ p)) (backFilename p).
Proof. reflexivity. Qed.

(** The events of one sprite step: nothing, or the GET followed by what
    the outcome of the download and of the save put after it. *)
Inductive sprite_events (g : nat) (l_download l_save l_saved u filename : string)
  : list (nat * event) -> Prop :=
| sprite_skipped :
    u = "" ->
    sprite_events g l_download l_save l_saved u filename []
| sprite_download_failed e :
    u <> "" ->
    sprite_events g l_download l_save l_saved u filename
      [(g, EvHttpGet u);
       (g, EvPrintln [VString l_download; VError (Some e)])]
| sprite_create_failed e :
    u <> "" ->
    sprite_events g l_download l_save l_saved u filename
      [(g, EvHttpGet u); (g, EvCreate filename);
       (g, EvPrintln [VString l_save; VError (Some e)])]
| sprite_write_failed data e :
    u <> "" ->
    sprite_events g l_download l_save l_saved u filename
      [(g, EvHttpGet u); (g, EvCreate filename); (g, EvWrite filename data);
       (g, EvPrintln [VString l_save; VError (Some e)])]
| sprite_saved data :
    u <> "" ->
    sprite_events g l_download l_save l_saved u filename
      [(g, EvHttpGet u); (g, EvCreate filename); (g, EvWrite filename data);
       (g, EvPrintln [VString l_saved; VString filename])].

Section SpriteStep.

Context (env : Env) (g : nat) (l_download l_save l_saved u filename : string).

Lemma downloadSprite_run w :
  exists data err,
    run env g (downloadSprite u) w = Some ((data, err), log g (EvHttpGet u) w) /\
    (err = None -> get_succeeds (env_get env (trace w) u) data) /\
    (forall d, get_succeeds (env_get env (trace w) u) d -> err = None /\ data = d).
Proof.
  unfold downloadSprite, get_succeeds, io_ReadAll. simpl.
  destruct (env_get env (trace w) u) as [resp|e]; simpl.
  - destruct (StatusCode resp =? StatusOK)%Z eqn:Hst; simpl.
    + apply Z.eqb_eq in Hst.
      destruct (stream_err (Body resp)) as [e|] eqn:Herr; simpl.
      * eexists _, _. split; [reflexivity|]. split; [done|].
        intros d (resp' & [= <-] & _ & [= _ H]). congruence.
      * eexists _, _. split; [reflexivity|]. split.
        -- intros _. exists resp. by rewrite Herr.
        -- by intros d (resp' & [= <-] & _ & [= <- _]).
    + apply Z.eqb_neq in Hst.
      eexists _, _. split; [reflexivity|]. split; [done|].
      by intros d (resp' & [= <-] & ? & _).
  - eexists _, _. split; [reflexivity|]. split; [done|].
    by intros d (resp' & ? & _).
Qed.

Lemma saveSprite_run data w :
  exists err w',
    run env g (saveSprite data filename) w = Some (err, w') /\
    (forall other, other <> filename -> fs w' !! other = fs w !! other) /\
    match env_create env (trace w) filename with
    | Some _ =>
        err <> None /\ fs w' = fs w /\ trace w' = trace w ++ [(g, EvCreate filename)]
    | None =>
        trace w' = trace w ++ [(g, EvCreate filename); (g, EvWrite filename data)] /\
        (err = None -> fs w' !! filename = Some data)
    end.
Proof.
  unfold saveSprite. simpl. unfold do_Create.
  destruct (env_create env (trace w) filename) as [e|] eqn:Hcreate; simpl.
  - eexists _, _. split; [reflexivity|]. done.
  - unfold do_Write; simpl.
    destruct (env_write env _ filename data) as [[n e]|]; simpl;
      (eexists _, _; split; [reflexivity|]); simpl.
    + split; [intros other Hne; by rewrite !lookup_insert_ne|].
      rewrite <- app_assoc. done.
    + split; [intros other Hne; by rewrite !lookup_insert_ne|].
      rewrite <- app_assoc. split; [done|].
      intros _. by rewrite lookup_insert_eq, lookup_insert_eq.
Qed.

#[local] Opaque downloadSprite saveSprite.

(** One sprite step from [w] to [w']: what it adds to the trace, and what
    decides it. *)
Definition sprite_step_facts (w w' : World) : Prop :=
  trace w' = trace w ++ events_between w w' /\
  sprite_events g l_download l_save l_saved u filename (events_between w w') /\
  (u = "" -> w' = w) /\
  ((g, EvCreate filename) ∈ events_between w w' <->
     u <> "" /\ exists data, get_succeeds (env_get env (trace w) u) data) /\
  (forall other, other <> filename -> fs w' !! other = fs w !! other) /\
  (forall data e wd,
     u <> "" ->
     run env g (downloadSprite u) w = Some ((data, Some e), wd) ->
     events_between w w' =
     [(g, EvHttpGet u); (g, EvPrintln [VString l_download; VError (Some e)])]) /\
  (forall data wd e ws,
     u <> "" ->
     run env g (downloadSprite u) w = Some ((data, None), wd) ->
     run env g (saveSprite data filename) wd = Some (Some e, ws) ->
     (g, EvPrintln [VString l_save; VError (Some e)]) ∈ events_between w w') /\
  (forall data wd ws,
     u <> "" ->
     run env g (downloadSprite u) w = Some ((data, None), wd) ->
     run env g (saveSprite data filename) wd = Some (None, ws) ->
     fs w' !! filename = Some data).

Lemma sprite_step_run w :
  exists w',
    run env g (sprite_step l_download l_save l_saved u filename) w = Some (tt, w') /\
    sprite_step_facts w w'.
Proof.
  unfold sprite_step_facts, sprite_step.
  destruct (String.eqb_spec u "") as [->|Hu]; simpl.
  { exists w. rewrite events_between_same, app_nil_r.
    split_and!; try done.
    - by constructor.
    - split; [by intros ?%elem_of_nil|by intros [??]]. }
  rewrite run_bind.
  destruct (downloadSprite_run w) as (data & err & Hdl & Hok & Hsucc).
  rewrite Hdl. destruct err as [e|].
  - (* the download failed *)
    simpl. eexists. split; [reflexivity|].
    erewrite events_between_app by (simpl; rewrite <- app_assoc; reflexivity).
    simpl. rewrite <- app_assoc.
    split_and!; try done.
    + by constructor.
    + split.
      * intros H. not_in_list H.
      * intros [_ [d Hd]]. by destruct (Hsucc d Hd).
    + by intros d e' wd _ [= _ -> _].
  - (* the download succeeded: the save *)
    rewrite run_bind.
    destruct (saveSprite_run data (log g (EvHttpGet u) w))
      as (err & ws & Hsave & Hother & Hcreate).
    rewrite Hsave. simpl in Hcreate.
    destruct (env_create env (trace w ++ [(g, EvHttpGet u)]) filename) as [e0|].
    + (* os.Create failed *)
      destruct Hcreate as (Herr & Hfs & Htr).
      destruct err as [e|]; [|done]. simpl.
      eexists. split; [reflexivity|].
      erewrite events_between_app
        by (simpl; rewrite Htr, <- !app_assoc; reflexivity).
      simpl. rewrite Htr, <- !app_assoc. simpl.
      split_and!; try done.
      * by constructor.
      * split; [|intros _; in_list].
        intros _. split; [done|]. exists data. by apply Hok.
      * intros d wd e' ws' _ [= <- <-] Hs. rewrite Hsave in Hs.
        injection Hs as <- <-. in_list.
      * intros d wd ws' _ [= <- <-] Hs. rewrite Hsave in Hs. done.
    + destruct Hcreate as (Htr & Hfs).
      assert (Hshape : forall args,
                 trace (log g (EvPrintln args) ws) =
                 trace w ++ [(g, EvHttpGet u); (g, EvCreate filename);
                             (g, EvWrite filename data);
                             (g, EvPrintln args)])
        by (intros args; simpl; rewrite Htr, <- !app_assoc; reflexivity).
      destruct err as [e|]; simpl;
        (eexists; split; [reflexivity|]); unfold do_Println;
        rewrite (events_between_app _ _ _ (Hshape _)), Hshape;
        (split_and!; try done;
         [ by constructor
         | split; [|intros _; in_list];
           intros _; split; [done|]; exists data; by apply Hok
         | | ]).
      * intros d wd e' ws' _ [= <- <-] Hs. rewrite Hsave in Hs.
        injection Hs as <- <-. in_list.
      * intros d wd ws' _ [= <- <-] Hs. rewrite Hsave in Hs. done.
      * intros d wd e' ws' _ [= <- <-] Hs. rewrite Hsave in Hs. done.
      * intros d wd ws' _ [= <- <-] _. simpl. by apply Hfs.
Qed.

#[local] Transparent downloadSprite saveSprite.

End SpriteStep.

(** ** Where [main] returns *)

(** The six console lines of lines 131-136. *)
Definition field_lines (p : Pokemon) : list (nat * event) :=
  [ (0%nat, EvPrintln [VString "Pokemon Name:"; VString (Name p)]);
    (0%nat, EvPrintln [VString "Pokemon BaseExp:"; VInt32 (BaseExp p)]);
    (0%nat, EvPrintln [VString "Pokemon Height:"; VInt32 (Height p)]);
    (0%nat, EvPrintln [VString "Pokemon Id:"; VInt32 (Id p)]);
    (0%nat, EvPrintln [VString "Pokemon Sprites:"; VSprites (Sprites_ p)]);
    (0%nat, EvPrintln [VString "Pokemon Abilities:"; VStatInfos (StatInfo_ p)]) ].

(** The world once the body has been received, decoded into [p] and
    printed: the GET of the worker, the receive of [main], the six lines. *)
Definition printed_world (files : gmap string bytes) (body : bytes) (p : Pokemon)
  : World :=
  {| trace := [(1%nat, EvHttpGet url);
               (0%nat, EvRecv (Some 1%nat) (on_resultChan body))] ++ field_lines p;
     fs := files |}.

Section MainRuns.

Context (env : Env) (files : gmap string bytes).

Lemma final_error e :
  fetch_signal (fetched env) = on_errorChan e ->
  final_world env files =
  {| trace := [(1%nat, EvHttpGet url);
               (0%nat, EvRecv (Some 1%nat) (on_errorChan e));
               (0%nat, EvPrintln [VString "Error:"; VError e])];
     fs := files |}.
Proof.
  intros He. pose proof (final_world_run env files) as Hrun.
  unfold world2, world1, world0 in Hrun. rewrite He in Hrun.
  unfold main_select in Hrun. simpl in Hrun. by injection Hrun as <-.
Qed.

Lemma final_parse_error body err :
  get_succeeds (fetched env) body -> snd (parseJSON body) = Some err ->
  final_world env files =
  {| trace := [(1%nat, EvHttpGet url);
               (0%nat, EvRecv (Some 1%nat) (on_resultChan body));
               (0%nat, EvPrintln [VString "Error:"; VError (Some err)])];
     fs := files |}.
Proof.
  intros Hget%fetch_signal_result Hparse.
  pose proof (final_world_run env files) as Hrun.
  unfold world2, world1, world0 in Hrun. rewrite Hget in Hrun.
  unfold main_select in Hrun.
  destruct (parseJSON body) as [p perr]. simpl in Hparse. subst perr.
  simpl in Hrun. by injection Hrun as <-.
Qed.

Lemma final_decoded body p :
  get_succeeds (fetched env) body -> parseJSON body = (p, None) ->
  exists w1, run env 0 (front_sprite p) (printed_world files body p) = Some (tt, w1) /\
             run env 0 (back_sprite p) w1 = Some (tt, final_world env files).
Proof.
  intros Hget%fetch_signal_result Hparse.
  pose proof (final_world_run env files) as Hrun.
  unfold world2, world1, world0 in Hrun. rewrite Hget in Hrun.
  unfold main_select in Hrun. rewrite Hparse in Hrun.
  cbv beta iota in Hrun. rewrite (run_bind env 0 (print_fields p)) in Hrun.
  change (run env 0 (print_fields p) _)
    with (Some (tt, printed_world files body p)) in Hrun.
  cbv beta iota in Hrun. rewrite (run_bind env 0 (front_sprite p)) in Hrun.
  destruct (run env 0 (front_sprite p) (printed_world files body p))
    as [[[] w1]|]; [|done].
  by exists w1.
Qed.

(** A decoded body: the two sprite steps, one after the other. *)
Lemma decoded_run body p :
  get_succeeds (fetched env) body -> parseJSON body = (p, None) ->
  exists w1,
    run env 0 (front_sprite p) (printed_world files body p) = Some (tt, w1) /\
    run env 0 (back_sprite p) w1 = Some (tt, final_world env files) /\
    sprite_step_facts env 0 "Error downloading front sprite:"
      "Error saving front sprite:" "Front sprite saved as:"
      (FrontDefault (Sprites_ p)) (frontFilename p)
      (printed_world files body p) w1 /\
    sprite_step_facts env 0 "Error downloading back sprite:"
      "Error saving back sprite:" "Back sprite saved as:"
      (BackDefault (Sprites_ p)) (backFilename p) w1 (final_world env files).
Proof.
  intros Hget Hparse.
  destruct (final_decoded body p Hget Hparse) as (w1 & Hfront & Hback).
  exists w1. split; [done|]. split; [done|].
  rewrite front_sprite_step in Hfront. rewrite back_sprite_step in Hback.
  split.
  - destruct (sprite_step_run env 0 "Error downloading front sprite:"
                "Error saving front sprite:" "Front sprite saved as:"
                (FrontDefault (Sprites_ p)) (frontFilename p)
                (printed_world files body p)) as (w' & Hrun & Hfacts).
    rewrite Hfront in Hrun. by injection Hrun as <-.
  - destruct (sprite_step_run env 0 "Error downloading back sprite:"
                "Error saving back sprite:" "Back sprite saved as:"
                (BackDefault (Sprites_ p)) (backFilename p) w1)
      as (w' & Hrun & Hfacts).
    rewrite Hback in Hrun. by injection Hrun as <-.
Qed.

End MainRuns.

(** The URLs of the GETs of a trace, in order. *)
Fixpoint gets (tr : list (nat * event)) : list string :=
  match tr with
  | [] => []
  | (_, EvHttpGet u) :: tr' => u :: gets tr'
  | _ :: tr' => gets tr'
  end.

Lemma gets_app tr1 tr2 : gets (tr1 ++ tr2) = gets tr1 ++ gets tr2.
Proof.
  induction tr1 as [|[g []] tr1 IH]; simpl; try done. by rewrite IH.
Qed.

Lemma sprite_events_get g l1 l2 l3 u f evs :
  sprite_events g l1 l2 l3 u f evs ->
  ((g, EvHttpGet u) ∈ evs <-> u <> "") /\
  gets evs = if String.eqb u "" then [] else [u].
Proof.
  intros [Hu|e Hu|e Hu|data e Hu|data Hu].
  - subst u. split; [|done]. split; [by intros ?%elem_of_nil|done].
  - split; [split; [done|intros _; in_list]|].
    simpl. by destruct (String.eqb_spec u "").
  - split; [split; [done|intros _; in_list]|].
    simpl. by destruct (String.eqb_spec u "").
  - split; [split; [done|intros _; in_list]|].
    simpl. by destruct (String.eqb_spec u "").
  - split; [split; [done|intros _; in_list]|].
    simpl. by destruct (String.eqb_spec u "").
Qed.

(** What guards a sprite step that goes from [w] to [w']: the GET is made
    exactly when the URL is not empty, [saveSprite] is entered (its first
    call is [os.Create]) exactly when moreover the download succeeded, and
    an empty URL leaves the world as it is. *)
Definition guarded (env : Env) (u filename : string) (w w' : World) : Prop :=
  ((0%nat, EvHttpGet u) ∈ events_between w w' <-> u <> "") /\
  ((0%nat, EvCreate filename) ∈ events_between w w' <->
     u <> "" /\ exists data, get_succeeds (env_get env (trace w) u) data) /\
  (u = "" -> w' = w).

(** The console lines of a trace, in order. *)
Fixpoint printed (tr : list (nat * event)) : list (list value) :=
  match tr with
  | [] => []
  | (_, EvPrintln args) :: tr' => args :: printed tr'
  | _ :: tr' => printed tr'
  end.

Lemma printed_app tr1 tr2 : printed (tr1 ++ tr2) = printed tr1 ++ printed tr2.
Proof.
  induction tr1 as [|[g []] tr1 IH]; simpl; try done. by rewrite IH.
Qed.

(** The texts the console lines of the sprite steps start with. *)
Definition sprite_texts : list string :=
  [ "Error downloading front sprite:"; "Error saving front sprite:";
    "Front sprite saved as:";
    "Error downloading back sprite:"; "Error saving back sprite:";
    "Back sprite saved as:" ].

Definition sprite_line (args : list value) : Prop :=
  exists text v, args = [VString text; v] /\ text ∈ sprite_texts.

Lemma sprite_events_printed g l1 l2 l3 u f evs :
  sprite_events g l1 l2 l3 u f evs ->
  l1 ∈ sprite_texts -> l2 ∈ sprite_texts -> l3 ∈ sprite_texts ->
  (length (printed evs) <= 1)%nat /\ Forall sprite_line (printed evs).
Proof.
  intros [Hu|e Hu|e Hu|data e Hu|data Hu] H1 H2 H3; simpl;
    (split; [lia|]); repeat constructor; by eexists _, _.
Qed.

(** ** The fuel of the parser *)

Section Fuel.

Import json.

Lemma skip_space_length s : (length (skip_space s) <= length s)%nat.
Proof.
  induction s as [|b s IH]; simpl; [lia|].
  destruct (isSpace (code b)); simpl; lia.
Qed.

Lemma skip_space_cons s b rest :
  skip_space s = b :: rest -> (length rest < length s)%nat.
Proof. intros H. pose proof (skip_space_length s) as Hlen. rewrite H in Hlen. simpl in Hlen. lia. Qed.

Lemma scan_string_length st s raw rest :
  scan_string st s = Some (raw, rest) -> (length rest < length s)%nat.
Proof.
  revert st raw; induction s as [|b s IH]; intros st raw; simpl; [done|].
  assert (Hcont : forall st',
            match scan_string st' s with
            | Some (raw0, rest') => Some (b :: raw0, rest')
            | None => None
            end = Some (raw, rest) -> (length rest < S (length s))%nat).
  { intros st'. destruct (scan_string st' s) as [[raw0 rest']|] eqn:Hscan; [|done].
    intros [= _ <-]. apply IH in Hscan. lia. }
  destruct st as [| |n].
  - destruct (code b =? 34)%Z; [intros [= _ <-]; lia|].
    destruct (code b =? 92)%Z; [apply Hcont|].
    destruct (code b <? 32)%Z; [done|apply Hcont].
  - destruct (_ || _); [apply Hcont|].
    destruct (code b =? 117)%Z; [apply Hcont|done].
  - destruct (is_hex (code b)); [|done].
    destruct n as [|[|n]]; apply Hcont.
Qed.

Lemma scan_number_length st s literal rest :
  scan_number st s = Some (literal, rest) -> (length rest <= length s)%nat.
Proof.
  revert st literal; induction s as [|b s IH]; intros st literal; simpl.
  - destruct (number_may_end st); [|done]. by intros [= _ <-].
  - destruct (number_step st (code b)) as [st'|].
    + destruct (scan_number st' s) as [[lit rest']|] eqn:Hscan; [|done].
      intros [= _ <-]. apply IH in Hscan. lia.
    + destruct (number_may_end st); [|done]. intros [= _ <-]. simpl. lia.
Qed.

Lemma expect_length word s rest :
  expect word s = Some rest -> (length rest <= length s)%nat.
Proof.
  revert s; induction word as [|c word IH]; intros s; simpl.
  - by intros [= <-].
  - destruct s as [|b s]; [done|]. destruct (Byte.eqb c b); [|done].
    intros H%IH. simpl. lia.
Qed.

(** Length facts out of the scanning equations at hand. *)
Ltac scanned :=
  repeat match goal with
    | H : skip_space _ = _ :: _ |- _ => apply skip_space_cons in H
    | H : scan_string _ _ = Some _ |- _ => apply scan_string_length in H
    | H : scan_number _ _ = Some _ |- _ => apply scan_number_length in H
    | H : expect _ _ = Some _ |- _ => apply expect_length in H
    end.

(** Case analysis on what a hypothesis branches on. *)
Ltac branches H :=
  repeat match type of H with
    | context [match ?x with _ => _ end] =>
        lazymatch x with
        | context [match _ with _ => _ end] => fail
        | _ => destruct x eqn:?; try discriminate H
        end
    end.

(** The parser consumes input. *)
Lemma parse_length fuel :
  forall depth,
    (forall s v rest, parse_value fuel depth s = Some (v, rest) ->
                      (length rest < length s)%nat) /\
    (forall acc s v rest, parse_members fuel depth acc s = Some (v, rest) ->
                          (length rest < length s)%nat) /\
    (forall acc s v rest, parse_elements fuel depth acc s = Some (v, rest) ->
                          (length rest < length s)%nat).
Proof.
  induction fuel as [|fuel IH]; intros depth; [done|].
  split_and!.
  - intros s v rest H. simpl in H. branches H;
      try (injection H as <- <-); scanned; simpl in *; try lia.
    + apply (IH (depth + 1)%Z) in H. lia.
    + apply (IH (depth + 1)%Z) in H. lia.
  - intros acc s v rest H. simpl in H. branches H;
      try (injection H as <- <-);
      match goal with
      | Hv : parse_value fuel depth _ = Some _ |- _ => apply (IH depth) in Hv
      end; scanned; simpl in *; try lia.
    apply (IH depth) in H. lia.
  - intros acc s v rest H. simpl in H. branches H;
      try (injection H as <- <-);
      match goal with
      | Hv : parse_value fuel depth _ = Some _ |- _ => apply (IH depth) in Hv
      end; scanned; simpl in *; try lia.
    apply (IH depth) in H. lia.
Qed.

(** More fuel than twice the length of the input changes nothing. *)
Lemma parse_fuel_le fuel :
  forall fuel' depth, (fuel <= fuel')%nat ->
    (forall s, (2 * length s < fuel)%nat ->
               parse_value fuel depth s = parse_value fuel' depth s) /\
    (forall acc s, (2 * length s < fuel)%nat ->
                   parse_members fuel depth acc s = parse_members fuel' depth acc s) /\
    (forall acc s, (2 * length s + 1 < fuel)%nat ->
                   parse_elements fuel depth acc s = parse_elements fuel' depth acc s).
Proof.
  induction fuel as [|fuel IH]; intros fuel' depth Hle; [split_and!; intros; lia|].
  destruct fuel' as [|fuel']; [lia|].
  assert (Hle' : (fuel <= fuel')%nat) by lia.
  pose proof (fun d => proj1 (IH fuel' d Hle')) as IHv.
  pose proof (fun d => proj1 (proj2 (IH fuel' d Hle'))) as IHm.
  pose proof (fun d => proj2 (proj2 (IH fuel' d Hle'))) as IHe.
  pose proof (fun d => proj1 (parse_length fuel d)) as Hlen.
  clear IH.
  split_and!.
  - intros s Hs. simpl.
    destruct (skip_space s) as [|b rest] eqn:Hskip; [done|].
    repeat match goal with
      | |- context [match skip_space rest with _ => _ end] =>
          destruct (skip_space rest) eqn:?
      | |- context [if ?b then _ else _] => destruct b
      end; try done; scanned.
    + apply IHm. lia.
    + apply IHe. lia.
  - intros acc s Hs. simpl.
    destruct (skip_space s) as [|b rest] eqn:Hskip; [done|].
    destruct (code b =? 34)%Z; [|done].
    destruct (scan_string inString rest) as [[raw rest1]|] eqn:Hkey; [|done].
    destruct (skip_space rest1) as [|colon rest2] eqn:Hskip1; [done|].
    destruct (code colon =? 58)%Z; [|done].
    rewrite <- IHv by (scanned; lia).
    destruct (parse_value fuel depth rest2) as [[v rest3]|] eqn:Hv; [|done].
    destruct (skip_space rest3) as [|sep rest4] eqn:Hskip3; [done|].
    destruct (code sep =? 44)%Z; [|done].
    apply IHm. apply Hlen in Hv. scanned. lia.
  - intros acc s Hs. simpl.
    rewrite <- IHv by lia.
    destruct (parse_value fuel depth s) as [[v rest]|] eqn:Hv; [|done].
    destruct (skip_space rest) as [|sep rest'] eqn:Hskip; [done|].
    destruct (code sep =? 44)%Z; [|done].
    apply IHe. apply Hlen in Hv. scanned. lia.
Qed.

(** So [parse] does not depend on the fuel it gives: any larger amount
    reads the same value. *)
Lemma parse_value_fuel data fuel :
  (2 * length data < fuel)%nat ->
  parse_value fuel 0 data = parse_value (S (2 * length data)) 0 data.
Proof.
  intros Hfuel. symmetry.
  apply (parse_fuel_le (S (2 * length data)) fuel 0); lia.
Qed.

End Fuel.

(** ** Keys the decoder does not know *)

Lemma equalFold_eqb a b : String.eqb a b = true -> json.equalFold a b = true.
Proof. intros ->%String.eqb_eq. unfold json.equalFold. apply String.eqb_refl. Qed.

Lemma find_field_unknown {T : Type} (fs : json.fields T) key :
  (forall f, f ∈ fs -> json.equalFold key f.1 = false) ->
  json.find_field fs key = None.
Proof.
  intros Hfs. unfold json.find_field.
  assert (Hexact : List.find (fun f => String.eqb key f.1) fs = None).
  { induction fs as [|f fs IH]; [done|]. simpl.
    destruct (String.eqb key f.1) eqn:Heq.
    - apply equalFold_eqb in Heq. rewrite Hfs in Heq; [done|by left].
    - apply IH. intros f' Hf'. apply Hfs. by right. }
  assert (Hfold : List.find (fun f => json.equalFold key f.1) fs = None).
  { induction fs as [|f fs IH]; [done|]. simpl.
    rewrite Hfs by (by left). apply IH.
    - intros f' Hf'. apply Hfs. by right.
    - simpl in Hexact. by destruct (String.eqb key f.1). }
  by rewrite Hexact, Hfold.
Qed.

Lemma store_members_unknown {T : Type} (fs : json.fields T) members (cur : T) saved :
  (forall key v f, (key, v) ∈ members -> f ∈ fs -> json.equalFold key f.1 = false) ->
  json.store_members fs members cur saved = (cur, saved).
Proof.
  revert cur saved; induction members as [|[key v] members IH];
    intros cur saved Hunknown; [done|]. simpl.
  rewrite find_field_unknown.
  - apply IH. intros key' v' f Hin. apply (Hunknown key' v'). by right.
  - intros f. apply (Hunknown key v). by left.
Qed.

(** ** Which member fills which field *)

(** [v] is the value of the member of key [tag], and no other member has a
    key that is [tag] up to case. *)
Definition member_for (tag : string) (members : list (string * json.value))
    (v : json.value) : Prop :=
  exists before after,
    members = before ++ (tag, v) :: after /\
    forall key v', (key, v') ∈ before ++ after -> json.equalFold key tag = false.

Lemma store_members_app {T : Type} (fs : json.fields T) m1 m2 (cur : T) saved :
  json.store_members fs (m1 ++ m2) cur saved =
  json.store_members fs m2 (json.store_members fs m1 cur saved).1
    (json.store_members fs m1 cur saved).2.
Proof.
  revert cur saved; induction m1 as [|[key v] m1 IH]; intros cur saved; [done|].
  simpl. destruct (json.find_field fs key) as [store|]; [|apply IH].
  destruct (store v cur). apply IH.
Qed.

(** A part of what is decoded into is left alone by the members that go to
    other fields. *)
Definition untouched {F : Type} (get : json.destination -> F) (tag : string)
  : Prop :=
  forall key store v cur,
    json.find_field json.Pokemon_fields key = Some store ->
    json.equalFold key tag = false ->
    get (store v cur).1 = get cur.

Ltac untouched_field :=
  intros key store v cur Hfind Hfold;
  unfold json.find_field in Hfind; simpl in Hfind;
  repeat match type of Hfind with
    | context [if ?b then _ else _] =>
        let E := fresh "E" in
        destruct b eqn:E; simpl in Hfind;
        [ try (apply equalFold_eqb in E); try congruence;
          injection Hfind as <-; unfold json.stats, json.field, json.into;
          match goal with |- context [?st v ?x] => by destruct (st v x) end
        | ]
    end;
  done.

Lemma untouched_Name : untouched (fun t => Name t.1) "name".
Proof. untouched_field. Qed.

Lemma untouched_BaseExp : untouched (fun t => BaseExp t.1) "base_experience".
Proof. untouched_field. Qed.

Lemma untouched_Height : untouched (fun t => Height t.1) "height".
Proof. untouched_field. Qed.

Lemma untouched_Id : untouched (fun t => Id t.1) "id".
Proof. untouched_field. Qed.

Lemma untouched_Sprites : untouched (fun t => Sprites_ t.1) "sprites".
Proof. untouched_field. Qed.

(** The slice goes with its backing array. *)
Lemma untouched_StatInfo : untouched (fun t => (StatInfo_ t.1, t.2)) "stats".
Proof. untouched_field. Qed.

Lemma store_members_untouched {F : Type} (get : json.destination -> F) tag
    members cur saved :
  untouched get tag ->
  (forall key v, (key, v) ∈ members -> json.equalFold key tag = false) ->
  get (json.store_members json.Pokemon_fields members cur saved).1 = get cur.
Proof.
  intros Hframe. revert cur saved.
  induction members as [|[key v] members IH]; intros cur saved Hkeys; [done|].
  simpl. assert (Hkey : json.equalFold key tag = false)
    by (apply (Hkeys key v); by left).
  assert (Hrest : forall key' v', (key', v') ∈ members -> json.equalFold key' tag = false)
    by (intros key' v' Hin; apply (Hkeys key' v'); by right).
  destruct (json.find_field json.Pokemon_fields key) as [store|] eqn:Hfind.
  - specialize (Hframe key store v cur Hfind Hkey).
    destruct (store v cur) as [cur' err]. rewrite IH by done. exact Hframe.
  - by apply IH.
Qed.

(** The field of a tag holds what the member of that tag decodes to. *)
Lemma store_member_for {F : Type} (get : json.destination -> F)
    (set : F -> json.destination -> json.destination)
    (store : json.decoder F) tag members v cur saved :
  json.find_field json.Pokemon_fields tag = Some (json.into get set store) ->
  (forall x c, get (set x c) = x) ->
  untouched get tag ->
  member_for tag members v ->
  get (json.store_members json.Pokemon_fields members cur saved).1
  = (store v (get cur)).1.
Proof.
  intros Hfind Hgs Hframe (before & after & -> & Hkeys).
  rewrite store_members_app. simpl. rewrite Hfind. unfold json.into at 1.
  pose proof (store_members_untouched get tag before cur saved Hframe) as Hbefore.
  destruct (json.store_members json.Pokemon_fields before cur saved) as [c1 s1].
  simpl in *. rewrite <- Hbefore
    by (intros key v' Hin; apply (Hkeys key v'), elem_of_app; by left).
  destruct (store v (get c1)) as [x err] eqn:Hstore.
  rewrite (store_members_untouched get tag); [by rewrite Hgs|done|].
  intros key v' Hin. apply (Hkeys key v'), elem_of_app. by right.
Qed.

(** The keys [Pokemon] is decoded from. *)
Definition Pokemon_keys : list string := List.map fst json.Pokemon_fields.

(** ** File names *)

Lemma elements_plain x : filepath.no_separator x = true -> filepath.elements x = [x].
Proof.
  induction x as [|c x IH]; [done|]. simpl.
  destruct (filepath.IsPathSeparator c); [done|]. simpl.
  intros Hx. by rewrite IH.
Qed.

Lemma no_separator_append a b :
  filepath.no_separator a = true -> filepath.no_separator b = true ->
  filepath.no_separator (a +:+ b) = true.
Proof.
  intros Ha Hb. induction a as [|c a IH]; [done|]. simpl in *.
  destruct (filepath.IsPathSeparator c); [done|]. simpl in *. by apply IH.
Qed.

Lemma length_append a b :
  String.length (a +:+ b) = (String.length a + String.length b)%nat.
Proof. induction a as [|c a IH]; [done|]. simpl. by rewrite IH. Qed.

(** Joined to [.], a plain file name is that name. *)
Lemma Join_dot_plain x :
  filepath.no_separator x = true -> (2 < String.length x)%nat ->
  filepath.Join ["."; x] = x.
Proof.
  intros Hplain Hlen.
  assert (Hne : forall s, (String.length s <= 2)%nat -> String.eqb x s = false).
  { intros s Hs. apply String.eqb_neq. intros ->. lia. }
  unfold filepath.Join, filepath.Clean. simpl.
  change ("" +:+ x) with x.
  rewrite (elements_plain x Hplain). simpl.
  rewrite !Hne by (simpl; lia). done.
Qed.

Lemma sprite_file_plain name suffix :
  filepath.no_separator name = true -> filepath.no_separator suffix = true ->
  (2 < String.length suffix)%nat ->
  filepath.Join ["."; name +:+ suffix] = name +:+ suffix.
Proof.
  intros Hname Hsuffix Hlen. apply Join_dot_plain.
  - by apply no_separator_append.
  - rewrite length_append. lia.
Qed.

(** *** [Clean] gives a path that is clean *)

Section Clean.

Import filepath.

(** An element that stays: a name, neither empty nor [.] nor [..]. *)
Definition real (e : string) : Prop :=
  e <> "" /\ e <> "." /\ e <> ".." /\ no_separator e = true.

Lemma elements_no_separator s : Forall (fun e => no_separator e = true) (elements s).
Proof.
  induction s as [|c s IH]; simpl; [by repeat constructor|].
  destruct (IsPathSeparator c) eqn:Hc; [by constructor|].
  destruct (elements s) as [|e es]; [by repeat constructor; simpl; rewrite Hc|].
  inversion IH; subst. constructor; [|done]. simpl. by rewrite Hc.
Qed.

Lemma elements_append_separator e t :
  no_separator e = true -> elements (e +:+ "/" +:+ t) = e :: elements t.
Proof.
  induction e as [|c e IH]; [done|]. simpl.
  destruct (IsPathSeparator c); [done|]. simpl. intros He. by rewrite IH.
Qed.

Lemma elements_join es :
  es <> [] -> Forall (fun e => no_separator e = true) es -> elements (join es) = es.
Proof.
  induction es as [|e es IH]; [done|]. intros _ Hes.
  inversion Hes as [|? ? He Hes']; subst.
  destruct es as [|e' es]; [by apply elements_plain|].
  change (join (e :: e' :: es)) with (e +:+ "/" +:+ join (e' :: es)).
  rewrite elements_append_separator by done. by rewrite IH.
Qed.

(** The shape of a cleaned list of elements, first element first: the [..]
    that could not be removed, none of them for a rooted path, then names. *)
Definition cleaned (rooted : bool) (es : list string) : Prop :=
  exists k names, es = replicate k ".." ++ names /\ Forall real names /\
                  (rooted = true -> k = 0%nat).

Lemma replicate_snoc {A : Type} k (x : A) : replicate k x ++ [x] = x :: replicate k x.
Proof. induction k as [|k IH]; [done|]. simpl. by rewrite IH. Qed.

Lemma rev_replicate {A : Type} k (x : A) : rev (replicate k x) = replicate k x.
Proof.
  induction k as [|k IH]; [done|]. simpl. rewrite IH. apply replicate_snoc.
Qed.

Lemma clean_elements_cleaned rooted elems out :
  Forall (fun e => no_separator e = true) elems ->
  cleaned rooted (rev out) ->
  cleaned rooted (rev (clean_elements rooted elems out)).
Proof.
  intros Helems; revert out.
  induction Helems as [|e elems He _ IH]; intros out Hout; [done|]. simpl.
  destruct (String.eqb_spec e "") as [|Hne]; [by apply IH|].
  destruct (String.eqb_spec e ".") as [|Hnd]; [by apply IH|]. simpl.
  destruct (String.eqb_spec e "..") as [->|Hndd].
  - destruct Hout as (k & names & Hrev & Hnames & Hk).
    destruct out as [|last out].
    + destruct rooted; [by apply IH; exists k, names|].
      apply IH. exists 1%nat, []. by repeat split.
    + destruct (String.eqb_spec last "..") as [->|Hlast]; apply IH.
      * (* the output ends in [..]: it is made of them, one more is kept *)
        simpl in Hrev. destruct names as [|n names _] using rev_ind.
        -- rewrite app_nil_r in Hrev. exists (S k), [].
           split; [|split; [done|]].
           ++ simpl. rewrite Hrev, app_nil_r. simpl. by rewrite replicate_snoc.
           ++ intros Hr. destruct k; [|by specialize (Hk Hr)].
              by destruct (rev out).
        -- rewrite app_assoc in Hrev. apply app_inj_tail in Hrev as [_ Heq].
           apply Forall_app in Hnames as [_ Hn]. inversion Hn as [|? ? Hreal _].
           destruct Hreal as (_ & _ & Hndd & _). congruence.
      * (* the output ends in a name: it goes *)
        simpl in Hrev. destruct names as [|n names _] using rev_ind.
        -- rewrite app_nil_r in Hrev. destruct k as [|k]; [by destruct (rev out)|].
           simpl in Hrev. rewrite <- replicate_snoc in Hrev.
           apply app_inj_tail in Hrev as [_ Heq]. congruence.
        -- rewrite app_assoc in Hrev. apply app_inj_tail in Hrev as [Heq _].
           apply Forall_app in Hnames as [Hnames _]. by exists k, names.
  - apply IH. destruct Hout as (k & names & Hrev & Hnames & Hk).
    exists k, (names ++ [e]). split; [|split; [|done]].
    + simpl. by rewrite Hrev, app_assoc.
    + apply Forall_app. split; [done|]. by repeat constructor.
Qed.

Lemma clean_elements_names rooted names out :
  Forall real names ->
  clean_elements rooted names out = rev names ++ out.
Proof.
  intros Hnames; revert out.
  induction Hnames as [|e names (Hne & Hnd & Hndd & _) _ IH]; intros out; [done|].
  simpl. apply String.eqb_neq in Hne, Hnd, Hndd. rewrite Hne, Hnd, Hndd. simpl.
  by rewrite IH, <- app_assoc.
Qed.

Lemma clean_elements_dotdots k j names :
  Forall real names ->
  clean_elements false (replicate k ".." ++ names) (replicate j "..")
  = rev names ++ replicate (k + j) "..".
Proof.
  intros Hnames. revert j; induction k as [|k IH]; intros j; simpl.
  - by apply clean_elements_names.
  - destruct j as [|j]; simpl.
    + change [".."] with (replicate 1 "..").
      rewrite (IH 1%nat). by replace (k + 1)%nat with (S (k + 0)) by lia.
    + change (".." :: ".." :: replicate j "..") with (replicate (S (S j)) "..").
      rewrite (IH (S (S j))). by replace (k + S (S j))%nat with (S (k + S j)) by lia.
Qed.

(** Cleaning what is clean changes nothing. *)
Lemma clean_elements_fixed rooted es :
  cleaned rooted es -> rev (clean_elements rooted es []) = es.
Proof.
  intros (k & names & -> & Hnames & Hk). destruct rooted.
  - rewrite (Hk eq_refl). simpl.
    rewrite clean_elements_names by done. by rewrite app_nil_r, rev_involutive.
  - change (@nil string) with (replicate 0 "..") at 1.
    rewrite (clean_elements_dotdots k 0 names Hnames).
    rewrite rev_app_distr, rev_involutive, rev_replicate.
    by replace (k + 0)%nat with k by lia.
Qed.

Lemma cleaned_no_separator rooted es :
  cleaned rooted es -> Forall (fun e => no_separator e = true) es.
Proof.
  intros (k & names & -> & Hnames & _). apply Forall_app. split.
  - clear. induction k; by constructor.
  - eapply Forall_impl; [exact Hnames|]. by intros e (_ & _ & _ & ?).
Qed.

Lemma cleaned_head rooted e es :
  cleaned rooted (e :: es) ->
  exists c e', e = String.String c e' /\ IsPathSeparator c = false.
Proof.
  intros (k & names & Heq & Hnames & _). destruct k as [|k]; simpl in Heq.
  - destruct names as [|n names]; [done|]. injection Heq as <- <-.
    inversion Hnames as [|? ? (Hne & _ & _ & Hsep) _]; subst.
    destruct e as [|c e]; [done|]. simpl in Hsep.
    exists c, e. split; [done|]. by destruct (IsPathSeparator c).
  - injection Heq as -> _. by eexists _, _.
Qed.

(** The text of a cleaned list of elements. *)
Definition render (rooted : bool) (es : list string) : string :=
  if rooted then "/" +:+ join es
  else match es with [] => "." | _ :: _ => join es end.

Lemma Clean_rooted t :
  Clean ("/" +:+ t) = "/" +:+ join (rev (clean_elements true (elements t) [])).
Proof. reflexivity. Qed.

Lemma Clean_unrooted c t :
  IsPathSeparator c = false ->
  Clean (String.String c t) =
  match rev (clean_elements false (elements (String.String c t)) []) with
  | [] => "."
  | e :: es => join (e :: es)
  end.
Proof.
  intros Hc. unfold Clean. rewrite Hc.
  by destruct (rev (clean_elements false (elements (String.String c t)) [])).
Qed.

Lemma Clean_render rooted es : cleaned rooted es -> Clean (render rooted es) = render rooted es.
Proof.
  intros Hes. pose proof (cleaned_no_separator rooted es Hes) as Hsep.
  destruct rooted; unfold render.
  - (* a rooted path *)
    rewrite Clean_rooted. destruct es as [|e es']; [done|].
    rewrite elements_join by done.
    by rewrite (clean_elements_fixed true _ Hes).
  - destruct es as [|e es']; [done|].
    destruct (cleaned_head false e es' Hes) as (c' & e' & -> & Hc').
    assert (Hjoin : exists t, join (String.String c' e' :: es') = String.String c' t)
      by (destruct es'; simpl; eauto).
    destruct Hjoin as [t Hjoin]. rewrite Hjoin at 1.
    rewrite (Clean_unrooted c' t Hc'), <- Hjoin.
    rewrite elements_join by done.
    by rewrite (clean_elements_fixed false _ Hes).
Qed.

(** [Clean] is idempotent. *)
Lemma Clean_Clean path : Clean (Clean path) = Clean path.
Proof.
  destruct path as [|c path]; [done|].
  change (Clean (String.String c path))
    with (render (IsPathSeparator c)
            (rev (clean_elements (IsPathSeparator c)
                    (elements (String.String c path)) []))).
  apply Clean_render, clean_elements_cleaned; [apply elements_no_separator|].
  exists 0%nat, []. by repeat split.
Qed.

End Clean.

(** *** The path of a sprite file *)

Section SpritePaths.

Import filepath.

Lemma elements_last path : exists init file, elements path = init ++ [file].
Proof.
  induction path as [|c path (init & file & IH)]; [by exists [], ""|]. simpl.
  destruct (IsPathSeparator c).
  - exists ("" :: init), file. by rewrite IH.
  - rewrite IH. destruct init as [|e init]; simpl.
    + by exists [], (String.String c file).
    + by exists (String.String c e :: init), file.
Qed.

(** Appending a text without separator to a path appends it to the last
    element of the path. *)
Lemma elements_append path suffix init file :
  no_separator suffix = true ->
  elements path = init ++ [file] ->
  elements (path +:+ suffix) = init ++ [file +:+ suffix].
Proof.
  intros Hsuffix. revert init file.
  induction path as [|c path IH]; intros init file; simpl.
  - destruct init as [|e [|e' init]]; try done.
    intros [= <-]. by apply elements_plain.
  - destruct (IsPathSeparator c).
    + destruct init as [|e init]; simpl.
      * intros [= _ Hnil]. by destruct path; simpl in Hnil;
          [|destruct (IsPathSeparator a); [|destruct (elements path)]].
      * intros [= <- Hrest]. by rewrite (IH init file).
    + destruct (elements_last path) as (init' & file' & Hpath).
      rewrite (IH init' file' Hpath), Hpath.
      destruct init' as [|e init']; simpl.
      * destruct init as [|e [|e' init]]; try done. by intros [= <-].
      * destruct init as [|e0 init]; simpl.
        -- intros [= _ Hnil]. by destruct init'.
        -- intros [= <- Hrest]. f_equal.
           apply app_inj_tail in Hrest as [-> ->]. done.
Qed.

Lemma clean_elements_last rooted init file out :
  file <> "" -> file <> "." -> file <> ".." ->
  clean_elements rooted (init ++ [file]) out = file :: clean_elements rooted init out.
Proof.
  intros Hne Hnd Hndd. apply String.eqb_neq in Hne, Hnd, Hndd.
  revert out; induction init as [|e init IH]; intros out; simpl.
  - by rewrite Hne, Hnd, Hndd.
  - destruct (String.eqb e "" || String.eqb e "."); [apply IH|].
    destruct (String.eqb e ".."); [|apply IH].
    destruct out as [|last out]; [destruct rooted; apply IH|].
    destruct (String.eqb last ".."); apply IH.
Qed.

Lemma append_inj_l a b c : a +:+ b = a +:+ c -> b = c.
Proof. induction a as [|x a IH]; [done|]. simpl. intros [= H]. by apply IH. Qed.

Lemma append_not_empty a b : b <> "" -> a +:+ b <> "".
Proof. by destruct a, b. Qed.

Lemma join_snoc_inj dir f f' : join (dir ++ [f]) = join (dir ++ [f']) -> f = f'.
Proof.
  induction dir as [|e dir IH]; [done|]. simpl.
  destruct (dir ++ [f]) as [|x xs] eqn:Hx; [by destruct dir|].
  destruct (dir ++ [f']) as [|y ys] eqn:Hy; [by destruct dir|].
  intros H%append_inj_l. injection H as H. by apply IH.
Qed.

(** The path of a sprite file: the directory the name of the Pokemon leads
    to, then the last element of that name with the suffix. *)
Lemma Join_dot_suffix name suffix init file :
  no_separator suffix = true -> (3 <= String.length suffix)%nat ->
  elements name = init ++ [file] ->
  Join ["."; name +:+ suffix] =
  join (rev (clean_elements false ("." :: init) []) ++ [file +:+ suffix]) /\
  cleaned false (rev (clean_elements false ("." :: init) []) ++ [file +:+ suffix]).
Proof.
  intros Hsuffix Hlen Hname.
  assert (Hfile : no_separator file = true).
  { pose proof (elements_no_separator name) as Hsep. rewrite Hname in Hsep.
    apply Forall_app in Hsep as [_ Hsep]. by inversion Hsep. }
  assert (Hlong : forall x, (String.length x < 3)%nat -> file +:+ suffix <> x).
  { intros x Hx <-. rewrite length_append in Hx. lia. }
  assert (Hreal : real (file +:+ suffix)).
  { split_and!; try (apply Hlong; simpl; lia). by apply no_separator_append. }
  assert (Hout : rev (clean_elements false ("." :: init ++ [file +:+ suffix]) [])
                 = rev (clean_elements false ("." :: init) []) ++ [file +:+ suffix]).
  { change ("." :: init ++ [file +:+ suffix])
      with (("." :: init) ++ [file +:+ suffix]).
    rewrite clean_elements_last by (apply Hlong; simpl; lia). done. }
  assert (Hclean : cleaned false
                     (rev (clean_elements false ("." :: init) []) ++ [file +:+ suffix])).
  { destruct (clean_elements_cleaned false ("." :: init) []) as (k & names & Hk & Hnames & _).
    - constructor; [done|].
      pose proof (elements_no_separator name) as Hsep. rewrite Hname in Hsep.
      by apply Forall_app in Hsep as [Hsep _].
    - exists 0%nat, []. by repeat split.
    - exists k, (names ++ [file +:+ suffix]).
      split_and!; [|apply Forall_app; split; [done|by constructor]|done].
      by rewrite Hk, app_assoc. }
  split; [|done].
  change (Join ["."; name +:+ suffix]) with (Clean ("./" +:+ name +:+ suffix)).
  change ("./" +:+ name +:+ suffix)
    with (String.String (Ascii.ascii_of_nat 46) ("/" +:+ name +:+ suffix)).
  rewrite Clean_unrooted by done.
  change (String.String (Ascii.ascii_of_nat 46) ("/" +:+ name +:+ suffix))
    with ("." +:+ "/" +:+ (name +:+ suffix)).
  rewrite elements_append_separator by done.
  rewrite (elements_append name suffix init file Hsuffix Hname), Hout.
  by destruct (rev (clean_elements false ("." :: init) [])).
Qed.

End SpritePaths.

Lemma sprite_files_distinct p : frontFilename p <> backFilename p.
Proof.
  destruct (elements_last (Name p)) as (init & file & Hname).
  destruct (Join_dot_suffix (Name p) "_front.png" init file eq_refl) as [Hf _];
    [simpl; lia|done|].
  destruct (Join_dot_suffix (Name p) "_back.png" init file eq_refl) as [Hb _];
    [simpl; lia|done|].
  unfold frontFilename, backFilename. rewrite Hf, Hb.
  intros H%join_snoc_inj. by apply append_inj_l in H.
Qed.

(** The file events of a list of events all name [filename]. *)
Definition files_named (filename : string) (evs : list (nat * event)) : Prop :=
  (forall g name, (g, EvCreate name) ∈ evs -> name = filename) /\
  (forall g name data, (g, EvWrite name data) ∈ evs -> name = filename).

Lemma sprite_events_files g l1 l2 l3 u f evs :
  sprite_events g l1 l2 l3 u f evs -> files_named f evs.
Proof.
  intros [Hu|e Hu|e Hu|data e Hu|data Hu];
    (split; [intros g' name H|intros g' name data' H]);
    not_in_list H; congruence.
Qed.

(** ** Example worlds *)

(** A server that answers the API URL with [api] and any other URL with
    [sprite], and a file system on which creating the files in [locked]
    fails and a write stops after [quota] bytes, when there is a quota. *)
Definition example_env (api sprite : Response + error) (locked : list string)
    (quota : option nat) : Env :=
  {| env_get := fun _ u => if String.eqb u url then api else sprite;
     env_create := fun _ name =>
       if bool_decide (name ∈ locked) then Some (LibError "permission denied")
       else None;
     env_write := fun _ _ data =>
       match quota with
       | Some n => if (n <? length data)%nat then Some (n, LibError "no space left on device") else None
       | None => None
       end |}.

Definition ok (body : bytes) : Response + error :=
  inl {| StatusCode := 200; Body := {| stream_data := body; stream_err := None |} |}.

Definition not_found : Response + error :=
  inl {| StatusCode := 404; Body := {| stream_data := []; stream_err := None |} |}.

Definition unreachable : Response + error := inr (LibError "no such host").

Definition bulbasaur : bytes :=
  text "{'name':'bulbasaur','base_experience':64,'height':7,'id':1,'sprites':{'front_default':'https://img/front/1.png','back_default':'https://img/back/1.png'},'stats':[{'base_stat':45,'stat':{'name':'hp','url':'https://api/stat/1/'}}]}".

Definition png : bytes := [x89; x50; x4e; x47].

(** The parser on well-formed and on ill-formed texts. *)
Example parse_accepts :
  Forall (fun s => is_Some (json.parse (text s)))
    [ "{}";
      "[]";
      " [ ] ";
      "'a'";
      "0";
      "-0";
      "1.5e+10";
      "1E5";
      "-12.25";
      "true";
      "false";
      "null";
      "{'a':{'b':[1,2,{'c':null}]}}";
      "'\u00e9\n\/'";
      "[1, 2]";
      "{'a':1,'a':2}";
      "''";
      " null " ].
Proof. repeat constructor; by eexists. Qed.

Example parse_rejects :
  Forall (fun s => json.parse (text s) = None)
    [ "";
      "{";
      "[";
      "[1,]";
      "{'a':1,}";
      "{a:1}";
      "01";
      "1.";
      ".5";
      "-";
      "+1";
      "1e";
      "1e+";
      "'abc";
      "tru";
      "nul";
      "nulls";
      "[1 2]";
      "{'a' 1}";
      "{'a':}";
      "{'a'}";
      "'\x'";
      "'\u12'";
      "'\u12g4'";
      "[] []";
      "{} x";
      "]";
      "[1,,2]";
      "{,}";
      "--1";
      "1.e5";
      "0x10" ].
Proof. repeat constructor. Qed.

(** The decoder on the example body, on a body that is not JSON, and on
    a number that does not fit an int32. *)
Example parseJSON_bulbasaur :
  parseJSON bulbasaur =
  ({| Name := "bulbasaur"; BaseExp := 64; Height := 7; Id := 1;
      Sprites_ := {| FrontDefault := "https://img/front/1.png";
                     BackDefault := "https://img/back/1.png" |};
      StatInfo_ := [ {| StatInfo_Stat := {| Stat_Name := "hp";
                                            Stat_URL := "https://api/stat/1/" |};
                        StatInfo_BaseStat := 45 |} ] |}, None).
Proof. reflexivity. Qed.

Example parseJSON_html :
  parseJSON (text "<html>") =
  (Pokemon_zero, Some (Errorf "error parsing JSON: %v" (ArgError SyntaxError))).
Proof. reflexivity. Qed.

Example parseJSON_overflow :
  parseJSON (text "{'id': 2147483648}") =
  (Pokemon_zero,
   Some (Errorf "error parsing JSON: %v"
           (ArgError (UnmarshalTypeError "number 2147483648" "int32")))).
Proof. reflexivity. Qed.

(** [Clean] on the table of cases its documentation and tests give. *)
Example Clean_table :
  Forall (fun row => filepath.Clean row.1 = row.2)
    [ ("abc", "abc");
      ("abc/def", "abc/def");
      ("a/b/c", "a/b/c");
      (".", ".");
      ("..", "..");
      ("../..", "../..");
      ("../../abc", "../../abc");
      ("/abc", "/abc");
      ("/", "/");
      ("", ".");
      ("abc/", "abc");
      ("abc/def/", "abc/def");
      ("a/b/c/", "a/b/c");
      ("./", ".");
      ("../", "..");
      ("../../", "../..");
      ("/abc/", "/abc");
      ("abc//def//ghi", "abc/def/ghi");
      ("abc//", "abc");
      ("//abc", "/abc");
      ("///abc", "/abc");
      ("//abc//", "/abc");
      ("abc/./def", "abc/def");
      ("/./abc/def", "/abc/def");
      ("abc/.", "abc");
      ("abc/def/ghi/../jkl", "abc/def/jkl");
      ("abc/def/../ghi/../jkl", "abc/jkl");
      ("abc/def/..", "abc");
      ("abc/def/../..", ".");
      ("/abc/def/../..", "/");
      ("abc/def/../../..", "..");
      ("/abc/def/../../..", "/");
      ("abc/def/../../../ghi/jkl/../../../mno", "../../mno");
      ("/../abc", "/abc");
      ("a/../b:/../../c", "../c");
      ("abc/./../def", "def");
      ("abc//./../def", "def");
      ("abc/../../././../def", "../../def") ].
Proof. repeat constructor. Qed.

(** [Join] on a plain name, and on names that climb. *)
Example Join_examples :
  filepath.Join ["."; "bulbasaur_front.png"] = "bulbasaur_front.png" /\
  filepath.Join ["."; "a/../b_front.png"] = "b_front.png" /\
  filepath.Join ["."; "../x//y/./_front.png"] = "../x/y/_front.png".
Proof. by split_and!. Qed.

(** A whole run: both sprites are fetched and saved. *)
Example run_bulbasaur :
  final_world (example_env (ok bulbasaur) (ok png) [] None) ∅ =
  {| trace :=
       [ (1%nat, EvHttpGet url);
         (0%nat, EvRecv (Some 1%nat) (on_resultChan bulbasaur)) ]
       ++ field_lines (parseJSON bulbasaur).1
       ++ [ (0%nat, EvHttpGet "https://img/front/1.png");
            (0%nat, EvCreate "bulbasaur_front.png");
            (0%nat, EvWrite "bulbasaur_front.png" png);
            (0%nat, EvPrintln [VString "Front sprite saved as:";
                               VString "bulbasaur_front.png"]);
            (0%nat, EvHttpGet "https://img/back/1.png");
            (0%nat, EvCreate "bulbasaur_back.png");
            (0%nat, EvWrite "bulbasaur_back.png" png);
            (0%nat, EvPrintln [VString "Back sprite saved as:";
                               VString "bulbasaur_back.png"]) ];
     fs := <["bulbasaur_back.png" := png]> (<["bulbasaur_front.png" := png]> ∅) |}.
Proof. vm_compute. reflexivity. Qed.

(** A run on a full disk: each write stops after two bytes, each step
    reports it, and the two files are left with what was written. *)
Example run_disk_full :
  final_world (example_env (ok bulbasaur) (ok png) [] (Some 2%nat)) ∅ =
  {| trace :=
       [ (1%nat, EvHttpGet url);
         (0%nat, EvRecv (Some 1%nat) (on_resultChan bulbasaur)) ]
       ++ field_lines (parseJSON bulbasaur).1
       ++ [ (0%nat, EvHttpGet "https://img/front/1.png");
            (0%nat, EvCreate "bulbasaur_front.png");
            (0%nat, EvWrite "bulbasaur_front.png" png);
            (0%nat, EvPrintln
               [VString "Error saving front sprite:";
                VError (Some (Errorf "error saving sprite: %v"
                                (ArgError (LibError "no space left on device"))))]);
            (0%nat, EvHttpGet "https://img/back/1.png");
            (0%nat, EvCreate "bulbasaur_back.png");
            (0%nat, EvWrite "bulbasaur_back.png" png);
            (0%nat, EvPrintln
               [VString "Error saving back sprite:";
                VError (Some (Errorf "error saving sprite: %v"
                                (ArgError (LibError "no space left on device"))))]) ];
     fs := <["bulbasaur_back.png" := take 2 png]>
             (<["bulbasaur_front.png" := take 2 png]> ∅) |}.
Proof. vm_compute. reflexivity. Qed.

(** Discharging [get_succeeds] on an explicit answer. *)
Ltac get_ok := eexists; split_and!; reflexivity.

(** * The specification of the program *)

(** C1.  [fetchData] signals exactly one outcome per call.  Whatever the GET
    is answered, the goroutine sends exactly one message.  The message is
    the response body on [resultChan] exactly when the GET went through
    with status 200 and the body was read to its end; a failed request, a
    status other than 200 and a failed read each send, on [errorChan], the
    error wrapped with the text that tells which of the three it was. *)
Theorem fetchData_signals_once (env : Env) (g : nat) (u : string) (w : World) :
  let r := env_get env (trace w) u in
  exists m, sends env g (fetchData u) w = Some [m] /\
    (forall body, m = on_resultChan body <-> get_succeeds r body) /\
    (forall err, r = inr err ->
       m = on_errorChan (Some (Errorf "HTTP request error: %v" (ArgError err)))) /\
    (forall resp, r = inl resp -> StatusCode resp <> StatusOK ->
       m = on_errorChan
             (Some (Errorf "unexpected status code: %d" (ArgInt (StatusCode resp))))) /\
    (forall resp err, r = inl resp -> StatusCode resp = StatusOK ->
       stream_err (Body resp) = Some err ->
       m = on_errorChan
             (Some (Errorf "error reading response body: %v" (ArgError err)))).
Proof.
  intros r. exists (fetch_signal r). split; [|split; [|split; [|split]]].
  - destruct (fetchData_shape u) as (k & -> & Hk). simpl. fold r. rewrite Hk.
    simpl. by destruct r.
  - apply fetch_signal_result.
  - by intros err ->.
  - intros resp -> Hst. simpl. apply Z.eqb_neq in Hst. by rewrite Hst.
  - intros resp err -> Hst Herr. simpl. apply Z.eqb_eq in Hst.
    by rewrite Hst, Herr.
Qed.

(** C2.  A body that [parseJSON] rejects ends the run.  When the GET
    succeeded and [parseJSON] returns an error on the body, [main] returns,
    and it returns in exactly one world: the only console line is the
    error, none of the six fields is printed, the only GET is the one of
    [fetchData], and the file system is as it was. *)
Theorem parse_error_ends_main (env : Env) (files : gmap string bytes) (w : World)
    (body : bytes) (err : error) :
  get_succeeds (fetched env) body ->
  snd (parseJSON body) = Some err ->
  terminates env files w <->
  w = {| trace := [(1%nat, EvHttpGet url);
                   (0%nat, EvRecv (Some 1%nat) (on_resultChan body));
                   (0%nat, EvPrintln [VString "Error:"; VError (Some err)])];
         fs := files |}.
Proof.
  intros Hget Hparse. rewrite terminates_iff.
  by rewrite (final_parse_error env files body err Hget Hparse).
Qed.

Lemma parse_error_ends_main_witness :
  terminates (example_env (ok (text "<html>")) unreachable [] None) ∅
    {| trace := [(1%nat, EvHttpGet url);
                 (0%nat, EvRecv (Some 1%nat) (on_resultChan (text "<html>")));
                 (0%nat, EvPrintln
                    [VString "Error:";
                     VError (Some (Errorf "error parsing JSON: %v"
                                     (ArgError SyntaxError)))])];
       fs := ∅ |}.
Proof.
  apply (parse_error_ends_main
           (example_env (ok (text "<html>")) unreachable [] None) ∅ _
           (text "<html>")
           (Errorf "error parsing JSON: %v" (ArgError SyntaxError)));
    [get_ok|reflexivity|reflexivity].
Defined.

(** C3, as amended.  For a decoded Pokemon the front step runs and then
    the back step.  In each, the GET is attempted exactly when the URL
    field is a non-empty string, and the file write is attempted exactly
    when the field is non-empty and that download succeeded; with an empty
    field the step does nothing at all. *)
Theorem sprite_steps_guarded (env : Env) (files : gmap string bytes) (w : World)
    (body : bytes) (p : Pokemon) :
  terminates env files w ->
  get_succeeds (fetched env) body ->
  parseJSON body = (p, None) ->
  exists w1,
    run env 0 (front_sprite p) (printed_world files body p) = Some (tt, w1) /\
    run env 0 (back_sprite p) w1 = Some (tt, w) /\
    guarded env (FrontDefault (Sprites_ p)) (frontFilename p)
      (printed_world files body p) w1 /\
    guarded env (BackDefault (Sprites_ p)) (backFilename p) w1 w.
Proof.
  intros ->%terminates_iff Hget Hparse.
  destruct (decoded_run env files body p Hget Hparse)
    as (w1 & Hfront & Hback & Hf & Hb).
  exists w1. split; [done|]. split; [done|].
  destruct Hf as (_ & Hevs & Hskip & Hcreate & _).
  destruct Hb as (_ & Hevs' & Hskip' & Hcreate' & _).
  split; (split; [by eapply sprite_events_get|done]).
Qed.

Lemma sprite_steps_guarded_witness :
  exists w1,
    run (example_env (ok bulbasaur) (ok png) [] None) 0
      (front_sprite (parseJSON bulbasaur).1)
      (printed_world ∅ bulbasaur (parseJSON bulbasaur).1) = Some (tt, w1) /\
    run (example_env (ok bulbasaur) (ok png) [] None) 0
      (back_sprite (parseJSON bulbasaur).1) w1
    = Some (tt, final_world (example_env (ok bulbasaur) (ok png) [] None) ∅) /\
    guarded (example_env (ok bulbasaur) (ok png) [] None)
      "https://img/front/1.png" "bulbasaur_front.png"
      (printed_world ∅ bulbasaur (parseJSON bulbasaur).1) w1 /\
    guarded (example_env (ok bulbasaur) (ok png) [] None)
      "https://img/back/1.png" "bulbasaur_back.png" w1
      (final_world (example_env (ok bulbasaur) (ok png) [] None) ∅).
Proof.
  apply (sprite_steps_guarded (example_env (ok bulbasaur) (ok png) [] None) ∅
           _ bulbasaur (parseJSON bulbasaur).1);
    [apply terminates_final|get_ok|reflexivity].
Defined.

(** C3 as it was stated fails where a download fails: the URL is not
    empty and the GET is made, but no file write is attempted. *)
Lemma sprite_write_needs_download :
  exists w,
    terminates (example_env (ok bulbasaur) not_found [] None) ∅ w /\
    FrontDefault (Sprites_ (parseJSON bulbasaur).1) = "https://img/front/1.png" /\
    (0%nat, EvHttpGet "https://img/front/1.png") ∈ trace w /\
    (forall g name, (g, EvCreate name) ∉ trace w) /\
    (forall g name data, (g, EvWrite name data) ∉ trace w).
Proof.
  eexists. split; [apply terminates_final|].
  split; [reflexivity|].
  set (tr := trace (final_world _ _)). vm_compute in tr. subst tr.
  split; [in_list|].
  split; [intros g name H|intros g name data H]; not_in_list H.
Qed.

(** C4, as amended.  Every file the program writes is named after the
    decoded resource.  For a Pokemon decoded with name [n], the file events
    of the front step all name [filepath.Join(".", n_front.png)], those of
    the back step [filepath.Join(".", n_back.png)], there are no others, and
    every file of another name is left as it was; a step whose download and
    save succeed leaves the downloaded bytes in its file.  The two names
    are not [./n_front.png] and [./n_back.png] but their cleaned forms:
    with the elements of [n] before its last one cleaned into a directory,
    the files are the last element of [n] followed by [_front.png] and
    [_back.png] in that directory, and the path has no empty element, no
    [.] and no [..] but at its start.  When [n] has no separator they are
    [n_front.png] and [n_back.png], without [./]. *)
Theorem files_named_after_resource (env : Env) (files : gmap string bytes)
    (w : World) (body : bytes) (p : Pokemon) :
  terminates env files w ->
  get_succeeds (fetched env) body ->
  parseJSON body = (p, None) ->
  (exists w1,
     run env 0 (front_sprite p) (printed_world files body p) = Some (tt, w1) /\
     run env 0 (back_sprite p) w1 = Some (tt, w) /\
     files_named (frontFilename p) (events_between (printed_world files body p) w1) /\
     files_named (backFilename p) (events_between w1 w) /\
     (forall data wd ws,
        FrontDefault (Sprites_ p) <> "" ->
        run env 0 (downloadSprite (FrontDefault (Sprites_ p)))
          (printed_world files body p) = Some ((data, None), wd) ->
        run env 0 (saveSprite data (frontFilename p)) wd = Some (None, ws) ->
        fs w1 !! frontFilename p = Some data) /\
     (forall data wd ws,
        BackDefault (Sprites_ p) <> "" ->
        run env 0 (downloadSprite (BackDefault (Sprites_ p))) w1
        = Some ((data, None), wd) ->
        run env 0 (saveSprite data (backFilename p)) wd = Some (None, ws) ->
        fs w !! backFilename p = Some data) /\
     trace w = trace (printed_world files body p)
               ++ events_between (printed_world files body p) w1
               ++ events_between w1 w) /\
  files_named "" (trace (printed_world files body p)) /\
  (forall name, name <> frontFilename p -> name <> backFilename p ->
                fs w !! name = files !! name) /\
  frontFilename p = filepath.Clean ("./" +:+ Name p +:+ "_front.png") /\
  backFilename p = filepath.Clean ("./" +:+ Name p +:+ "_back.png") /\
  (exists init file,
     filepath.elements (Name p) = init ++ [file] /\
     frontFilename p =
     filepath.join (rev (filepath.clean_elements false ("." :: init) [])
                    ++ [file +:+ "_front.png"]) /\
     backFilename p =
     filepath.join (rev (filepath.clean_elements false ("." :: init) [])
                    ++ [file +:+ "_back.png"]) /\
     cleaned false (rev (filepath.clean_elements false ("." :: init) [])
                    ++ [file +:+ "_front.png"]) /\
     cleaned false (rev (filepath.clean_elements false ("." :: init) [])
                    ++ [file +:+ "_back.png"])) /\
  (filepath.no_separator (Name p) = true ->
   frontFilename p = Name p +:+ "_front.png" /\
   backFilename p = Name p +:+ "_back.png").
Proof.
  intros ->%terminates_iff Hget Hparse.
  destruct (decoded_run env files body p Hget Hparse)
    as (w1 & Hfront & Hback & Hf & Hb).
  destruct Hf as (Htr & Hevs & _ & _ & Hfs & _ & _ & Hsaved).
  destruct Hb as (Htr' & Hevs' & _ & _ & Hfs' & _ & _ & Hsaved').
  split_and!.
  - exists w1. split_and!; try done.
    + by eapply sprite_events_files.
    + by eapply sprite_events_files.
    + by rewrite Htr', Htr, <- app_assoc.
  - split; [intros g name H|intros g name data H]; simpl in H; not_in_list H.
  - intros name Hnf Hnb. by rewrite Hfs', Hfs.
  - reflexivity.
  - reflexivity.
  - destruct (elements_last (Name p)) as (init & file & Hname).
    destruct (Join_dot_suffix (Name p) "_front.png" init file eq_refl)
      as [Hjf Hcf]; [simpl; lia|done|].
    destruct (Join_dot_suffix (Name p) "_back.png" init file eq_refl)
      as [Hjb Hcb]; [simpl; lia|done|].
    by exists init, file.
  - intros Hname. split; by apply sprite_file_plain; [| |simpl; lia].
Qed.

Lemma files_named_after_resource_witness :
  terminates (example_env (ok bulbasaur) (ok png) [] None) ∅
    (final_world (example_env (ok bulbasaur) (ok png) [] None) ∅) /\
  frontFilename (parseJSON bulbasaur).1 = "bulbasaur_front.png" /\
  backFilename (parseJSON bulbasaur).1 = "bulbasaur_back.png" /\
  forall name, name <> "bulbasaur_front.png" -> name <> "bulbasaur_back.png" ->
    fs (final_world (example_env (ok bulbasaur) (ok png) [] None) ∅) !! name = None.
Proof.
  split; [apply terminates_final|].
  destruct (files_named_after_resource
              (example_env (ok bulbasaur) (ok png) [] None) ∅
              _ bulbasaur (parseJSON bulbasaur).1 (terminates_final _ _))
    as (_ & _ & Hother & _ & _ & _ & Hplain); [get_ok|reflexivity|].
  destruct (Hplain eq_refl) as [Hf Hb].
  split; [exact Hf|]. split; [exact Hb|].
  intros name Hnf Hnb. by rewrite Hother.
Defined.

(** A body whose name leads through a directory and back. *)
Definition through_directory : bytes :=
  text "{'name':'a/../b','sprites':{'front_default':'https://img/front/1.png'}}".

(** C4 as it was stated fails where the name is not a plain file name: for
    the name [a/../b] the claim has the front sprite saved at
    [./a/../b_front.png], a path through the directory [a]; the program
    creates and writes [b_front.png], on which [a] has no bearing, and
    nothing at the path of the claim.  (Nor is a plain name kept with its
    [./]: the file of [bulbasaur] is [bulbasaur_front.png].) *)
Lemma sprite_path_is_cleaned :
  Name (parseJSON through_directory).1 = "a/../b" /\
  terminates (example_env (ok through_directory) (ok png) [] None) ∅
    (final_world (example_env (ok through_directory) (ok png) [] None) ∅) /\
  (0%nat, EvCreate "b_front.png")
    ∈ trace (final_world (example_env (ok through_directory) (ok png) [] None) ∅) /\
  fs (final_world (example_env (ok through_directory) (ok png) [] None) ∅)
    !! "b_front.png" = Some png /\
  (forall g, (g, EvCreate "./a/../b_front.png")
             ∉ trace (final_world (example_env (ok through_directory) (ok png) [] None) ∅)) /\
  fs (final_world (example_env (ok through_directory) (ok png) [] None) ∅)
    !! "./a/../b_front.png" = None /\
  fs (final_world (example_env (ok bulbasaur) (ok png) [] None) ∅)
    !! "./bulbasaur_front.png" = None.
Proof.
  split; [reflexivity|]. split; [apply terminates_final|].
  destruct (decoded_run (example_env (ok through_directory) (ok png) [] None) ∅
              through_directory (parseJSON through_directory).1)
    as (w1 & _ & _ & Hf & Hb); [get_ok|reflexivity|].
  destruct Hf as (_ & _ & _ & _ & Hfs & _ & _ & Hsaved).
  destruct Hb as (_ & _ & _ & _ & Hfs' & _).
  destruct (decoded_run (example_env (ok bulbasaur) (ok png) [] None) ∅
              bulbasaur (parseJSON bulbasaur).1)
    as (w2 & _ & _ & Hf2 & Hb2); [get_ok|reflexivity|].
  destruct Hf2 as (_ & _ & _ & _ & Hfs2 & _).
  destruct Hb2 as (_ & _ & _ & _ & Hfs2' & _).
  set (tr := trace (final_world _ _)). vm_compute in tr. subst tr.
  split_and!.
  - in_list.
  - rewrite Hfs' by done. by apply (Hsaved png _ _ ltac:(done) eq_refl eq_refl).
  - intros g H. not_in_list H.
  - by rewrite Hfs', Hfs.
  - by rewrite Hfs2', Hfs2.
Qed.

(** C5.  A failure in the front sprite step ends that step only.  When
    [downloadSprite] or [saveSprite] returns an error in the front step,
    the error is printed with the text of that failure, and the back step
    runs all the same: its GET is made exactly when its URL is not empty,
    whatever the front step did.  No request is repeated: the GETs of a run
    are the one for the API URL, then at most one for the front sprite,
    then at most one for the back sprite; a run in which the fetch or the
    decoding fails makes the first of them only. *)
Theorem sprite_failure_is_local (env : Env) (files : gmap string bytes) (w : World) :
  terminates env files w ->
  (forall body p,
     get_succeeds (fetched env) body -> parseJSON body = (p, None) ->
     exists w1,
       run env 0 (front_sprite p) (printed_world files body p) = Some (tt, w1) /\
       run env 0 (back_sprite p) w1 = Some (tt, w) /\
       (forall data e wd,
          FrontDefault (Sprites_ p) <> "" ->
          run env 0 (downloadSprite (FrontDefault (Sprites_ p)))
            (printed_world files body p) = Some ((data, Some e), wd) ->
          (0%nat, EvPrintln [VString "Error downloading front sprite:";
                             VError (Some e)])
          ∈ events_between (printed_world files body p) w1) /\
       (forall data wd e ws,
          FrontDefault (Sprites_ p) <> "" ->
          run env 0 (downloadSprite (FrontDefault (Sprites_ p)))
            (printed_world files body p) = Some ((data, None), wd) ->
          run env 0 (saveSprite data (frontFilename p)) wd = Some (Some e, ws) ->
          (0%nat, EvPrintln [VString "Error saving front sprite:";
                             VError (Some e)])
          ∈ events_between (printed_world files body p) w1) /\
       ((0%nat, EvHttpGet (BackDefault (Sprites_ p))) ∈ events_between w1 w <->
          BackDefault (Sprites_ p) <> "") /\
       gets (trace w) =
       [url]
       ++ (if String.eqb (FrontDefault (Sprites_ p)) "" then []
           else [FrontDefault (Sprites_ p)])
       ++ (if String.eqb (BackDefault (Sprites_ p)) "" then []
           else [BackDefault (Sprites_ p)])) /\
  (forall e, fetch_signal (fetched env) = on_errorChan e -> gets (trace w) = [url]) /\
  (forall body err,
     get_succeeds (fetched env) body -> snd (parseJSON body) = Some err ->
     gets (trace w) = [url]).
Proof.
  intros ->%terminates_iff. split_and!.
  - intros body p Hget Hparse.
    destruct (decoded_run env files body p Hget Hparse)
      as (w1 & Hfront & Hback & Hf & Hb).
    exists w1. split; [done|]. split; [done|].
    destruct Hf as (Htr & Hevs & _ & _ & _ & Hdl & Hsave).
    destruct Hb as (Htr' & Hevs' & _).
    split_and!.
    + intros data e wd Hu Hrun. rewrite (Hdl data e wd Hu Hrun). in_list.
    + apply Hsave.
    + by eapply sprite_events_get.
    + rewrite Htr', Htr, !gets_app.
      apply sprite_events_get in Hevs as [_ ->].
      by apply sprite_events_get in Hevs' as [_ ->].
  - intros e He. by rewrite (final_error env files e He).
  - intros body err Hget Hparse.
    by rewrite (final_parse_error env files body err Hget Hparse).
Qed.

Lemma sprite_failure_is_local_witness :
  gets (trace (final_world (example_env (ok bulbasaur) not_found [] None) ∅))
  = [url; "https://img/front/1.png"; "https://img/back/1.png"].
Proof.
  destruct (sprite_failure_is_local
              (example_env (ok bulbasaur) not_found [] None) ∅ _
              (terminates_final _ _)) as (Hdecoded & _).
  destruct (Hdecoded bulbasaur (parseJSON bulbasaur).1)
    as (w1 & _ & _ & _ & _ & _ & Hgets); [get_ok|reflexivity|].
  exact Hgets.
Defined.

(** C6.  The steps of a run come in one order.  What has happened at any
    moment of a run is an initial part of the trace in which [main]
    returns, and that trace is: the GET of the API URL, made by the worker;
    then the receive of [main]; then, for an error or a body that does not
    decode, the error line, and for a body decoded into [p], the six field
    lines, then the events of the front sprite step, then those of the back
    sprite step, each step being its GET, then the creation and the write
    of its file, then its console line, as far as it got. *)
Theorem steps_in_order (env : Env) (files : gmap string bytes) (w : World) :
  terminates env files w ->
  (forall c, reachable env files c -> exists evs, trace w = trace (world c) ++ evs) /\
  exists rest : list (nat * event),
    trace w =
    [(1%nat, EvHttpGet url);
     (0%nat, EvRecv (Some 1%nat) (fetch_signal (fetched env)))] ++ rest /\
    (forall e, fetch_signal (fetched env) = on_errorChan e ->
       rest = [(0%nat, EvPrintln [VString "Error:"; VError e])]) /\
    (forall body err,
       get_succeeds (fetched env) body -> snd (parseJSON body) = Some err ->
       rest = [(0%nat, EvPrintln [VString "Error:"; VError (Some err)])]) /\
    (forall body p,
       get_succeeds (fetched env) body -> parseJSON body = (p, None) ->
       exists front back,
         rest = field_lines p ++ front ++ back /\
         sprite_events 0 "Error downloading front sprite:"
           "Error saving front sprite:" "Front sprite saved as:"
           (FrontDefault (Sprites_ p)) (frontFilename p) front /\
         sprite_events 0 "Error downloading back sprite:"
           "Error saving back sprite:" "Back sprite saved as:"
           (BackDefault (Sprites_ p)) (backFilename p) back).
Proof.
  intros ->%terminates_iff. split.
  - intros c Hc. by apply phase_prefix, reachable_phase.
  - destruct (final_trace env files) as (rest & Hrest & _).
    exists rest. split; [done|]. split_and!.
    + intros e He. rewrite (final_error env files e He), He in Hrest.
      simpl in Hrest. by injection Hrest as <-.
    + intros body err Hget Hparse.
      rewrite (final_parse_error env files body err Hget Hparse) in Hrest.
      apply fetch_signal_result in Hget. rewrite Hget in Hrest.
      simpl in Hrest. by injection Hrest as <-.
    + intros body p Hget Hparse.
      destruct (decoded_run env files body p Hget Hparse)
        as (w1 & _ & _ & (Htr & Hevs & _) & (Htr' & Hevs' & _)).
      eexists _, _. split; [|split; [exact Hevs|exact Hevs']].
      rewrite Htr', Htr in Hrest. apply fetch_signal_result in Hget.
      rewrite Hget in Hrest. simpl in Hrest. by injection Hrest as <-.
Qed.

Lemma steps_in_order_witness :
  exists rest : list (nat * event),
    trace (final_world (example_env (ok bulbasaur) (ok png) [] None) ∅) =
    [(1%nat, EvHttpGet url);
     (0%nat, EvRecv (Some 1%nat)
               (fetch_signal (fetched (example_env (ok bulbasaur) (ok png) [] None))))]
    ++ rest.
Proof.
  destruct (steps_in_order (example_env (ok bulbasaur) (ok png) [] None) ∅ _
              (terminates_final _ _)) as (_ & rest & Hrest & _).
  by exists rest.
Defined.

(** C7.  A decoded body is printed field by field.  The console lines of
    the run are the six field lines, with the fields of the decoded
    [Pokemon] in the order name, base experience, height, id, sprites,
    stats, followed only by the lines of the sprite steps, two at most.
    And each field holds what the member of its key decodes to: the string
    under [name], the numbers under [base_experience], [height] and [id],
    the object under [sprites] and the array under [stats]. *)
Theorem prints_decoded_fields (env : Env) (files : gmap string bytes) (w : World)
    (body : bytes) (p : Pokemon) :
  terminates env files w ->
  get_succeeds (fetched env) body ->
  parseJSON body = (p, None) ->
  (exists status,
     printed (trace w) =
     [ [VString "Pokemon Name:"; VString (Name p)];
       [VString "Pokemon BaseExp:"; VInt32 (BaseExp p)];
       [VString "Pokemon Height:"; VInt32 (Height p)];
       [VString "Pokemon Id:"; VInt32 (Id p)];
       [VString "Pokemon Sprites:"; VSprites (Sprites_ p)];
       [VString "Pokemon Abilities:"; VStatInfos (StatInfo_ p)] ] ++ status /\
     (length status <= 2)%nat /\ Forall sprite_line status) /\
  (forall members,
     json.parse body = Some (json.Object members) ->
     (forall s, member_for "name" members (json.String s) -> Name p = s) /\
     (forall literal n,
        member_for "base_experience" members (json.Number literal) ->
        json.int32_of_literal literal = Some n -> BaseExp p = n) /\
     (forall literal n,
        member_for "height" members (json.Number literal) ->
        json.int32_of_literal literal = Some n -> Height p = n) /\
     (forall literal n,
        member_for "id" members (json.Number literal) ->
        json.int32_of_literal literal = Some n -> Id p = n) /\
     (forall v, member_for "sprites" members v ->
        Sprites_ p = (json.store_Sprites v Sprites_zero).1) /\
     (forall v, member_for "stats" members v ->
        StatInfo_ p = (json.store_StatInfos v []).1)).
Proof.
  intros ->%terminates_iff Hget Hparse. split.
  - destruct (decoded_run env files body p Hget Hparse)
      as (w1 & _ & _ & (Htr & Hevs & _) & (Htr' & Hevs' & _)).
    apply sprite_events_printed in Hevs as [Hlen Hlines];
      [|unfold sprite_texts; in_list..].
    apply sprite_events_printed in Hevs' as [Hlen' Hlines'];
      [|unfold sprite_texts; in_list..].
    eexists. rewrite Htr', Htr, !printed_app. simpl.
    split; [reflexivity|]. rewrite length_app. split; [lia|].
    by apply Forall_app.
  - intros members Hmembers.
    unfold parseJSON, json.Unmarshal in Hparse. rewrite Hmembers in Hparse.
    unfold json.store_Pokemon, json.store_struct in Hparse.
    assert (Hp : p = (json.store_members json.Pokemon_fields members
                        (Pokemon_zero, []) None).1.1).
    { destruct (json.store_members _ _ _ _) as [data [err|]]; [done|].
      by injection Hparse as <-. }
    split_and!.
    + intros s Hm. rewrite Hp.
      exact (store_member_for (fun t => Name t.1) _ json.store_string "name"
               members _ _ _ eq_refl (fun _ _ => eq_refl) untouched_Name Hm).
    + intros literal n Hm Hn. rewrite Hp.
      pose proof (store_member_for (fun t => BaseExp t.1) _ json.store_int32
                    "base_experience" members _ (Pokemon_zero, []) None
                    eq_refl (fun _ _ => eq_refl) untouched_BaseExp Hm) as Hfield.
      simpl in Hfield. by rewrite Hn in Hfield.
    + intros literal n Hm Hn. rewrite Hp.
      pose proof (store_member_for (fun t => Height t.1) _ json.store_int32
                    "height" members _ (Pokemon_zero, []) None
                    eq_refl (fun _ _ => eq_refl) untouched_Height Hm) as Hfield.
      simpl in Hfield. by rewrite Hn in Hfield.
    + intros literal n Hm Hn. rewrite Hp.
      pose proof (store_member_for (fun t => Id t.1) _ json.store_int32
                    "id" members _ (Pokemon_zero, []) None
                    eq_refl (fun _ _ => eq_refl) untouched_Id Hm) as Hfield.
      simpl in Hfield. by rewrite Hn in Hfield.
    + intros v Hm. rewrite Hp.
      exact (store_member_for (fun t => Sprites_ t.1) _ json.store_Sprites
               "sprites" members _ _ _ eq_refl (fun _ _ => eq_refl)
               untouched_Sprites Hm).
    + intros v Hm. rewrite Hp.
      pose proof (store_member_for (fun t => (StatInfo_ t.1, t.2)) _
                    json.store_slice "stats" members v (Pokemon_zero, []) None
                    eq_refl (fun x _ => match x with (_, _) => eq_refl end)
                    untouched_StatInfo Hm) as Hfield.
      simpl in Hfield. unfold json.store_StatInfos.
      destruct (json.store_slice v ([], [])) as [s err].
      simpl in *. by rewrite <- Hfield.
Qed.

Lemma prints_decoded_fields_witness :
  terminates (example_env (ok bulbasaur) (ok png) [] None) ∅
    (final_world (example_env (ok bulbasaur) (ok png) [] None) ∅) /\
  exists status,
    printed (trace (final_world (example_env (ok bulbasaur) (ok png) [] None) ∅)) =
    [ [VString "Pokemon Name:"; VString "bulbasaur"];
      [VString "Pokemon BaseExp:"; VInt32 64];
      [VString "Pokemon Height:"; VInt32 7];
      [VString "Pokemon Id:"; VInt32 1];
      [VString "Pokemon Sprites:";
       VSprites {| FrontDefault := "https://img/front/1.png";
                   BackDefault := "https://img/back/1.png" |}];
      [VString "Pokemon Abilities:";
       VStatInfos [ {| StatInfo_Stat := {| Stat_Name := "hp";
                                           Stat_URL := "https://api/stat/1/" |};
                       StatInfo_BaseStat := 45 |} ]] ] ++ status.
Proof.
  split; [apply terminates_final|].
  destruct (prints_decoded_fields (example_env (ok bulbasaur) (ok png) [] None) ∅
              _ bulbasaur (parseJSON bulbasaur).1 (terminates_final _ _))
    as ((status & Hprinted & _) & _); [get_ok|reflexivity|].
  by exists status.
Defined.

(** C8.  One worker, and [main] waiting for it.  In every state of every
    run: nothing has panicked; the goroutines started so far are an
    initial part of [fetchData], [func1], so [fetchData] runs in one
    goroutine only, goroutine 1; some goroutine can go on as long as [main]
    has not returned; and when it has, both were started and the world is
    the same whatever the schedule was.  In that world the first event is
    the GET of the API URL, made by goroutine 1, and the first thing [main]
    does is to receive, from goroutine 1 and not from a closed channel, the
    one message [fetchData] sends; every later event is [main]'s own, and
    is what the case of the [select] for that message does. *)
Theorem one_worker_main_waits (env : Env) (files : gmap string bytes) (c : Config) :
  reachable env files c ->
  panicked c = false /\
  (exists later, started c ++ later = [go_fetchData url; go_func1]) /\
  (exists evs, trace (final_world env files) = trace (world c) ++ evs) /\
  (exited c = false -> exists ch c', step env ch c = Some c') /\
  (exited c = true ->
     world c = final_world env files /\
     started c = [go_fetchData url; go_func1]) /\
  sends env 1 (fetchData url) (world0 files) = Some [fetch_signal (fetched env)] /\
  (exists rest : list (nat * event),
     trace (final_world env files) =
     [(1%nat, EvHttpGet url);
      (0%nat, EvRecv (Some 1%nat) (fetch_signal (fetched env)))] ++ rest /\
     Forall (own_event 0) rest) /\
  run env 0 (main_select (fetch_signal (fetched env))) (world2 env files)
  = Some (tt, final_world env files).
Proof.
  intros Hph%reachable_phase. split_and!.
  - by apply (phase_running env files).
  - by apply (phase_started env files).
  - by apply phase_prefix.
  - by apply (phase_progress env files).
  - by apply phase_exited.
  - destruct (fetchData_shape url) as (k & -> & Hk). simpl.
    fold (fetched env). rewrite Hk. simpl. by destruct (fetched env).
  - apply final_trace.
  - apply final_world_run.
Qed.

Lemma one_worker_main_waits_witness :
  reachable (example_env unreachable unreachable [] None) ∅ (initial ∅) /\
  exists ch c',
    step (example_env unreachable unreachable [] None) ch (initial ∅) = Some c'.
Proof.
  assert (Hr : reachable (example_env unreachable unreachable [] None) ∅ (initial ∅))
    by (by exists []).
  split; [exact Hr|].
  destruct (one_worker_main_waits _ _ _ Hr) as (_ & _ & _ & Hgo & _).
  by apply Hgo.
Defined.


(** C10, as amended.  [parseJSON] requires no key to be present.  On the
    body [{}], and on every well-formed JSON object none of whose keys is
    one of the six expected keys or differs from one only by case folding,
    it returns the zero [Pokemon] and a nil error.  The steps after it then
    run on the zero values: the six lines are printed with them, and since
    both sprite URLs are empty no sprite is fetched and no file written. *)
Theorem parseJSON_requires_no_key :
  parseJSON (text "{}") = (Pokemon_zero, None) /\
  (forall body members,
     json.parse body = Some (json.Object members) ->
     (forall key v tag, (key, v) ∈ members -> tag ∈ Pokemon_keys ->
                        json.equalFold key tag = false) ->
     parseJSON body = (Pokemon_zero, None)) /\
  (forall env files w body,
     get_succeeds (fetched env) body ->
     parseJSON body = (Pokemon_zero, None) ->
     terminates env files w <-> w = printed_world files body Pokemon_zero).
Proof.
  split_and!.
  - reflexivity.
  - intros body members Hparse Hunknown.
    unfold parseJSON, json.Unmarshal. rewrite Hparse.
    unfold json.store_Pokemon, json.store_struct.
    rewrite store_members_unknown; [done|].
    intros key v f Hin Hf. apply (Hunknown key v); [done|].
    unfold Pokemon_keys. apply list_elem_of_In, in_map, list_elem_of_In, Hf.
  - intros env files w body Hget Hparse. rewrite terminates_iff.
    destruct (final_decoded env files body _ Hget Hparse) as (w1 & Hfront & Hback).
    simpl in Hfront, Hback. injection Hfront as <-. by injection Hback as <-.
Qed.

(** C10 as it was stated fails twice over.  A well-formed JSON object may
    be rejected: a known key with a value of the wrong type is an error.
    And an object that holds none of the expected keys may still fill a
    field: keys are matched without regard to case. *)
Lemma parseJSON_checks_known_keys :
  (json.parse (text "{'name':1}")
   = Some (json.Object [("name", json.Number "1")]) /\
   parseJSON (text "{'name':1}")
   = (Pokemon_zero,
      Some (Errorf "error parsing JSON: %v"
              (ArgError (UnmarshalTypeError "number" "string"))))) /\
  (json.parse (text "{'NAME':'x'}")
   = Some (json.Object [("NAME", json.String "x")]) /\
   ("NAME" ∉ Pokemon_keys) /\
   parseJSON (text "{'NAME':'x'}")
   = ({| Name := "x"; BaseExp := 0; Height := 0; Id := 0;
         Sprites_ := Sprites_zero; StatInfo_ := [] |}, None)).
Proof.
  split_and!; try reflexivity.
  intros H. unfold Pokemon_keys in H. simpl in H. not_in_list H.
Qed.

(** * Further properties of the functions *)

(** ** The calls a body makes *)

(** A call as it is made: the library function or the goroutine primitive,
    with its operands. *)
Inductive call : Type :=
| CallGet (url : string)
| CallBodyClose (r : Response)
| CallPrintln (args : list value)
| CallCreate (name : string)
| CallWrite (f : File) (data : bytes)
| CallFileClose (f : File)
| CallGo (f : gofunc)
| CallSend (m : message)
| CallClose (c : chan)
| CallWgAdd (delta : Z)
| CallWgDone.

(** The calls of one goroutine on its own, in order, each of its sends
    finding a receiver at once; the deferred calls are among them.  [None]
    when the body reaches a [select] or [wg.Wait()]. *)
Fixpoint calls {A : Type} (env : Env) (g : gid) (p : prog A) (w : World)
  : option (list call) :=
  match p with
  | Ret _ => Some []
  | HttpGet url k =>
      let '(r, w') := do_Get env g url w in
      option_map (cons (CallGet url)) (calls env g (k r) w')
  | BodyClose r k => option_map (cons (CallBodyClose r)) (calls env g k w)
  | Println args k =>
      option_map (cons (CallPrintln args)) (calls env g k (do_Println g args w))
  | OsCreate name k =>
      let '(r, w') := do_Create env g name w in
      option_map (cons (CallCreate name)) (calls env g (k r) w')
  | FileWrite f data k =>
      let '(r, w') := do_Write env g f data w in
      option_map (cons (CallWrite f data)) (calls env g (k r) w')
  | FileClose f k => option_map (cons (CallFileClose f)) (calls env g k w)
  | Go f k => option_map (cons (CallGo f)) (calls env g k w)
  | Send m k => option_map (cons (CallSend m)) (calls env g k w)
  | Close c k => option_map (cons (CallClose c)) (calls env g k w)
  | WgAdd d k => option_map (cons (CallWgAdd d)) (calls env g k w)
  | WgDone k => option_map (cons CallWgDone) (calls env g k w)
  | Select _ _ | WgWait _ => None
  end.

(** X1.  The deferred calls of [fetchData] run after its send.  On every
    path [fetchData] makes the GET, sends its one message, closes the
    response body when the GET returned a response (whatever its status),
    and calls [wg.Done()] last: the WaitGroup is released only once the
    message has been taken. *)
Theorem fetchData_defers_after_send (env : Env) (g : nat) (u : string) (w : World) :
  let r := env_get env (trace w) u in
  exists m,
    sends env g (fetchData u) w = Some [m] /\
    calls env g (fetchData u) w =
    Some ([CallGet u; CallSend m]
          ++ match r with inl resp => [CallBodyClose resp] | inr _ => [] end
          ++ [CallWgDone]).
Proof.
  intros r. unfold fetchData. simpl. fold r.
  destruct r as [resp|err]; simpl; [|by eexists].
  destruct (StatusCode resp =? StatusOK)%Z; simpl; [|by eexists].
  unfold io_ReadAll. destruct (stream_err (Body resp)); simpl; by eexists.
Qed.

(** X2.  [downloadSprite] and [saveSprite] release what they open.
    [downloadSprite] closes the body of every response it gets, also when
    the status is not 200 or the read fails, and has nothing to close when
    the GET fails.  [saveSprite] closes the file it created, also when the
    write fails, and calls neither write nor close when the creation
    fails. *)
Theorem sprite_functions_release (env : Env) (g : nat) (u filename : string)
    (data : bytes) (w : World) :
  calls env g (downloadSprite u) w =
  Some (CallGet u ::
        match env_get env (trace w) u with
        | inl resp => [CallBodyClose resp]
        | inr _ => []
        end) /\
  calls env g (saveSprite data filename) w =
  Some (CallCreate filename ::
        match env_create env (trace w) filename with
        | None => [CallWrite {| file_name := filename |} data;
                   CallFileClose {| file_name := filename |}]
        | Some _ => []
        end).
Proof.
  split.
  - unfold downloadSprite. simpl.
    destruct (env_get env (trace w) u) as [resp|err]; simpl; [|done].
    destruct (StatusCode resp =? StatusOK)%Z; simpl; [|done].
    unfold io_ReadAll. by destruct (stream_err (Body resp)).
  - unfold saveSprite. simpl. unfold do_Create.
    destruct (env_create env (trace w) filename); simpl; [done|].
    unfold do_Write. simpl.
    by destruct (env_write env _ filename data) as [[n e]|].
Qed.

(** ** [downloadSprite] and [saveSprite] *)

(** X3.  [downloadSprite] makes one GET and nothing else: the world after
    it is the world before with that GET in the trace, the files as they
    were.  It returns the whole body and a nil error exactly when the GET
    went through with status 200 and the body was read to its end.  A
    failed request, a status other than 200 and a failed read each return
    no data, whatever had been read, and the error wrapped with the text of
    that failure. *)
Theorem downloadSprite_outcomes (env : Env) (g : nat) (u : string) (w : World) :
  let r := env_get env (trace w) u in
  exists data err,
    run env g (downloadSprite u) w = Some ((data, err), log g (EvHttpGet u) w) /\
    (forall body, (data, err) = (body, None) <-> get_succeeds r body) /\
    (forall e, r = inr e ->
       (data, err) = ([], Some (Errorf "error downloading sprite: %v" (ArgError e)))) /\
    (forall resp, r = inl resp -> StatusCode resp <> StatusOK ->
       (data, err) =
       ([], Some (Errorf "unexpected status code: %d" (ArgInt (StatusCode resp))))) /\
    (forall resp e, r = inl resp -> StatusCode resp = StatusOK ->
       stream_err (Body resp) = Some e ->
       (data, err) = ([], Some (Errorf "error reading sprite data: %v" (ArgError e)))).
Proof.
  intros r. unfold downloadSprite, get_succeeds, io_ReadAll. simpl. fold r.
  destruct r as [resp|e]; simpl.
  - destruct (StatusCode resp =? StatusOK)%Z eqn:Hst; simpl;
      [apply Z.eqb_eq in Hst|apply Z.eqb_neq in Hst];
      [destruct (stream_err (Body resp)) as [e|] eqn:Herr; simpl|];
      (eexists _, _; split; [reflexivity|]); split_and!; try done;
      try (intros resp' [= <-] ?; congruence);
      try (intros resp' e' [= <-] ? ?; congruence);
      (intros body; split;
       [ intros H; first [discriminate H | injection H as <-; exists resp; by rewrite ?Herr]
       | intros (resp' & Hr & Hs & Hb); injection Hr as <-; injection Hb as ? ?;
         congruence ]).
  - eexists _, _. split; [reflexivity|]. split_and!; try done.
    + intros body. split; [done|]. by intros (resp' & ? & _).
    + by intros e' [= <-].
Qed.

(** X4.  A write that fails leaves the file cut short.  When [os.Create]
    succeeds and [file.Write] fails after [n] bytes, [saveSprite] returns
    the write error wrapped, and the file is left holding the first [n]
    bytes of the data and nothing of what it held before: the earlier
    contents were lost when the file was created.  No other file changes. *)
Theorem saveSprite_failed_write (env : Env) (g : nat) (data : bytes)
    (filename : string) (w : World) (n : nat) (e : error) :
  env_create env (trace w) filename = None ->
  env_write env (trace w ++ [(g, EvCreate filename)]) filename data = Some (n, e) ->
  exists w',
    run env g (saveSprite data filename) w
    = Some (Some (Errorf "error saving sprite: %v" (ArgError e)), w') /\
    fs w' !! filename = Some (take n data) /\
    (forall other, other <> filename -> fs w' !! other = fs w !! other) /\
    trace w' = trace w ++ [(g, EvCreate filename); (g, EvWrite filename data)].
Proof.
  intros Hcreate Hwrite. unfold saveSprite. simpl. unfold do_Create.
  rewrite Hcreate. simpl. unfold do_Write. simpl. rewrite Hwrite. simpl.
  eexists. split; [reflexivity|]. simpl. split_and!.
  - rewrite lookup_insert_eq. simpl. by rewrite lookup_insert_eq.
  - intros other Hne. by rewrite !lookup_insert_ne.
  - by rewrite <- app_assoc.
Qed.

Lemma saveSprite_failed_write_witness :
  exists w',
    run (example_env unreachable unreachable [] (Some 2%nat)) 0
      (saveSprite png "a.png") {| trace := []; fs := {["a.png" := png ++ png]} |}
    = Some (Some (Errorf "error saving sprite: %v"
                    (ArgError (LibError "no space left on device"))), w') /\
    fs w' !! "a.png" = Some (take 2 png).
Proof.
  destruct (saveSprite_failed_write
              (example_env unreachable unreachable [] (Some 2%nat)) 0 png "a.png"
              {| trace := []; fs := {["a.png" := png ++ png]} |} 2
              (LibError "no space left on device") eq_refl eq_refl)
    as (w' & Hrun & Hfile & _).
  by exists w'.
Defined.

(** ** [main]: the error case of the [select] *)

(** X5.  A fetch that fails ends the run with one line.  When [fetchData]
    signals an error (the request failed, the status is not 200, or the
    body could not be read), the error it sent is not nil, and [main]
    returns in exactly one world whatever the schedule: the GET of the
    worker, the receive of [main] and the line [Error:] with that error.
    Nothing is decoded, no sprite is requested and no file is touched. *)
Theorem fetch_error_ends_main (env : Env) (files : gmap string bytes) (w : World)
    (e : option error) :
  fetch_signal (fetched env) = on_errorChan e ->
  sends env 1 (fetchData url) (world0 files) = Some [on_errorChan e] /\
  e <> None /\
  (terminates env files w <->
   w = {| trace := [(1%nat, EvHttpGet url);
                    (0%nat, EvRecv (Some 1%nat) (on_errorChan e));
                    (0%nat, EvPrintln [VString "Error:"; VError e])];
          fs := files |}).
Proof.
  intros He. split_and!.
  - destruct (fetchData_shape url) as (k & -> & Hk). simpl.
    fold (fetched env). rewrite Hk, He. simpl. by destruct (fetched env).
  - intros ->. unfold fetch_signal in He.
    destruct (fetched env) as [resp|err]; [|done].
    destruct (negb _); [done|]. by destruct (stream_err (Body resp)).
  - rewrite terminates_iff. by rewrite (final_error env files e He).
Qed.

Lemma fetch_error_ends_main_witness :
  terminates (example_env not_found unreachable [] None) ∅
    {| trace := [(1%nat, EvHttpGet url);
                 (0%nat, EvRecv (Some 1%nat)
                    (on_errorChan
                       (Some (Errorf "unexpected status code: %d" (ArgInt 404)))));
                 (0%nat, EvPrintln
                    [VString "Error:";
                     VError (Some (Errorf "unexpected status code: %d" (ArgInt 404)))])];
       fs := ∅ |}.
Proof.
  apply (fetch_error_ends_main (example_env not_found unreachable [] None) ∅ _
           (Some (Errorf "unexpected status code: %d" (ArgInt 404))) eq_refl).
  reflexivity.
Defined.

(** X6.  No console line shows a nil error.  The channels are closed while
    [main] may still be waiting in its [select], and a receive from a
    closed [errorChan] would yield nil; it never comes to that.  In the
    world in which [main] returns, whatever the schedule, no line printed
    has a nil error among its operands. *)
Theorem no_nil_error_printed (env : Env) (files : gmap string bytes) (w : World)
    (g : nat) (args : list value) :
  terminates env files w ->
  (g, EvPrintln args) ∈ trace w ->
  VError None ∉ args.
Proof.
  intros ->%terminates_iff Hin Hnil.
  destruct (fetch_signal (fetched env)) as [body|e] eqn:Hsig.
  - apply fetch_signal_result in Hsig.
    destruct (parseJSON body) as [p [err|]] eqn:Hparse.
    + rewrite (final_parse_error env files body err Hsig) in Hin
        by (by rewrite Hparse).
      simpl in Hin. not_in_list Hin. injection Hin as _ ->. not_in_list Hnil.
    + destruct (decoded_run env files body p Hsig Hparse)
        as (w1 & _ & _ & (Htr & Hevs & _) & (Htr' & Hevs' & _)).
      rewrite Htr', Htr in Hin.
      apply elem_of_app in Hin as [Hin|Hin];
        [apply elem_of_app in Hin as [Hin|Hin]|].
      * simpl in Hin. not_in_list Hin; injection Hin as _ ->; not_in_list Hnil.
      * destruct Hevs; not_in_list Hin; injection Hin as _ ->; not_in_list Hnil.
      * destruct Hevs'; not_in_list Hin; injection Hin as _ ->; not_in_list Hnil.
  - rewrite (final_error env files e Hsig) in Hin.
    simpl in Hin. not_in_list Hin. injection Hin as _ ->. not_in_list Hnil.
    injection Hnil as <-. unfold fetch_signal in Hsig.
    destruct (fetched env) as [resp|err]; [|done].
    destruct (negb _); [done|]. by destruct (stream_err (Body resp)).
Qed.

Lemma no_nil_error_printed_witness :
  VError None ∉
    [VString "Error:"; VError (Some (Errorf "unexpected status code: %d" (ArgInt 404)))].
Proof.
  apply (no_nil_error_printed (example_env not_found unreachable [] None) ∅
           (final_world (example_env not_found unreachable [] None) ∅) 0 _
           (terminates_final _ _)).
  set (tr := trace (final_world _ _)). vm_compute in tr. subst tr. in_list.
Defined.

(** ** [main]: the goroutine that closes the channels *)

(** X7.  The channels are closed only after [fetchData] has returned.  In
    every state of every run the WaitGroup counter is 0 or 1, there are at
    most three goroutines, and the channels closed so far are an initial
    part of [resultChan], [errorChan], so none is closed twice.  Once a
    channel is closed, [fetchData] has returned, the counter is 0 and
    [main] has received the message [fetchData] sent: the closing can
    neither make a send panic nor reach [main]'s [select]. *)
Theorem channels_closed_after_worker (env : Env) (files : gmap string bytes)
    (c : Config) :
  reachable env files c ->
  (wg c = 0 \/ wg c = 1)%Z /\
  (length (threads c) <= 3)%nat /\
  (exists later, closed c ++ later = [resultChan; errorChan]) /\
  (closed c <> [] ->
   threads c !! 1%nat = Some (Ret tt) /\ wg c = 0%Z /\
   (0%nat, EvRecv (Some 1%nat) (fetch_signal (fetched env))) ∈ trace (world c)).
Proof.
  intros Hph%reachable_phase.
  destruct Hph as [| |F w HF|F w HF|M F C n cl w wf Hwf HM HF HC]; simpl;
    try (split_and!; [auto|lia|by eexists|done]).
  split_and!.
  - destruct HF; auto.
  - lia.
  - destruct HC; by eexists.
  - intros Hcl. assert (n = 0%Z) as -> by (by destruct HC).
    split; [by inversion HF|]. split; [done|].
    rewrite final_world_run in Hwf. injection Hwf as <-.
    destruct (run_trace_prefix env 0 _ _ _ _ HM) as (evs & Htr & Hown).
    destruct (final_trace env files) as (rest & Hrest & _).
    assert (Hin : (0%nat, EvRecv (Some 1%nat) (fetch_signal (fetched env)))
                  ∈ trace w ++ evs) by (rewrite <- Htr, Hrest; in_list).
    apply elem_of_app in Hin as [Hin|Hin]; [done|].
    rewrite Forall_forall in Hown. destruct (Hown _ Hin) as [_ Hrecv].
    by destruct (Hrecv (Some 1%nat) (fetch_signal (fetched env))).
Qed.

Lemma channels_closed_after_worker_witness :
  exists c,
    exec (example_env unreachable unreachable [] None)
      [Run 0; Run 0; Run 0; Run 1; Pass 1 0; Run 1; Run 2; Run 2] (initial ∅)
    = Some c /\
    closed c = [resultChan] /\
    threads c !! 1%nat = Some (Ret tt) /\ wg c = 0%Z.
Proof.
  destruct (exec (example_env unreachable unreachable [] None)
              [Run 0; Run 0; Run 0; Run 1; Pass 1 0; Run 1; Run 2; Run 2]
              (initial ∅)) as [c|] eqn:Hexec; [|by vm_compute in Hexec].
  exists c. split; [done|].
  assert (Hcl : closed c = [resultChan])
    by (vm_compute in Hexec; by injection Hexec as <-).
  split; [done|].
  destruct (channels_closed_after_worker _ ∅ c (ex_intro _ _ Hexec))
    as (_ & _ & _ & Hafter).
  destruct Hafter as (Hth & Hwg & _); [by rewrite Hcl|]. done.
Defined.

(** ** [parseJSON]: what it rejects *)

(** X8.  A body with no JSON value in it is rejected.  On the empty body,
    and on any body made of spaces, tabs and line ends only, [parseJSON]
    returns the zero [Pokemon] and the syntax error wrapped. *)
Theorem parseJSON_blank_body (body : bytes) :
  Forall (fun b => json.isSpace (json.code b) = true) body ->
  parseJSON body =
  (Pokemon_zero, Some (Errorf "error parsing JSON: %v" (ArgError SyntaxError))).
Proof.
  intros Hblank.
  assert (Hskip : json.skip_space body = []).
  { induction Hblank as [|b body Hb _ IH]; [done|]. simpl. by rewrite Hb. }
  unfold parseJSON, json.Unmarshal, json.parse. simpl. by rewrite Hskip.
Qed.

Lemma parseJSON_blank_body_witness :
  parseJSON [] =
  (Pokemon_zero, Some (Errorf "error parsing JSON: %v" (ArgError SyntaxError))) /\
  parseJSON [x20; x09; x0d; x0a]
  = (Pokemon_zero, Some (Errorf "error parsing JSON: %v" (ArgError SyntaxError))).
Proof.
  split; apply parseJSON_blank_body; repeat constructor.
Defined.

(** A decoder all of whose errors are type errors. *)
Definition type_errors {T : Type} (store : json.decoder T) : Prop :=
  forall v cur e, (store v cur).2 = Some e ->
                  exists value gotype, e = UnmarshalTypeError value gotype.

Definition type_error (e : option error) : Prop :=
  forall e', e = Some e' -> exists value gotype, e' = UnmarshalTypeError value gotype.

Lemma find_field_elem {T : Type} (fs : json.fields T) key store :
  json.find_field fs key = Some store -> exists tag, (tag, store) ∈ fs.
Proof.
  unfold json.find_field.
  destruct (List.find (fun f => String.eqb key f.1) fs) as [f|] eqn:Hexact.
  - intros [= <-]. apply find_some in Hexact as [Hin _]. exists f.1.
    apply list_elem_of_In. by destruct f.
  - destruct (List.find (fun f => json.equalFold key f.1) fs) as [f|] eqn:Hfold; [|done].
    intros [= <-]. apply find_some in Hfold as [Hin _]. exists f.1.
    apply list_elem_of_In. by destruct f.
Qed.

Lemma saveError_type_error saved new :
  type_error saved -> type_error new -> type_error (json.saveError saved new).
Proof. by destruct saved. Qed.

Lemma store_members_type_errors {T : Type} (fs : json.fields T) members cur saved :
  Forall (fun f => type_errors f.2) fs ->
  type_error saved ->
  type_error (json.store_members fs members cur saved).2.
Proof.
  intros Hfs. revert cur saved.
  induction members as [|[key v] members IH]; intros cur saved Hsaved; [done|].
  simpl. destruct (json.find_field fs key) as [store|] eqn:Hfind; [|by apply IH].
  destruct (find_field_elem fs key store Hfind) as [tag Hin].
  rewrite Forall_forall in Hfs. specialize (Hfs _ Hin). simpl in Hfs.
  destruct (store v cur) as [cur' err] eqn:Hstore. apply IH.
  apply saveError_type_error; [done|].
  intros e ->. apply (Hfs v cur). by rewrite Hstore.
Qed.

Lemma store_struct_type_errors {T : Type} gotype (fs : json.fields T) :
  Forall (fun f => type_errors f.2) fs -> type_errors (json.store_struct gotype fs).
Proof.
  intros Hfs v cur e. destruct v; simpl; try (intros [= <-]; by eexists _, _).
  intros He. by apply (store_members_type_errors fs members cur None Hfs).
Qed.

Lemma into_type_errors {T F : Type} (get : T -> F) set (store : json.decoder F) :
  type_errors store -> type_errors (json.into get set store).
Proof.
  intros Hstore v cur e. unfold json.into.
  destruct (store v (get cur)) as [x err] eqn:Hx. simpl. intros ->.
  apply (Hstore v (get cur)). by rewrite Hx.
Qed.

Lemma store_string_type_errors : type_errors json.store_string.
Proof. intros v cur e. destruct v; simpl; try done; intros [= <-]; by eexists _, _. Qed.

Lemma store_int32_type_errors : type_errors json.store_int32.
Proof.
  intros v cur e. destruct v; simpl; try done; try (intros [= <-]; by eexists _, _).
  destruct (json.int32_of_literal literal); simpl; [done|].
  intros [= <-]. by eexists _, _.
Qed.

Lemma store_StatInfo_type_errors : type_errors json.store_StatInfo.
Proof.
  apply store_struct_type_errors. repeat constructor; simpl.
  - apply into_type_errors, store_struct_type_errors.
    repeat constructor; apply into_type_errors, store_string_type_errors.
  - apply into_type_errors, store_int32_type_errors.
Qed.

Lemma store_elems_type_errors elems cur :
  type_error (json.store_elems elems cur).2.
Proof.
  revert cur; induction elems as [|v elems IH]; intros cur; [done|]. simpl.
  destruct (json.store_StatInfo v (List.hd StatInfo_zero cur)) as [x err] eqn:Hx.
  specialize (IH (List.tl cur)).
  destruct (json.store_elems elems (List.tl cur)) as [xs err']. simpl in *.
  apply saveError_type_error; [|done].
  intros e ->. apply (store_StatInfo_type_errors v (List.hd StatInfo_zero cur)).
  by rewrite Hx.
Qed.

Lemma store_slice_type_errors : type_errors json.store_slice.
Proof.
  intros v cur e. destruct v; simpl; try done; try (intros [= <-]; by eexists _, _).
  destruct elems as [|v elems]; [done|].
  pose proof (store_elems_type_errors (v :: elems) (cur.1 ++ cur.2)) as Helems.
  destruct (json.store_elems (v :: elems) (cur.1 ++ cur.2)) as [xs err].
  intros He. by apply Helems.
Qed.

Lemma store_Pokemon_type_errors : type_errors json.store_Pokemon.
Proof.
  apply store_struct_type_errors. repeat constructor; simpl;
    apply into_type_errors;
    try apply store_string_type_errors; try apply store_int32_type_errors.
  - apply store_struct_type_errors.
    repeat constructor; apply into_type_errors, store_string_type_errors.
  - apply store_slice_type_errors.
Qed.

(** X9.  The errors of [parseJSON].  When [parseJSON] returns an error it
    returns the zero [Pokemon] with it, whatever had been decoded before
    the error was met.  The error is the one of [json.Unmarshal] wrapped
    in the text [error parsing JSON], and that one is the syntax error when
    the body is not one well-formed JSON value, and a type error, a JSON
    value that does not fit the Go type it goes to, when it is. *)
Theorem parseJSON_errors (body : bytes) (p : Pokemon) (err : error) :
  parseJSON body = (p, Some err) ->
  p = Pokemon_zero /\
  exists inner,
    err = Errorf "error parsing JSON: %v" (ArgError inner) /\
    (json.Unmarshal body Pokemon_zero).2 = Some inner /\
    match json.parse body with
    | None => inner = SyntaxError
    | Some _ => exists value gotype, inner = UnmarshalTypeError value gotype
    end.
Proof.
  unfold parseJSON. destruct (json.Unmarshal body Pokemon_zero) as [data [inner|]] eqn:Hun;
    [|done].
  intros [= <- <-]. split; [done|]. exists inner. split; [done|]. split; [done|].
  unfold json.Unmarshal in Hun.
  destruct (json.parse body) as [v|]; [|by injection Hun as _ <-].
  apply (store_Pokemon_type_errors v (Pokemon_zero, [])).
  destruct (json.store_Pokemon v (Pokemon_zero, [])) as [t err].
  by injection Hun as _ ->.
Qed.

Lemma parseJSON_errors_witness :
  (parseJSON (text "{'name':'bulbasaur','height':'tall'}")).1 = Pokemon_zero /\
  exists inner,
    (json.Unmarshal (text "{'name':'bulbasaur','height':'tall'}") Pokemon_zero).2
    = Some inner /\
    exists value gotype, inner = UnmarshalTypeError value gotype.
Proof.
  destruct (parseJSON_errors (text "{'name':'bulbasaur','height':'tall'}")
              Pokemon_zero
              (Errorf "error parsing JSON: %v"
                 (ArgError (UnmarshalTypeError "string" "int32"))) eq_refl)
    as (_ & inner & _ & Hun & Hkind).
  split; [reflexivity|]. exists inner. split; [exact Hun|exact Hkind].
Defined.

(** ** [parseJSON]: what it returns *)

(** The range of an [int32]. *)
Definition int32 (n : Z) : Prop := (-2147483648 <= n <= 2147483647)%Z.

(** The [int32] fields of a [Pokemon] hold values of that range. *)
Definition Pokemon_int32 (p : Pokemon) : Prop :=
  int32 (BaseExp p) /\ int32 (Height p) /\ int32 (Id p) /\
  Forall (fun s => int32 (StatInfo_BaseStat s)) (StatInfo_ p).

(** A decoder that keeps a property of the target. *)
Definition preserves {T : Type} (P : T -> Prop) (store : json.decoder T) : Prop :=
  forall v cur, P cur -> P (store v cur).1.

Lemma store_members_preserves {T : Type} (P : T -> Prop) (fs : json.fields T)
    members cur saved :
  Forall (fun f => preserves P f.2) fs -> P cur ->
  P (json.store_members fs members cur saved).1.
Proof.
  intros Hfs. revert cur saved.
  induction members as [|[key v] members IH]; intros cur saved Hcur; [done|].
  simpl. destruct (json.find_field fs key) as [store|] eqn:Hfind; [|by apply IH].
  destruct (find_field_elem fs key store Hfind) as [tag Hin].
  rewrite Forall_forall in Hfs. specialize (Hfs _ Hin v cur Hcur). simpl in Hfs.
  destruct (store v cur) as [cur' err]. by apply IH.
Qed.

Lemma store_struct_preserves {T : Type} (P : T -> Prop) gotype (fs : json.fields T) :
  Forall (fun f => preserves P f.2) fs -> preserves P (json.store_struct gotype fs).
Proof.
  intros Hfs v cur Hcur. destruct v; simpl; try done.
  by apply store_members_preserves.
Qed.

Lemma int32_of_literal_range literal n :
  json.int32_of_literal literal = Some n -> int32 n.
Proof.
  unfold json.int32_of_literal, json.between, int32.
  destruct (match String.list_byte_of_string literal with
            | [] => (false, [])
            | b :: rest =>
                if (json.code b =? 45)%Z then (true, rest)
                else (false, String.list_byte_of_string literal)
            end) as [neg digits].
  destruct digits as [|d digits]; [done|].
  destruct (forallb _ _); [|done].
  match goal with
  | |- (if ?c then _ else _) = _ -> _ => destruct c eqn:Hrange; [|done]
  end.
  intros [= <-]. apply andb_true_iff in Hrange as [?%Z.leb_le ?%Z.leb_le]. done.
Qed.

Lemma store_int32_preserves : preserves int32 json.store_int32.
Proof.
  intros v cur Hcur. destruct v; simpl; try done.
  destruct (json.int32_of_literal literal) as [n|] eqn:Hn; [|done].
  by apply (int32_of_literal_range literal).
Qed.

(** One goal for each field of a list of fields. *)
Ltac each_field :=
  repeat first [apply List.Forall_cons | apply List.Forall_nil].

Lemma store_StatInfo_preserves :
  preserves (fun s => int32 (StatInfo_BaseStat s)) json.store_StatInfo.
Proof.
  apply store_struct_preserves. each_field; simpl.
  - intros v cur Hcur. unfold json.into.
    by destruct (json.store_Stat v (StatInfo_Stat cur)).
  - intros v cur Hcur. unfold json.into.
    pose proof (store_int32_preserves v (StatInfo_BaseStat cur) Hcur) as H.
    by destruct (json.store_int32 v (StatInfo_BaseStat cur)).
Qed.

Lemma store_elems_preserves elems cur :
  Forall (fun s => int32 (StatInfo_BaseStat s)) cur ->
  Forall (fun s => int32 (StatInfo_BaseStat s)) (json.store_elems elems cur).1.
Proof.
  revert cur; induction elems as [|v elems IH]; intros cur Hcur; [by constructor|].
  simpl.
  assert (Hhd : int32 (StatInfo_BaseStat (List.hd StatInfo_zero cur)))
    by (destruct Hcur; [by unfold int32|done]).
  assert (Htl : Forall (fun s => int32 (StatInfo_BaseStat s)) (List.tl cur))
    by (by destruct Hcur).
  pose proof (store_StatInfo_preserves v _ Hhd) as Hx.
  destruct (json.store_StatInfo v (List.hd StatInfo_zero cur)) as [x err].
  specialize (IH _ Htl). destruct (json.store_elems elems (List.tl cur)) as [xs err'].
  by constructor.
Qed.

(** The elements of a slice and those its backing array holds beyond them. *)
Definition slice_int32 (s : json.slice) : Prop :=
  Forall (fun s => int32 (StatInfo_BaseStat s)) s.1 /\
  Forall (fun s => int32 (StatInfo_BaseStat s)) s.2.

Lemma store_slice_preserves : preserves slice_int32 json.store_slice.
Proof.
  intros v [xs spare] [Hxs Hspare]. simpl in *.
  assert (Hall : Forall (fun s => int32 (StatInfo_BaseStat s)) (xs ++ spare))
    by (by apply Forall_app).
  destruct v; simpl; try done.
  destruct elems as [|v elems]; [done|].
  pose proof (store_elems_preserves (v :: elems) _ Hall) as Helems.
  destruct (json.store_elems (v :: elems) (xs ++ spare)) as [ys err].
  split; [done|]. by apply Forall_drop.
Qed.

(** The numbers of what is decoded into, the [Pokemon] and the backing
    array of its slice. *)
Definition destination_int32 (t : json.destination) : Prop :=
  Pokemon_int32 t.1 /\ Forall (fun s => int32 (StatInfo_BaseStat s)) t.2.

Lemma store_Pokemon_preserves : preserves destination_int32 json.store_Pokemon.
Proof.
  apply store_struct_preserves. unfold destination_int32, Pokemon_int32.
  each_field; simpl; intros v [cur spare] ((He & Hh & Hi & Hs) & Hspare);
    unfold json.stats, json.field, json.into; simpl in *.
  - by destruct (json.store_string v (Name cur)).
  - pose proof (store_int32_preserves v _ He).
    by destruct (json.store_int32 v (BaseExp cur)).
  - pose proof (store_int32_preserves v _ Hh).
    by destruct (json.store_int32 v (Height cur)).
  - pose proof (store_int32_preserves v _ Hi).
    by destruct (json.store_int32 v (Id cur)).
  - by destruct (json.store_Sprites v (Sprites_ cur)).
  - pose proof (store_slice_preserves v (StatInfo_ cur, spare)
                  (conj Hs Hspare)) as [Hxs Hspare'].
    by destruct (json.store_slice v (StatInfo_ cur, spare)).
Qed.

(** X10.  The numbers of a [Pokemon] are [int32] values.  Whatever the
    body, the base experience, the height, the id and every base stat that
    [parseJSON] returns lie between -2147483648 and 2147483647: a number
    that is out of that range, or that is not written as an integer, is
    never stored. *)
Theorem parseJSON_int32 (body : bytes) : Pokemon_int32 (parseJSON body).1.
Proof.
  assert (Hzero : Pokemon_int32 Pokemon_zero)
    by (unfold Pokemon_int32, int32; simpl; split_and!; try lia; constructor).
  unfold parseJSON.
  destruct (json.Unmarshal body Pokemon_zero) as [data [err|]] eqn:Hun; [done|].
  simpl. unfold json.Unmarshal in Hun.
  destruct (json.parse body) as [v|]; [|by injection Hun as <-].
  pose proof (store_Pokemon_preserves v (Pokemon_zero, [])
                (conj Hzero (Forall_nil_2 _))) as [H _].
  destruct (json.store_Pokemon v (Pokemon_zero, [])) as [t err].
  by injection Hun as <- _.
Qed.

(** ** [parseJSON]: keys *)

Lemma equalFold_left a b c :
  json.equalFold a b = true -> json.equalFold a c = json.equalFold b c.
Proof. unfold json.equalFold. by intros ->%String.eqb_eq. Qed.

(** A key that folds to a tag of [Pokemon] finds the field of that tag. *)
Lemma find_field_fold key tag :
  tag ∈ Pokemon_keys -> json.equalFold key tag = true ->
  json.find_field json.Pokemon_fields key = json.find_field json.Pokemon_fields tag.
Proof.
  intros Hin Hfold. pose proof (equalFold_left key tag) as Hleft.
  unfold Pokemon_keys in Hin. simpl in Hin.
  unfold json.find_field at 1. simpl.
  repeat match goal with
    | |- context [String.eqb key ?t] =>
        destruct (String.eqb_spec key t) as [->|?];
        [not_in_list Hin; subst tag; first [reflexivity | by vm_compute in Hfold]|]
    end.
  simpl. rewrite !Hleft by done.
  not_in_list Hin; subst tag; reflexivity.
Qed.

(** Two members with the same value whose keys are the same, or of which
    the second key is a tag of [Pokemon] and the first folds to it. *)
Definition same_up_to_case (m m' : string * json.value) : Prop :=
  m.2 = m'.2 /\
  (m.1 = m'.1 \/ (m'.1 ∈ Pokemon_keys /\ json.equalFold m.1 m'.1 = true)).

(** X11.  Keys are matched without regard to case.  Two bodies that are
    JSON objects with the same values in the same order, and whose keys
    differ only in that one writes an expected key in another case
    ([NAME], [Base_Experience]), are decoded alike: [parseJSON] returns the
    same [Pokemon] and the same error for both. *)
Theorem keys_match_without_case (body body' : bytes)
    (members members' : list (string * json.value)) :
  json.parse body = Some (json.Object members) ->
  json.parse body' = Some (json.Object members') ->
  Forall2 same_up_to_case members members' ->
  parseJSON body = parseJSON body'.
Proof.
  intros Hbody Hbody' Hsame.
  unfold parseJSON, json.Unmarshal. rewrite Hbody, Hbody'.
  unfold json.store_Pokemon, json.store_struct.
  assert (Hstore : forall cur saved,
            json.store_members json.Pokemon_fields members cur saved =
            json.store_members json.Pokemon_fields members' cur saved);
    [|by rewrite Hstore].
  clear Hbody Hbody'.
  induction Hsame as [|[key v] [key' v'] members members' [Hv Hkey] _ IH];
    intros cur saved; [done|].
  simpl in *. subst v'.
  assert (Hfind : json.find_field json.Pokemon_fields key
                  = json.find_field json.Pokemon_fields key').
  { destruct Hkey as [->|[Hin Hfold]]; [done|]. by apply find_field_fold. }
  rewrite Hfind. destruct (json.find_field json.Pokemon_fields key'); [|apply IH].
  destruct (d v cur). apply IH.
Qed.

Lemma keys_match_without_case_witness :
  parseJSON (text "{'NAME':'x','Height':7,'color':'green'}")
  = parseJSON (text "{'name':'x','height':7,'color':'green'}").
Proof.
  apply (keys_match_without_case
           (text "{'NAME':'x','Height':7,'color':'green'}")
           (text "{'name':'x','height':7,'color':'green'}")
           [("NAME", json.String "x"); ("Height", json.Number "7");
            ("color", json.String "green")]
           [("name", json.String "x"); ("height", json.Number "7");
            ("color", json.String "green")] eq_refl eq_refl).
  repeat first [apply List.Forall2_cons | apply List.Forall2_nil].
  - split; [done|]. right. split; [unfold Pokemon_keys; simpl; in_list|done].
  - split; [done|]. right. split; [unfold Pokemon_keys; simpl; in_list|done].
  - split; [done|]. by left.
Defined.

(** ** [parseJSON]: the types of the fields *)

(** The Go types of the fields of [Pokemon] (lines 28-35), by the kind of
    JSON value each takes. *)
Inductive kind : Type := KString | KInt32 | KStruct | KSlice.

Definition field_kind (tag : string) : option kind :=
  if String.eqb tag "name" then Some KString
  else if String.eqb tag "base_experience" then Some KInt32
  else if String.eqb tag "height" then Some KInt32
  else if String.eqb tag "id" then Some KInt32
  else if String.eqb tag "sprites" then Some KStruct
  else if String.eqb tag "stats" then Some KSlice
  else None.

(** [null] fits every type; otherwise a string fits a string, an integer
    literal in range an [int32], an object a struct, an array a slice. *)
Definition fits (k : kind) (v : json.value) : bool :=
  match v, k with
  | json.Null, _ => true
  | json.String _, KString => true
  | json.Number literal, KInt32 =>
      match json.int32_of_literal literal with Some _ => true | None => false end
  | json.Object _, KStruct => true
  | json.Array _, KSlice => true
  | _, _ => false
  end.

Lemma store_members_sticky {T : Type} (fs : json.fields T) members cur e :
  (json.store_members fs members cur (Some e)).2 = Some e.
Proof.
  revert cur; induction members as [|[key v] members IH]; intros cur; [done|].
  simpl. destruct (json.find_field fs key) as [store|]; [|apply IH].
  destruct (store v cur). apply IH.
Qed.

(** An error met in storing a member is an error of the whole object. *)
Lemma store_members_error {T : Type} (fs : json.fields T) members key v store cur saved :
  (key, v) ∈ members ->
  json.find_field fs key = Some store ->
  (forall c, (store v c).2 <> None) ->
  (json.store_members fs members cur saved).2 <> None.
Proof.
  intros (before & after & ->)%list_elem_of_split Hfind Hrej.
  rewrite store_members_app. simpl. rewrite Hfind.
  destruct (json.store_members fs before cur saved) as [c1 s1]. simpl.
  specialize (Hrej c1). destruct (store v c1) as [c2 [e|]]; [|done].
  destruct s1 as [e1|]; simpl; by rewrite store_members_sticky.
Qed.

Lemma field_rejects tag k v :
  field_kind tag = Some k -> fits k v = false ->
  tag ∈ Pokemon_keys /\
  exists store, json.find_field json.Pokemon_fields tag = Some store /\
                forall cur, (store v cur).2 <> None.
Proof.
  unfold field_kind. intros Hkind Hfits.
  repeat match type of Hkind with
    | context [String.eqb tag ?t] =>
        destruct (String.eqb_spec tag t) as [->|?];
        [ injection Hkind as <-;
          (split; [unfold Pokemon_keys; simpl; in_list|]);
          (eexists; split; [reflexivity|]); intros cur;
          unfold json.stats, json.field, json.into;
          destruct v; simpl in *; try done;
          match goal with
          | |- context [json.int32_of_literal ?l] =>
              by destruct (json.int32_of_literal l)
          end
        | ]
    end.
  done.
Qed.

(** A member that its field rejects makes [parseJSON] fail. *)
Lemma member_error body members key v store :
  json.parse body = Some (json.Object members) ->
  (key, v) ∈ members ->
  json.find_field json.Pokemon_fields key = Some store ->
  (forall cur, (store v cur).2 <> None) ->
  exists value gotype,
    parseJSON body =
    (Pokemon_zero,
     Some (Errorf "error parsing JSON: %v" (ArgError (UnmarshalTypeError value gotype)))).
Proof.
  intros Hparse Hin Hfind Hrej.
  pose proof (store_members_error json.Pokemon_fields members key v store
                (Pokemon_zero, []) None Hin Hfind Hrej) as Herr.
  pose proof (store_Pokemon_type_errors (json.Object members) (Pokemon_zero, []))
    as Htype.
  unfold parseJSON, json.Unmarshal. rewrite Hparse.
  unfold json.store_Pokemon, json.store_struct in *.
  destruct (json.store_members _ _ _ _) as [data [e|]]; [|done].
  destruct (Htype e eq_refl) as (value & gotype & ->). by eexists _, _.
Qed.

(** X12.  A present key is type-checked.  When the body is a JSON object
    one of whose members has an expected key, in any case, and a value
    that does not fit the Go type of that field (a number under [name], a
    string, a fraction or a number beyond 32 bits under [height], an array
    under [sprites], an object under [stats], a boolean anywhere),
    [parseJSON] fails with a type error, wherever the member stands and
    whatever the other members are. *)
Theorem wrong_type_fails (body : bytes) (members : list (string * json.value))
    (key tag : string) (v : json.value) (k : kind) :
  json.parse body = Some (json.Object members) ->
  (key, v) ∈ members ->
  json.equalFold key tag = true ->
  field_kind tag = Some k ->
  fits k v = false ->
  exists value gotype,
    parseJSON body =
    (Pokemon_zero,
     Some (Errorf "error parsing JSON: %v" (ArgError (UnmarshalTypeError value gotype)))).
Proof.
  intros Hparse Hin Hfold Hkind Hfits.
  destruct (field_rejects tag k v Hkind Hfits) as (Htag & store & Hfind & Hrej).
  rewrite <- (find_field_fold key tag Htag Hfold) in Hfind.
  by apply (member_error body members key v store).
Qed.

Lemma wrong_type_fails_witness :
  exists value gotype,
    parseJSON (text "{'name':'bulbasaur','Height':7.5}") =
    (Pokemon_zero,
     Some (Errorf "error parsing JSON: %v" (ArgError (UnmarshalTypeError value gotype)))).
Proof.
  apply (wrong_type_fails (text "{'name':'bulbasaur','Height':7.5}")
           [("name", json.String "bulbasaur"); ("Height", json.Number "7.5")]
           "Height" "height" (json.Number "7.5") KInt32 eq_refl);
    [in_list|reflexivity|reflexivity|reflexivity].
Defined.

(** X13.  A body that is a JSON value other than an object.  When the
    fetched body is the JSON text [null], [parseJSON] returns the zero
    [Pokemon] and no error, and [main] prints the six lines with zero
    values and returns: no sprite is requested.  When it is an array, a
    string, a number or a boolean, [parseJSON] returns the type error for
    [main.Pokemon] wrapped, and [main] prints that error and returns. *)
Theorem top_level_not_object (env : Env) (files : gmap string bytes) (w : World)
    (body : bytes) (v : json.value) :
  get_succeeds (fetched env) body ->
  json.parse body = Some v ->
  (forall members, v <> json.Object members) ->
  match v with
  | json.Null =>
      parseJSON body = (Pokemon_zero, None) /\
      (terminates env files w <-> w = printed_world files body Pokemon_zero)
  | _ =>
      let err := Errorf "error parsing JSON: %v"
                   (ArgError (UnmarshalTypeError (json.describe v) "main.Pokemon")) in
      parseJSON body = (Pokemon_zero, Some err) /\
      (terminates env files w <->
       w = {| trace := [(1%nat, EvHttpGet url);
                        (0%nat, EvRecv (Some 1%nat) (on_resultChan body));
                        (0%nat, EvPrintln [VString "Error:"; VError (Some err)])];
              fs := files |})
  end.
Proof.
  intros Hget Hparse Hobj.
  assert (Hnull : parseJSON body = (Pokemon_zero, None) ->
                  terminates env files w <-> w = printed_world files body Pokemon_zero).
  { intros Hp. rewrite terminates_iff.
    destruct (final_decoded env files body _ Hget Hp) as (w1 & Hfront & Hback).
    simpl in Hfront, Hback. injection Hfront as <-. by injection Hback as <-. }
  assert (Herr : forall err, parseJSON body = (Pokemon_zero, Some err) ->
            terminates env files w <->
            w = {| trace := [(1%nat, EvHttpGet url);
                             (0%nat, EvRecv (Some 1%nat) (on_resultChan body));
                             (0%nat, EvPrintln [VString "Error:"; VError (Some err)])];
                   fs := files |}).
  { intros err Hp. rewrite terminates_iff.
    by rewrite (final_parse_error env files body err Hget) by (by rewrite Hp). }
  assert (Hp : parseJSON body =
               match json.store_Pokemon v (Pokemon_zero, []) with
               | (_, Some e) =>
                   (Pokemon_zero, Some (Errorf "error parsing JSON: %v" (ArgError e)))
               | (data, None) => (data.1, None)
               end).
  { unfold parseJSON, json.Unmarshal. rewrite Hparse.
    by destruct (json.store_Pokemon v (Pokemon_zero, [])) as [t [e|]]. }
  destruct v; simpl in *; try (split; [exact Hp|by apply Herr]).
  - split; [exact Hp|by apply Hnull].
  - by destruct (Hobj members).
Qed.

Lemma top_level_not_object_witness :
  parseJSON (text " null ") = (Pokemon_zero, None) /\
  terminates (example_env (ok (text " null ")) unreachable [] None) ∅
    (printed_world ∅ (text " null ") Pokemon_zero).
Proof.
  destruct (top_level_not_object
              (example_env (ok (text " null ")) unreachable [] None) ∅
              (printed_world ∅ (text " null ") Pokemon_zero)
              (text " null ") json.Null) as [Hp Hw]; [get_ok|reflexivity|done|].
  split; [exact Hp|]. by apply Hw.
Defined.

(** ** [parseJSON]: which member fills which field *)

(** The members of other keys leave the field [get] of a struct with the
    fields [fs] alone. *)
Definition leaves {T F : Type} (fs : json.fields T) (get : T -> F) (tag : string)
  : Prop :=
  forall key store v cur,
    json.find_field fs key = Some store ->
    json.equalFold key tag = false ->
    get (store v cur).1 = get cur.

Ltac leaves_field :=
  intros key store v cur Hfind Hfold;
  unfold json.find_field in Hfind; simpl in Hfind;
  repeat match type of Hfind with
    | context [if ?b then _ else _] =>
        let E := fresh "E" in
        destruct b eqn:E; simpl in Hfind;
        [ try (apply equalFold_eqb in E); try congruence;
          injection Hfind as <-; unfold json.stats, json.field, json.into;
          match goal with |- context [?st v ?x] => by destruct (st v x) end
        | ]
    end;
  done.

Lemma store_members_leaves {T F : Type} (fs : json.fields T) (get : T -> F)
    tag members cur saved :
  leaves fs get tag ->
  (forall key v, (key, v) ∈ members -> json.equalFold key tag = false) ->
  get (json.store_members fs members cur saved).1 = get cur.
Proof.
  intros Hframe. revert cur saved.
  induction members as [|[key v] members IH]; intros cur saved Hkeys; [done|].
  simpl. assert (Hkey : json.equalFold key tag = false)
    by (apply (Hkeys key v); by left).
  assert (Hrest : forall key' v', (key', v') ∈ members -> json.equalFold key' tag = false)
    by (intros key' v' Hin; apply (Hkeys key' v'); by right).
  destruct (json.find_field fs key) as [store|] eqn:Hfind.
  - specialize (Hframe key store v cur Hfind Hkey).
    destruct (store v cur) as [cur' err]. rewrite IH by done. exact Hframe.
  - by apply IH.
Qed.

(** The field of a tag holds what the last member of that tag decodes to,
    stored over what the members before it had left there. *)
Lemma store_members_last {T F : Type} (fs : json.fields T) (get : T -> F)
    (set : F -> T -> T) (store : json.decoder F) key tag before v after cur saved :
  json.find_field fs key = Some (json.into get set store) ->
  (forall x c, get (set x c) = x) ->
  leaves fs get tag ->
  (forall key' v', (key', v') ∈ after -> json.equalFold key' tag = false) ->
  get (json.store_members fs (before ++ (key, v) :: after) cur saved).1
  = (store v (get (json.store_members fs before cur saved).1)).1.
Proof.
  intros Hfind Hgs Hframe Hafter.
  rewrite store_members_app. simpl. rewrite Hfind. unfold json.into at 1.
  destruct (json.store_members fs before cur saved) as [c1 s1]. simpl.
  destruct (store v (get c1)) as [x err].
  rewrite (store_members_leaves fs get tag) by done. by rewrite Hgs.
Qed.


Lemma leaves_Name : leaves json.Pokemon_fields (fun t => Name t.1) "name".
Proof. leaves_field. Qed.

Lemma leaves_BaseExp :
  leaves json.Pokemon_fields (fun t => BaseExp t.1) "base_experience".
Proof. leaves_field. Qed.

Lemma leaves_Height : leaves json.Pokemon_fields (fun t => Height t.1) "height".
Proof. leaves_field. Qed.

Lemma leaves_Id : leaves json.Pokemon_fields (fun t => Id t.1) "id".
Proof. leaves_field. Qed.









(** What [parseJSON] returns without error is what the members of the
    object have left in a zero [Pokemon]. *)
Lemma parseJSON_members body members p :
  json.parse body = Some (json.Object members) ->
  parseJSON body = (p, None) ->
  (json.store_members json.Pokemon_fields members (Pokemon_zero, []) None).1.1 = p /\
  (json.store_members json.Pokemon_fields members (Pokemon_zero, []) None).2 = None.
Proof.
  intros Hparse. unfold parseJSON, json.Unmarshal. rewrite Hparse.
  unfold json.store_Pokemon, json.store_struct.
  destruct (json.store_members _ _ _ _) as [data [err|]]; [done|].
  by intros [= <-].
Qed.

(** X14.  Of two members with the same key the last one wins.  When a body
    is decoded without error, the name is the string of the last member
    whose key is [name], in any case, and the base experience, the height
    and the id are the numbers of the last members of their keys, whatever
    members of the same key stand before. *)
Theorem last_member_wins (body : bytes) (p : Pokemon)
    (before after : list (string * json.value)) (key tag : string) (v : json.value) :
  parseJSON body = (p, None) ->
  json.parse body = Some (json.Object (before ++ (key, v) :: after)) ->
  json.equalFold key tag = true ->
  (forall key' v', (key', v') ∈ after -> json.equalFold key' tag = false) ->
  (tag = "name" -> forall s, v = json.String s -> Name p = s) /\
  (tag = "base_experience" -> forall literal n,
     v = json.Number literal -> json.int32_of_literal literal = Some n ->
     BaseExp p = n) /\
  (tag = "height" -> forall literal n,
     v = json.Number literal -> json.int32_of_literal literal = Some n ->
     Height p = n) /\
  (tag = "id" -> forall literal n,
     v = json.Number literal -> json.int32_of_literal literal = Some n ->
     Id p = n).
Proof.
  intros Hp Hparse Hfold Hafter.
  destruct (parseJSON_members body _ p Hparse Hp) as [<- _].
  assert (Hfind : tag ∈ Pokemon_keys ->
                  json.find_field json.Pokemon_fields key
                  = json.find_field json.Pokemon_fields tag)
    by (intros Htag; by apply find_field_fold).
  split_and!.
  - intros -> s ->.
    exact (store_members_last json.Pokemon_fields (fun t => Name t.1) _
             json.store_string key "name" before _ after (Pokemon_zero, []) None
             (Hfind ltac:(unfold Pokemon_keys; simpl; in_list))
             (fun _ _ => eq_refl) leaves_Name Hafter).
  - intros -> literal n -> Hn.
    pose proof (store_members_last json.Pokemon_fields (fun t => BaseExp t.1) _
                  json.store_int32 key "base_experience" before (json.Number literal)
                  after (Pokemon_zero, []) None
                  (Hfind ltac:(unfold Pokemon_keys; simpl; in_list))
                  (fun _ _ => eq_refl) leaves_BaseExp Hafter) as Hlast.
    simpl in Hlast. by rewrite Hn in Hlast.
  - intros -> literal n -> Hn.
    pose proof (store_members_last json.Pokemon_fields (fun t => Height t.1) _
                  json.store_int32 key "height" before (json.Number literal)
                  after (Pokemon_zero, []) None
                  (Hfind ltac:(unfold Pokemon_keys; simpl; in_list))
                  (fun _ _ => eq_refl) leaves_Height Hafter) as Hlast.
    simpl in Hlast. by rewrite Hn in Hlast.
  - intros -> literal n -> Hn.
    pose proof (store_members_last json.Pokemon_fields (fun t => Id t.1) _
                  json.store_int32 key "id" before (json.Number literal)
                  after (Pokemon_zero, []) None
                  (Hfind ltac:(unfold Pokemon_keys; simpl; in_list))
                  (fun _ _ => eq_refl) leaves_Id Hafter) as Hlast.
    simpl in Hlast. by rewrite Hn in Hlast.
Qed.

Lemma last_member_wins_witness :
  Name (parseJSON (text "{'name':'a','id':1,'name':'b','NAME':'c','id':2}")).1 = "c".
Proof.
  destruct (last_member_wins
              (text "{'name':'a','id':1,'name':'b','NAME':'c','id':2}")
              (parseJSON (text "{'name':'a','id':1,'name':'b','NAME':'c','id':2}")).1
              [("name", json.String "a"); ("id", json.Number "1");
               ("name", json.String "b")]
              [("id", json.Number "2")] "NAME" "name" (json.String "c")
              eq_refl eq_refl eq_refl) as (Hname & _).
  - intros key v' Hin. not_in_list Hin. by injection Hin as -> _.
  - by apply Hname.
Defined.

(** ** [parseJSON]: the nested structs *)












(** Empty objects store nothing: an array of [n] of them takes the first
    [n] elements of the backing array as they are, and zero elements where
    it ends. *)
Lemma store_elems_empty_objects n backing :
  json.store_elems (replicate n (json.Object [])) backing
  = (take n backing ++ replicate (n - length backing) StatInfo_zero, None).
Proof.
  revert backing; induction n as [|n IH]; intros backing; [done|].
  simpl. rewrite IH. destruct backing as [|x backing]; simpl; [|done].
  by rewrite take_nil, Nat.sub_0_r.
Qed.

(** The elements a shorter array cuts off come back under a longer one: a
    slice of two elements that is cut to one by a second array under
    [stats] has its second element again after a third array of two empty
    objects.  After an empty array, or [null], they are gone. *)
Lemma stats_cut_and_restored :
  List.map StatInfo_BaseStat
    (StatInfo_ (parseJSON (text "{'stats':[{'base_stat':1},{'base_stat':2}],'stats':[{}],'stats':[{},{}]}")).1)
  = [1; 2]%Z /\
  List.map StatInfo_BaseStat
    (StatInfo_ (parseJSON (text "{'stats':[{'base_stat':1},{'base_stat':2}],'stats':[],'stats':[{},{}]}")).1)
  = [0; 0]%Z /\
  List.map StatInfo_BaseStat
    (StatInfo_ (parseJSON (text "{'stats':[{'base_stat':1},{'base_stat':2}],'stats':null,'stats':[{},{}]}")).1)
  = [0; 0]%Z.
Proof. split_and!; reflexivity. Qed.







(** ** The paths of the sprite files *)

(** X17.  The two sprite files never collide.  Whatever the name of the
    Pokemon, the front and the back sprite go to two different paths in one
    directory: the name may hold separators, and then all but its last
    element name the directory, the same for both files, and the files are
    named by that last element followed by [_front.png] and [_back.png].
    The paths are relative: neither starts with a separator. *)
Theorem sprite_paths_differ (p : Pokemon) :
  frontFilename p <> backFilename p /\
  exists dir init file,
    filepath.elements (Name p) = init ++ [file] /\
    frontFilename p = filepath.join (dir ++ [file +:+ "_front.png"]) /\
    backFilename p = filepath.join (dir ++ [file +:+ "_back.png"]) /\
    Forall (fun e => e = ".." \/ real e) dir /\
    (forall c rest, frontFilename p = String.String c rest \/
                    backFilename p = String.String c rest ->
                    filepath.IsPathSeparator c = false).
Proof.
  destruct (elements_last (Name p)) as (init & file & Hname).
  destruct (Join_dot_suffix (Name p) "_front.png" init file eq_refl) as [Hf Hfc];
    [simpl; lia|done|].
  destruct (Join_dot_suffix (Name p) "_back.png" init file eq_refl) as [Hb Hbc];
    [simpl; lia|done|].
  fold (frontFilename p) in Hf. fold (backFilename p) in Hb.
  set (dir := rev (filepath.clean_elements false ("." :: init) [])) in *.
  split; [apply sprite_files_distinct|].
  exists dir, init, file. split_and!; try done.
  + destruct Hfc as (k & names & Hk & Hnames & _).
    assert (Hall : Forall (fun e => e = ".." \/ real e) (dir ++ [file +:+ "_front.png"])).
    { rewrite Hk. apply Forall_app. split.
      - clear. induction k; constructor; auto.
      - eapply Forall_impl; [exact Hnames|]. auto. }
    by apply Forall_app in Hall as [Hall _].
  + assert (Hhead : forall es c rest,
              cleaned false es -> es <> [] ->
              filepath.join es = String.String c rest ->
              filepath.IsPathSeparator c = false).
    { intros es c rest Hes Hne Hjoin. destruct es as [|e es]; [done|].
      destruct (cleaned_head false e es Hes) as (c' & e' & -> & Hc').
      destruct es; simpl in Hjoin; by injection Hjoin as <- _. }
    intros c rest [H|H].
    * rewrite Hf in H. apply (Hhead _ c rest Hfc); [by destruct dir|done].
    * rewrite Hb in H. apply (Hhead _ c rest Hbc); [by destruct dir|done].
Qed.

(** ** The lines that report a saved sprite *)

#[local] Opaque downloadSprite saveSprite.

(** A sprite step that prints its line of success has downloaded the body
    served for its URL and left it in its file. *)
Lemma sprite_step_saved env g l_download l_save l_saved u filename w w' :
  run env g (sprite_step l_download l_save l_saved u filename) w = Some (tt, w') ->
  (g, EvPrintln [VString l_saved; VString filename]) ∈ events_between w w' ->
  exists data,
    get_succeeds (env_get env (trace w) u) data /\ fs w' !! filename = Some data.
Proof.
  unfold sprite_step.
  destruct (String.eqb_spec u "") as [->|Hu]; simpl.
  { intros [= <-]. rewrite events_between_same. by intros ?%elem_of_nil. }
  rewrite run_bind.
  destruct (downloadSprite_run env g u w) as (data & err & -> & Hok & _).
  destruct err as [e|].
  - simpl. intros [= <-].
    erewrite events_between_app by (simpl; rewrite <- app_assoc; reflexivity).
    intros Hin. not_in_list Hin.
  - rewrite run_bind.
    destruct (saveSprite_run env g filename data (log g (EvHttpGet u) w))
      as (err & ws & -> & _ & Hcreate).
    simpl in Hcreate.
    destruct (env_create env (trace w ++ [(g, EvHttpGet u)]) filename) as [e0|].
    + destruct Hcreate as (Herr & _ & Htr). destruct err as [e|]; [|done].
      simpl. intros [= <-].
      erewrite events_between_app
        by (simpl; rewrite Htr, <- !app_assoc; reflexivity).
      intros Hin. not_in_list Hin.
    + destruct Hcreate as (Htr & Hfs). destruct err as [e|]; simpl; intros [= <-].
      * erewrite events_between_app
          by (simpl; rewrite Htr, <- !app_assoc; reflexivity).
        intros Hin. not_in_list Hin.
      * intros _. exists data. split; [by apply Hok|]. simpl. by apply Hfs.
Qed.

#[local] Transparent downloadSprite saveSprite.

(** X18.  A line that reports a saved sprite is true when [main] returns.
    In a run whose body is decoded, when the line [Front sprite saved as:]
    is on the console, the file it names holds, in the world in which
    [main] returns, exactly the body that the GET of the front URL was
    answered with, status 200 and read to its end; the back sprite step
    has not touched it.  The same holds of the line [Back sprite saved as:]
    and the back URL. *)
Theorem saved_lines_are_true (env : Env) (files : gmap string bytes) (w : World)
    (body : bytes) (p : Pokemon) :
  terminates env files w ->
  get_succeeds (fetched env) body ->
  parseJSON body = (p, None) ->
  exists w1,
    run env 0 (front_sprite p) (printed_world files body p) = Some (tt, w1) /\
    run env 0 (back_sprite p) w1 = Some (tt, w) /\
    ((0%nat, EvPrintln [VString "Front sprite saved as:"; VString (frontFilename p)])
     ∈ trace w ->
     exists data,
       get_succeeds
         (env_get env (trace (printed_world files body p)) (FrontDefault (Sprites_ p)))
         data /\
       fs w !! frontFilename p = Some data) /\
    ((0%nat, EvPrintln [VString "Back sprite saved as:"; VString (backFilename p)])
     ∈ trace w ->
     exists data,
       get_succeeds (env_get env (trace w1) (BackDefault (Sprites_ p))) data /\
       fs w !! backFilename p = Some data).
Proof.
  intros ->%terminates_iff Hget Hparse.
  destruct (decoded_run env files body p Hget Hparse)
    as (w1 & Hfront & Hback & Hf & Hb).
  exists w1. split; [done|]. split; [done|].
  destruct Hf as (Htr & Hevs & _).
  destruct Hb as (Htr' & Hevs' & _ & _ & Hfs' & _).
  rewrite front_sprite_step in Hfront. rewrite back_sprite_step in Hback.
  split.
  - intros Hin. rewrite Htr', Htr in Hin.
    apply elem_of_app in Hin as [Hin|Hin];
      [apply elem_of_app in Hin as [Hin|Hin]|].
    + simpl in Hin. not_in_list Hin.
    + destruct (sprite_step_saved env 0 _ _ _ _ _ _ _ Hfront Hin) as (data & Hdata & Hfile).
      exists data. split; [done|].
      rewrite Hfs'; [done|]. apply sprite_files_distinct.
    + destruct Hevs'; not_in_list Hin.
  - intros Hin. rewrite Htr', Htr in Hin.
    apply elem_of_app in Hin as [Hin|Hin];
      [apply elem_of_app in Hin as [Hin|Hin]|].
    + simpl in Hin. not_in_list Hin.
    + destruct Hevs; not_in_list Hin.
    + by apply (sprite_step_saved env 0 _ _ _ _ _ _ _ Hback Hin).
Qed.

Lemma saved_lines_are_true_witness :
  exists data,
    get_succeeds
      (env_get (example_env (ok bulbasaur) (ok png) [] None)
         (trace (printed_world ∅ bulbasaur (parseJSON bulbasaur).1))
         (FrontDefault (Sprites_ (parseJSON bulbasaur).1))) data /\
    fs (final_world (example_env (ok bulbasaur) (ok png) [] None) ∅)
      !! frontFilename (parseJSON bulbasaur).1 = Some data.
Proof.
  destruct (saved_lines_are_true (example_env (ok bulbasaur) (ok png) [] None) ∅
              _ bulbasaur (parseJSON bulbasaur).1 (terminates_final _ _))
    as (w1 & _ & _ & Hfront & _); [get_ok|reflexivity|].
  apply Hfront.
  change (frontFilename (parseJSON bulbasaur).1) with "bulbasaur_front.png".
  set (tr := trace (final_world _ _)). vm_compute in tr. subst tr. in_list.
Defined.

(** ** Every run ends *)





















(** ** [parseJSON]: the members that have no effect *)

(** A member that the decoder passes over: its key matches no field, or
    its value is [null] and its key is not the one of the stat list (under
    which [null] empties the list). *)
Definition skipped (m : string * json.value) : bool :=
  match json.find_field json.Pokemon_fields m.1 with
  | None => true
  | Some _ =>
      match m.2 with
      | json.Null => negb (json.equalFold m.1 "stats")
      | _ => false
      end
  end.

Lemma null_leaves_field key store cur :
  json.find_field json.Pokemon_fields key = Some store ->
  json.equalFold key "stats" = false ->
  store json.Null cur = (cur, None).
Proof.
  intros Hfind Hfold.
  unfold json.find_field in Hfind; simpl in Hfind;
  repeat match type of Hfind with
    | context [if ?b then _ else _] =>
        let E := fresh "E" in
        destruct b eqn:E; simpl in Hfind;
        [ try (apply equalFold_eqb in E); try congruence;
          injection Hfind as <-; unfold json.field, json.into; simpl;
          by destruct cur as [[] ?]
        | ]
    end;
  done.
Qed.

(** X20.  Unknown keys and [null] values have no effect.  Taking out of a
    JSON object the members whose key matches no field of [Pokemon], and
    the members whose value is [null] under any key but [stats], changes
    nothing: [parseJSON] returns the same [Pokemon] and the same error.  In
    particular [null] does not reset a field that an earlier member has
    set. *)
Theorem parseJSON_skips (body body' : bytes) (members : list (string * json.value)) :
  json.parse body = Some (json.Object members) ->
  json.parse body' =
  Some (json.Object (List.filter (fun m => negb (skipped m)) members)) ->
  parseJSON body = parseJSON body'.
Proof.
  intros Hbody Hbody'. unfold parseJSON, json.Unmarshal. rewrite Hbody, Hbody'.
  unfold json.store_Pokemon, json.store_struct.
  assert (Hstore : forall cur saved,
            json.store_members json.Pokemon_fields
              (List.filter (fun m => negb (skipped m)) members) cur saved =
            json.store_members json.Pokemon_fields members cur saved);
    [|by rewrite Hstore].
  clear Hbody Hbody'.
  induction members as [|[key v] members IH]; intros cur saved; [done|].
  simpl. unfold skipped at 1. simpl.
  destruct (json.find_field json.Pokemon_fields key) as [store|] eqn:Hfind;
    simpl; [|apply IH].
  destruct v; simpl; try (rewrite Hfind; destruct (store _ cur); apply IH).
  destruct (json.equalFold key "stats") eqn:Hfold; simpl.
  - rewrite Hfind. destruct (store _ cur). apply IH.
  - rewrite (null_leaves_field key store cur Hfind Hfold), IH. by destruct saved.
Qed.

Lemma parseJSON_skips_witness :
  parseJSON (text "{'color':'green','name':'x','Name':null,'moves':[1,2]}")
  = parseJSON (text "{'name':'x'}").
Proof.
  apply (parseJSON_skips
           (text "{'color':'green','name':'x','Name':null,'moves':[1,2]}")
           (text "{'name':'x'}")
           [("color", json.String "green"); ("name", json.String "x");
            ("Name", json.Null);
            ("moves", json.Array [json.Number "1"; json.Number "2"])]);
    reflexivity.
Defined.

(** ** [parseJSON]: a plain name *)

(** A byte that stands for itself in a JSON string: ASCII, no control
    character, no quote and no backslash. *)
Definition plain (b : byte) : bool :=
  json.between 32 (json.code b) 127
  && negb (json.code b =? 34)%Z && negb (json.code b =? 92)%Z.

Lemma scan_string_plain raw rest :
  forallb plain raw = true ->
  json.scan_string json.inString (raw ++ x22 :: rest) = Some (raw, rest).
Proof.
  induction raw as [|b raw IH]; [done|]. simpl.
  intros [Hb Hraw]%andb_true_iff. rewrite (IH Hraw).
  unfold plain, json.between in Hb.
  destruct (json.code b =? 34)%Z; [by rewrite andb_false_r in Hb|].
  destruct (json.code b =? 92)%Z; [by rewrite andb_false_r in Hb|].
  destruct (json.code b <? 32)%Z eqn:Hlt; [|done].
  apply Z.ltb_lt in Hlt. destruct (32 <=? json.code b)%Z eqn:Hle; [|done].
  apply Z.leb_le in Hle. lia.
Qed.

Lemma unquote_bytes_plain raw :
  forallb plain raw = true -> json.unquote_bytes 0 raw = raw.
Proof.
  induction raw as [|b raw IH]; [done|]. simpl.
  intros [Hb Hraw]%andb_true_iff. rewrite (IH Hraw).
  unfold plain, json.between in Hb.
  destruct (json.code b =? 92)%Z; [by rewrite andb_false_r in Hb|].
  destruct (json.code b <? 128)%Z eqn:Hlt; [done|].
  apply Z.ltb_ge in Hlt. rewrite !andb_true_iff in Hb.
  destruct Hb as [[[_ Hle%Z.leb_le] _] _]. lia.
Qed.

(** A string literal of plain bytes is read as those bytes. *)
Lemma parse_value_plain fuel depth raw rest :
  forallb plain raw = true ->
  json.parse_value (S fuel) depth (x22 :: raw ++ x22 :: rest)
  = Some (json.String (String.string_of_list_byte raw), rest).
Proof.
  intros Hraw. simpl. rewrite (scan_string_plain raw rest Hraw).
  unfold json.unquote. by rewrite unquote_bytes_plain.
Qed.

(** An object with the one member [name]. *)
Lemma parse_value_name fuel v value rest :
  json.parse_value fuel 1 value = Some (v, x7d :: rest) ->
  json.parse_value (S (S fuel)) 0 (text "{'name':" ++ value)
  = Some (json.Object [("name", v)], rest).
Proof.
  intros Hvalue.
  change (text "{'name':") with [x7b; x22; x6e; x61; x6d; x65; x22; x3a].
  simpl. change (0 + 1)%Z with 1%Z. by rewrite Hvalue.
Qed.

(** X21.  A plain name is decoded as it is written.  For every run of
    bytes [raw] that are printable ASCII without quote and backslash, the
    body that is the object with the one key [name] and [raw] between
    quotes is decoded without error into the [Pokemon] whose name is [raw]
    and whose other fields are zero. *)
Theorem plain_name_verbatim (raw : bytes) :
  forallb plain raw = true ->
  parseJSON (text "{'name':" ++ x22 :: raw ++ text "'}") =
  ({| Name := String.string_of_list_byte raw; BaseExp := 0; Height := 0; Id := 0;
      Sprites_ := Sprites_zero; StatInfo_ := [] |}, None).
Proof.
  intros Hraw.
  assert (Hparse : json.parse (text "{'name':" ++ x22 :: raw ++ text "'}")
                   = Some (json.Object
                             [("name", json.String (String.string_of_list_byte raw))])).
  { unfold json.parse.
    rewrite <- (parse_value_fuel _
                  (S (S (S (2 * length (text "{'name':" ++ x22 :: raw ++ text "'}"))))))
      by lia.
    by rewrite (parse_value_name _ (json.String (String.string_of_list_byte raw))
                  (x22 :: raw ++ text "'}") [])
      by (by apply parse_value_plain). }
  unfold parseJSON, json.Unmarshal. by rewrite Hparse.
Qed.

Lemma plain_name_verbatim_witness :
  parseJSON (text "{'name':'Mr. Mime'}") =
  ({| Name := "Mr. Mime"; BaseExp := 0; Height := 0; Id := 0;
      Sprites_ := Sprites_zero; StatInfo_ := [] |}, None).
Proof.
  apply (plain_name_verbatim (String.list_byte_of_string "Mr. Mime")). reflexivity.
Defined.

(** ** [parseJSON]: space around the body *)

Section Space.

Import json.















End Space.



(** ** [parseJSON]: numbers that are not written as integers *)

Lemma int32_of_literal_digits literal b :
  b ∈ String.list_byte_of_string literal ->
  json.is_digit (json.code b) = false -> json.code b <> 45%Z ->
  json.int32_of_literal literal = None.
Proof.
  intros Hin Hdigit Hminus. unfold json.int32_of_literal.
  assert (Hall : forall digits, b ∈ digits ->
                   forallb (fun b => json.is_digit (json.code b)) digits = false).
  { intros digits Hb. apply not_true_is_false. intros Hall.
    rewrite forallb_forall in Hall. apply list_elem_of_In, Hall in Hb. congruence. }
  destruct (String.list_byte_of_string literal) as [|b0 rest];
    [by apply elem_of_nil in Hin|].
  destruct (json.code b0 =? 45)%Z eqn:Hb0.
  - apply Z.eqb_eq in Hb0. apply elem_of_cons in Hin as [->|Hin]; [done|].
    destruct rest as [|d rest]; [done|]. by rewrite (Hall _ Hin).
  - by rewrite (Hall _ Hin).
Qed.

(** X23.  A number with a fraction or an exponent is no [int32].  When
    the body is a JSON object in which the key [base_experience], [height]
    or [id], in any case, holds a number written with a decimal point or an
    exponent, [parseJSON] fails with a type error, also when the number
    denotes an integer, as [7.0] and [1e2] do. *)
Theorem fraction_or_exponent_fails (body : bytes)
    (members : list (string * json.value)) (key tag literal : string) (b : byte) :
  json.parse body = Some (json.Object members) ->
  (key, json.Number literal) ∈ members ->
  json.equalFold key tag = true ->
  tag ∈ ["base_experience"; "height"; "id"] ->
  b ∈ String.list_byte_of_string literal ->
  b ∈ [x2e; x65; x45] ->
  exists value gotype,
    parseJSON body =
    (Pokemon_zero,
     Some (Errorf "error parsing JSON: %v" (ArgError (UnmarshalTypeError value gotype)))).
Proof.
  intros Hparse Hin Hfold Htag Hb Hkind.
  assert (Hnone : json.int32_of_literal literal = None)
    by (apply (int32_of_literal_digits literal b Hb); not_in_list Hkind; by subst b).
  destruct (field_rejects tag KInt32 (json.Number literal))
    as (Hkey & store & Hfind & Hrej).
  - not_in_list Htag; by subst tag.
  - simpl. by rewrite Hnone.
  - rewrite <- (find_field_fold key tag Hkey Hfold) in Hfind.
    by apply (member_error body members key (json.Number literal) store).
Qed.

Lemma fraction_or_exponent_fails_witness :
  exists value gotype,
    parseJSON (text "{'name':'x','height':7.0}") =
    (Pokemon_zero,
     Some (Errorf "error parsing JSON: %v" (ArgError (UnmarshalTypeError value gotype)))).
Proof.
  apply (fraction_or_exponent_fails (text "{'name':'x','height':7.0}")
           [("name", json.String "x"); ("height", json.Number "7.0")]
           "height" "height" "7.0" x2e eq_refl);
    [in_list|reflexivity|in_list|simpl; in_list|in_list].
Defined.
